(** * Goldilocks field arithmetic and the width-12 Poseidon permutation

    A shallow embedding of [src/cuda/def.cuh].  Machine integers are modelled
    as [Z] with the wrap-around of each C++ type written out; the single-field
    struct [GoldilocksField] is a record; loops that may run forever carry a
    fuel argument and report [OutOfFuel]; failed [assert]s and undefined
    behaviour (signed overflow, out-of-range indexing) are distinct outcomes. *)

From Stdlib Require Import ZArith Lia List Bool Znumtheory Zpow_facts.
From Stdlib Require Import Setoid Morphisms.
From Stdlib Require Import Zmod.ZmodInv.
Import ListNotations.
Local Open Scope Z_scope.

(** ** Machine integers *)

Definition wrap32 (x : Z) : Z := x mod 2 ^ 32.
Definition wrap64 (x : Z) : Z := x mod 2 ^ 64.
Definition wrap128 (x : Z) : Z := x mod 2 ^ 128.

Definition UINT64_MAX : Z := 2 ^ 64 - 1.
Definition UINT128_MAX : Z := 2 ^ 128 - 1.
Definition INT_MAX : Z := 2 ^ 31 - 1.
Definition I128_MIN : Z := - 2 ^ 127.
Definition I128_MAX : Z := 2 ^ 127 - 1.

Definition is_u32 (x : Z) : Prop := 0 <= x < 2 ^ 32.
Definition is_u64 (x : Z) : Prop := 0 <= x < 2 ^ 64.
Definition is_u128 (x : Z) : Prop := 0 <= x < 2 ^ 128.

(** [overflowing_add] / [overflowing_sub] on [uint64_t]: the wrapped result
    and the carry (borrow) flag the source stores through [int* overflow]. *)
Definition overflowing_add (a b : Z) : Z * bool :=
  (wrap64 (a + b), UINT64_MAX - b <? a).

Definition overflowing_sub (a b : Z) : Z * bool :=
  (wrap64 (a - b), a <? b).

Definition EPSILON : Z := Z.shiftl 1 32 - 1.

Definition flag (b : bool) : Z := if b then 1 else 0.

(** ** Outcomes of code that can abort, misbehave or diverge *)

Inductive outcome (A : Type) : Type :=
| Ok (a : A)
| AssertFail
| Undefined
| OutOfFuel.
Arguments Ok {A} a.
Arguments AssertFail {A}.
Arguments Undefined {A}.
Arguments OutOfFuel {A}.

Definition bind {A B : Type} (m : outcome A) (k : A -> outcome B) : outcome B :=
  match m with
  | Ok a => k a
  | AssertFail => AssertFail
  | Undefined => Undefined
  | OutOfFuel => OutOfFuel
  end.

Notation "'do' x <- m ; k" := (bind m (fun x => k))
  (at level 10, x name, m at level 100, k at level 200).

Definition assert (b : bool) : outcome unit := if b then Ok tt else AssertFail.

(** Signed 128-bit arithmetic: a result outside the type is undefined. *)
Definition i128_checked (x : Z) : outcome Z :=
  if (I128_MIN <=? x) && (x <=? I128_MAX) then Ok x else Undefined.

(** [d <<= n] on [i128]; the shift is arithmetic (multiplication by [2^n]),
    as on every compiler the source targets. *)
Definition i128_shl (x n : Z) : outcome Z :=
  if (0 <=? n) && (n <? 128) then i128_checked (x * 2 ^ n) else Undefined.

(** ** struct GoldilocksField *)

Record GoldilocksField : Type := mkGF { data : Z }.

Module GoldilocksField.

Definition TWO_ADICITY : Z := 32.
Definition CHARACTERISTIC_TWO_ADICITY : Z := TWO_ADICITY.
Definition ORDER : Z := 0xFFFFFFFF00000001.

Definition coset_shift : GoldilocksField := mkGF 7.

Definition to_noncanonical_u64 (x : GoldilocksField) : Z := data x.
Definition from_canonical_u64 (n : Z) : GoldilocksField := mkGF n.

(** operator+ with its [assert] kept: [add_checked].  On 64-bit words the
    assertion cannot fail ([add_checked_ok] below), so the rest of the
    development uses [add], the value it computes. *)
Definition add_checked (x rhs : GoldilocksField) : outcome GoldilocksField :=
  let '(sum, over) := overflowing_add (data x) (data rhs) in
  let '(sum, over) := overflowing_add sum (wrap64 (flag over * EPSILON)) in
  if over then
    do _ <- assert ((ORDER <? data x) && (ORDER <? data rhs)) ;
    Ok (mkGF (wrap64 (sum + EPSILON)))
  else Ok (mkGF sum).

Definition add (x rhs : GoldilocksField) : GoldilocksField :=
  let '(sum, over) := overflowing_add (data x) (data rhs) in
  let '(sum, over) := overflowing_add sum (wrap64 (flag over * EPSILON)) in
  if over then mkGF (wrap64 (sum + EPSILON)) else mkGF sum.

(** operator- (binary), likewise: [sub_checked] and [sub], related by
    [sub_checked_ok]. *)
Definition sub_checked (x rhs : GoldilocksField) : outcome GoldilocksField :=
  let '(diff, under) := overflowing_sub (data x) (data rhs) in
  let '(diff, under) := overflowing_sub diff (wrap64 (flag under * EPSILON)) in
  if under then
    do _ <- assert ((data x <? EPSILON - 1) && (ORDER <? data rhs)) ;
    Ok (mkGF (wrap64 (diff - EPSILON)))
  else Ok (mkGF diff).

Definition sub (x rhs : GoldilocksField) : GoldilocksField :=
  let '(diff, under) := overflowing_sub (data x) (data rhs) in
  let '(diff, under) := overflowing_sub diff (wrap64 (flag under * EPSILON)) in
  if under then mkGF (wrap64 (diff - EPSILON)) else mkGF diff.

Definition reduce128 (x_hi x_lo : Z) : GoldilocksField :=
  let x_hi_hi := Z.shiftr x_hi 32 in
  let x_hi_lo := Z.land x_hi EPSILON in
  let '(t0, borrow) := overflowing_sub x_lo x_hi_hi in
  let t0 := if borrow then wrap64 (t0 - EPSILON) else t0 in
  let t1 := wrap64 (x_hi_lo * EPSILON) in
  let t2 :=
    if UINT64_MAX - t1 <? t0
    then wrap64 (wrap64 (t1 + t0) + 0xffffffff)
    else wrap64 (t0 + t1) in
  mkGF t2.

(** operator*: schoolbook 64x64 -> 128 product from four 32-bit partial
    products, then [reduce128]. *)
Definition mul (x rhs : GoldilocksField) : GoldilocksField :=
  let a := data x in
  let b := data rhs in
  let a_low := Z.land a 0xFFFFFFFF in
  let a_high := Z.shiftr a 32 in
  let b_low := Z.land b 0xFFFFFFFF in
  let b_high := Z.shiftr b 32 in
  let product_low := wrap64 (a_low * b_low) in
  let product_mid1 := wrap64 (a_low * b_high) in
  let product_mid2 := wrap64 (a_high * b_low) in
  let product_high := wrap64 (a_high * b_high) in
  let carry :=
    wrap64 (wrap64 (Z.shiftr product_low 32 + Z.land product_mid1 0xFFFFFFFF)
            + Z.land product_mid2 0xFFFFFFFF) in
  let high :=
    wrap64 (wrap64 (wrap64 (product_high + Z.shiftr product_mid1 32)
                    + Z.shiftr product_mid2 32)
            + Z.shiftr carry 32) in
  let low := wrap64 (wrap64 (Z.shiftl carry 32) + Z.land product_low 0xFFFFFFFF) in
  reduce128 high low.

Definition square (x : GoldilocksField) : GoldilocksField := mul x x.

Definition sub_one (x : GoldilocksField) : GoldilocksField :=
  sub x (from_canonical_u64 1).

(** operator==: compares the stored words. *)
Definition eqb (x rhs : GoldilocksField) : bool := data rhs =? data x.

(** operator- (unary): [GoldilocksField{-this->data}] on [uint64_t]. *)
Definition neg (x : GoldilocksField) : GoldilocksField := mkGF (wrap64 (- data x)).

Definition multiply_accumulate (acc x y : GoldilocksField) : GoldilocksField :=
  add acc (mul x y).

Definition add_canonical_u64 (acc : GoldilocksField) (rhs : Z) : GoldilocksField :=
  add acc (from_canonical_u64 rhs).

(** [reduce128(n >> 64, n & UINT64_MAX)]; the arguments are converted to
    [uint64_t]. *)
Definition from_noncanonical_u128 (n : Z) : GoldilocksField :=
  reduce128 (wrap64 (Z.shiftr n 64)) (wrap64 (Z.land n UINT64_MAX)).

Definition from_noncanonical_u96 (n_lo n_hi : Z) : GoldilocksField :=
  let n := wrap128 (wrap128 (Z.shiftl n_hi 64) + n_lo) in
  from_noncanonical_u128 n.

(** [inverse_2exp]: [2^-exp = p - (p - 1) / 2^exp], multiplying by [2^-32]
    while the exponent exceeds the two-adicity.  The loop strictly
    decreases [e], so [exp] iterations are always enough. *)
Fixpoint inverse_2exp_loop (n : nat) (inverse_2_pow_adicity res : GoldilocksField)
    (e : Z) : GoldilocksField * Z :=
  match n with
  | O => (res, e)
  | S n' =>
      if CHARACTERISTIC_TWO_ADICITY <? e
      then inverse_2exp_loop n' inverse_2_pow_adicity
             (mul res inverse_2_pow_adicity)
             (wrap64 (e - CHARACTERISTIC_TWO_ADICITY))
      else (res, e)
  end.

(** The source's [if (true)] leaves its [else] branch dead; only the live
    branch is kept. *)
Definition inverse_2exp (exp : Z) : GoldilocksField :=
  let p := ORDER in
  if CHARACTERISTIC_TWO_ADICITY <? exp then
    let inverse_2_pow_adicity :=
      from_canonical_u64
        (wrap64 (p - Z.shiftr (wrap64 (p - 1)) CHARACTERISTIC_TWO_ADICITY)) in
    let res := inverse_2_pow_adicity in
    let e := wrap64 (exp - CHARACTERISTIC_TWO_ADICITY) in
    let '(res, e) :=
      inverse_2exp_loop (Z.to_nat exp) inverse_2_pow_adicity res e in
    mul res (from_canonical_u64 (wrap64 (p - Z.shiftr (wrap64 (p - 1)) e)))
  else
    from_canonical_u64 (wrap64 (p - Z.shiftr (wrap64 (p - 1)) exp)).

Fixpoint exp_u64_loop (n : nat) (j : Z) (power : Z)
    (current product : GoldilocksField) : GoldilocksField :=
  match n with
  | O => product
  | S n' =>
      let product :=
        if negb (Z.land (Z.shiftr power j) 1 =? 0) then mul product current
        else product in
      exp_u64_loop n' (j + 1) power (square current) product
  end.

Definition exp_u64 (x : GoldilocksField) (power : Z) : GoldilocksField :=
  exp_u64_loop 64 0 power x (from_canonical_u64 1).

(** The lambda [trailing_zeros] of [inverse]: it never leaves its loop on
    [n = 0]; [count] is an [int]. *)
Fixpoint trailing_zeros (fuel : nat) (n : Z) (count : Z) : outcome Z :=
  if Z.land n 1 =? 0 then
    match fuel with
    | O => OutOfFuel
    | S fuel' =>
        if count <? INT_MAX
        then trailing_zeros fuel' (Z.shiftr n 1) (count + 1)
        else Undefined
    end
  else Ok count.

(** The variables [f], [g], [c], [d], [k] that the iteration lambdas of
    [inverse] update through references. *)
Record inv_state : Type :=
  mkInv { st_f : Z; st_g : Z; st_c : Z; st_d : Z; st_k : Z }.

Definition swap_if_less (s : inv_state) : inv_state :=
  if st_f s <? st_g s
  then mkInv (st_g s) (st_f s) (st_d s) (st_c s) (st_k s)
  else s.

Definition safe_iteration (fuel : nat) (s0 : inv_state) : outcome inv_state :=
  let s := swap_if_less s0 in
  if Z.land (st_f s) 3 =? Z.land (st_g s) 3 then
    let f := wrap64 (st_f s - st_g s) in
    do c <- i128_checked (st_c s - st_d s) ;
    do kk <- trailing_zeros fuel f 0 ;
    do d <- i128_shl (st_d s) kk ;
    Ok (mkInv (Z.shiftr f kk) (st_g s) c d (wrap32 (st_k s + kk)))
  else
    let f :=
      wrap64 (wrap64 (Z.shiftr (st_f s) 2 + Z.shiftr (st_g s) 2) + 1) in
    do c <- i128_checked (st_c s + st_d s) ;
    do kk <- trailing_zeros fuel f 0 ;
    do d <- i128_shl (st_d s) (kk + 2) ;
    Ok (mkInv (Z.shiftr f kk) (st_g s) c d (wrap32 (st_k s + (kk + 2)))).

Definition unsafe_iteration (fuel : nat) (s0 : inv_state) : outcome inv_state :=
  let s := swap_if_less s0 in
  let same := Z.land (st_f s) 3 =? Z.land (st_g s) 3 in
  let f :=
    if same then wrap64 (st_f s - st_g s) else wrap64 (st_f s + st_g s) in
  do c <- i128_checked (if same then st_c s - st_d s else st_c s + st_d s) ;
  do kk <- trailing_zeros fuel f 0 ;
  do d <- i128_shl (st_d s) kk ;
  Ok (mkInv (Z.shiftr f kk) (st_g s) c d (wrap32 (st_k s + kk))).

(** [while (f != 1) unsafe_iteration(f, g, c, d, k);] *)
Fixpoint remaining_iterations (tz_fuel fuel : nat) (s : inv_state)
    : outcome inv_state :=
  if st_f s =? 1 then Ok s
  else
    match fuel with
    | O => OutOfFuel
    | S fuel' =>
        do s' <- unsafe_iteration tz_fuel s ;
        remaining_iterations tz_fuel fuel' s'
    end.

(** [while (c < 0) c += i128(ORDER);]: one unit of fuel per addition. *)
Fixpoint canon_add_loop (fuel : nat) (c : Z) : outcome Z :=
  if c <? 0 then
    match fuel with
    | O => OutOfFuel
    | S fuel' => do c' <- i128_checked (c + ORDER) ; canon_add_loop fuel' c'
    end
  else Ok c.

(** [while (c >= i128(ORDER)) c -= i128(ORDER);]: one unit of fuel per
    subtraction. *)
Fixpoint canon_sub_loop (fuel : nat) (c : Z) : outcome Z :=
  if ORDER <=? c then
    match fuel with
    | O => OutOfFuel
    | S fuel' => do c' <- i128_checked (c - ORDER) ; canon_sub_loop fuel' c'
    end
  else Ok c.

(** The part of [inverse] before the canonicalisation loops: either one of
    the three early [return]s, or the state at the exit of the main loop. *)
Inductive gcd_exit : Type :=
| Early (r : GoldilocksField)
| LoopExit (s : inv_state).

Definition inverse_gcd (fuel : nat) (x : GoldilocksField) : outcome gcd_exit :=
  let f := data x in
  let g := ORDER in
  let c := 1 in
  let d := 0 in
  do tz <- trailing_zeros fuel f 0 ;
  let k := wrap32 tz in
  let f := Z.shiftr f k in
  if f =? 1 then Ok (Early (inverse_2exp k))
  else
    do s1 <- safe_iteration fuel (mkInv f g c d k) ;
    if st_f s1 =? 1 then
      if st_c s1 =? -1 then Ok (Early (neg (inverse_2exp (st_k s1))))
      else
        do _ <- assert (st_c s1 =? 1) ;
        Ok (Early (inverse_2exp (st_k s1)))
    else
      do s2 <- safe_iteration fuel s1 ;
      do s3 <- remaining_iterations fuel fuel s2 ;
      Ok (LoopExit s3).

Definition inverse (fuel : nat) (x : GoldilocksField) : outcome GoldilocksField :=
  do e <- inverse_gcd fuel x ;
  match e with
  | Early r => Ok r
  | LoopExit s =>
      do c <- canon_add_loop fuel (st_c s) ;
      do c <- canon_sub_loop fuel c ;
      Ok (mul (from_canonical_u64 (wrap64 c)) (inverse_2exp (st_k s)))
  end.

End GoldilocksField.

(** ** struct PoseidonHasher *)

Module PoseidonHasher.

(** Modelled from the spec: [constants.cuh] is not among the sources; the
    spec fixes the sponge width to 12 lanes, which is also the bound the
    source hard-codes in its unrolled loops. *)
Definition SPONGE_WIDTH : nat := 12.

(** Modelled from the spec: the remaining names of [constants.cuh] (round
    counts, the rate, and the numeric tables, which the spec lists without
    values) are the fields of one record, so every function below is
    parametric in them.  Table entries are read as [uint64_t]. *)
Record constants : Type := mkConstants {
  SPONGE_RATE : nat;
  HALF_N_FULL_ROUNDS : nat;
  N_PARTIAL_ROUNDS : nat;
  N_ROUNDS : nat;
  ALL_ROUND_CONSTANTS : nat -> Z;
  MDS_MATRIX_CIRC : nat -> Z;
  MDS_MATRIX_DIAG : nat -> Z;
  FAST_PARTIAL_FIRST_ROUND_CONSTANT : nat -> Z;
  FAST_PARTIAL_ROUND_CONSTANTS : nat -> Z;
  FAST_PARTIAL_ROUND_INITIAL_MATRIX : nat -> nat -> Z;
  FAST_PARTIAL_ROUND_W_HATS : nat -> nat -> Z;
  FAST_PARTIAL_ROUND_VS : nat -> nat -> Z
}.

Record HashOut : Type := mkHashOut { elements : list GoldilocksField }.

Definition state : Type := list GoldilocksField.

Definition lane (st : state) (i : nat) : GoldilocksField := nth i st (mkGF 0).

Fixpoint upd {A : Type} (i : nat) (v : A) (l : list A) : list A :=
  match l, i with
  | [], _ => []
  | _ :: t, O => v :: t
  | h :: t, S i' => h :: upd i' v t
  end.

(** The [my_pair<u128, u32>] accumulator: (low 128 bits, high word). *)
Definition add_u160_u128 (pa : Z * Z) (y : Z) : Z * Z :=
  let '(x_lo, x_hi) := pa in
  let over := UINT128_MAX - y <? x_lo in
  let res_lo := wrap128 (x_lo + y) in
  let res_hi := wrap32 (x_hi + flag over) in
  (res_lo, res_hi).

Definition reduce_u160 (pa : Z * Z) : GoldilocksField :=
  let '(n_lo, n_hi) := pa in
  let n_lo_hi := wrap64 (Z.shiftr n_lo 64) in
  let n_lo_lo := wrap64 n_lo in
  let reduced_hi :=
    GoldilocksField.to_noncanonical_u64
      (GoldilocksField.from_noncanonical_u96 n_lo_hi n_hi) in
  let reduced128 := wrap128 (wrap128 (Z.shiftl reduced_hi 64) + n_lo_lo) in
  GoldilocksField.from_noncanonical_u128 reduced128.

(** The unrolled loops [for (int i = a; i < 12; ++i) if (i < WIDTH) ...]. *)
Definition unrolled {S : Type} (from : nat) (body : nat -> S -> S) (s : S) : S :=
  fold_left (fun s i => if (i <? SPONGE_WIDTH)%nat then body i s else s)
            (seq from (12 - from)) s.

Definition sbox_monomial (x : GoldilocksField) : GoldilocksField :=
  let x2 := GoldilocksField.square x in
  let x4 := GoldilocksField.square x2 in
  let x3 := GoldilocksField.mul x x2 in
  GoldilocksField.mul x3 x4.

Section WithConstants.

Variable K : constants.

Definition u64_at (table : nat -> Z) (i : nat) : Z := wrap64 (table i).

Definition constant_layer (round_ctr : nat) (st : state) : state :=
  unrolled 0
    (fun i st =>
       let round_constant :=
         u64_at (ALL_ROUND_CONSTANTS K) (i + SPONGE_WIDTH * round_ctr) in
       upd i (GoldilocksField.add_canonical_u64 (lane st i) round_constant) st)
    st.

Definition sbox_layer (st : state) : state :=
  unrolled 0 (fun i st => upd i (sbox_monomial (lane st i)) st) st.

Definition mds_row_shf (r : nat) (v : list Z) : outcome Z :=
  do _ <- assert (r <? SPONGE_WIDTH)%nat ;
  let res :=
    unrolled 0
      (fun i res =>
         wrap128
           (res + wrap128 (nth ((i + r) mod SPONGE_WIDTH) v 0
                           * u64_at (MDS_MATRIX_CIRC K) i)))
      0 in
  Ok (wrap128 (res + wrap128 (nth r v 0 * u64_at (MDS_MATRIX_DIAG K) r))).

Definition mds_layer (st : state) : outcome state :=
  let _state :=
    map (fun r => GoldilocksField.to_noncanonical_u64 (lane st r))
        (seq 0 SPONGE_WIDTH) in
  unrolled 0
    (fun r acc =>
       do st <- acc ;
       do sum <- mds_row_shf r _state ;
       let sum_lo := wrap64 sum in
       let sum_hi := wrap32 (Z.shiftr sum 64) in
       Ok (upd r (GoldilocksField.from_noncanonical_u96 sum_lo sum_hi) st))
    (Ok st).

Fixpoint full_rounds_loop (n : nat) (round_ctr : nat) (st : state)
    : outcome (nat * state) :=
  match n with
  | O => Ok (round_ctr, st)
  | S n' =>
      let st := constant_layer round_ctr st in
      let st := sbox_layer st in
      do st <- mds_layer st ;
      full_rounds_loop n' (round_ctr + 1)%nat st
  end.

Definition full_rounds (round_ctr : nat) (st : state) : outcome (nat * state) :=
  full_rounds_loop (HALF_N_FULL_ROUNDS K) round_ctr st.

Definition partial_first_constant_layer (st : state) : state :=
  unrolled 0
    (fun i st =>
       upd i
         (GoldilocksField.add (lane st i)
            (GoldilocksField.from_canonical_u64
               (u64_at (FAST_PARTIAL_FIRST_ROUND_CONSTANT K) i)))
         st)
    st.

Definition mds_partial_layer_init (st : state) : state :=
  let result := repeat (mkGF 0) SPONGE_WIDTH in
  let result := upd 0 (lane st 0) result in
  let result :=
    unrolled 1
      (fun r result =>
         unrolled 1
           (fun c result =>
              let t :=
                GoldilocksField.from_canonical_u64
                  (u64_at (FAST_PARTIAL_ROUND_INITIAL_MATRIX K (r - 1)) (c - 1)) in
              upd c
                (GoldilocksField.add (lane result c)
                   (GoldilocksField.mul (lane st r) t))
                result)
           result)
      result in
  fold_left (fun st i => upd i (lane result i) st) (seq 0 SPONGE_WIDTH) st.

Definition mds_partial_layer_fast (r : nat) (st : state) : state :=
  let d_sum : Z * Z := (0, 0) in
  let d_sum :=
    unrolled 1
      (fun i d_sum =>
         let t := u64_at (FAST_PARTIAL_ROUND_W_HATS K r) (i - 1) in
         let si := GoldilocksField.to_noncanonical_u64 (lane st i) in
         add_u160_u128 d_sum (wrap128 (si * t)))
      d_sum in
  let s0 := GoldilocksField.to_noncanonical_u64 (lane st 0) in
  let mds0to0 :=
    wrap64 (u64_at (MDS_MATRIX_CIRC K) 0 + u64_at (MDS_MATRIX_DIAG K) 0) in
  let d_sum := add_u160_u128 d_sum (wrap128 (s0 * mds0to0)) in
  let d := reduce_u160 d_sum in
  let result := repeat (mkGF 0) SPONGE_WIDTH in
  let result := upd 0 d result in
  let result :=
    unrolled 1
      (fun i result =>
         let t :=
           GoldilocksField.from_canonical_u64
             (u64_at (FAST_PARTIAL_ROUND_VS K r) (i - 1)) in
         upd i (GoldilocksField.multiply_accumulate (lane st i) (lane st 0) t)
             result)
      result in
  fold_left (fun st i => upd i (lane result i) st) (seq 0 12) st.

Fixpoint partial_rounds_loop (n : nat) (i : nat) (st : state) : state :=
  match n with
  | O => st
  | S n' =>
      let st := upd 0 (sbox_monomial (lane st 0)) st in
      let st :=
        upd 0
          (GoldilocksField.add_canonical_u64 (lane st 0)
             (u64_at (FAST_PARTIAL_ROUND_CONSTANTS K) i))
          st in
      let st := mds_partial_layer_fast i st in
      partial_rounds_loop n' (i + 1)%nat st
  end.

Definition partial_rounds (round_ctr : nat) (st : state) : nat * state :=
  let st := partial_first_constant_layer st in
  let st := mds_partial_layer_init st in
  let st := partial_rounds_loop (N_PARTIAL_ROUNDS K) 0 st in
  ((round_ctr + N_PARTIAL_ROUNDS K)%nat, st).

Definition permute_poseidon (st : state) : outcome state :=
  let round_ctr := 0%nat in
  do rs <- full_rounds round_ctr st ;
  let '(round_ctr, st) := rs in
  let '(round_ctr, st) := partial_rounds round_ctr st in
  do rs <- full_rounds round_ctr st ;
  let '(round_ctr, st) := rs in
  do _ <- assert (round_ctr =? N_ROUNDS K)%nat ;
  Ok st.

(** The inner loop [for (j = 0; j < SPONGE_RATE; ++j) state[j] = input[i*SPONGE_RATE+j]];
    [state] has [SPONGE_WIDTH] slots, a store past them is undefined. *)
Fixpoint absorb_chunk (n : nat) (j : nat) (i : nat)
    (input : nat -> GoldilocksField) (st : state) : outcome state :=
  match n with
  | O => Ok st
  | S n' =>
      if (j <? SPONGE_WIDTH)%nat
      then absorb_chunk n' (j + 1)%nat i input
             (upd j (input (i * SPONGE_RATE K + j)%nat) st)
      else Undefined
  end.

(** The outer loop [for (i = 0; i < len; i += SPONGE_RATE)], [len = 4]. *)
Fixpoint absorb_loop (fuel : nat) (i : nat) (input : nat -> GoldilocksField)
    (st : state) : outcome state :=
  if (i <? 4)%nat then
    match fuel with
    | O => OutOfFuel
    | S fuel' =>
        do st <- absorb_chunk (SPONGE_RATE K) 0 i input st ;
        do st <- permute_poseidon st ;
        absorb_loop fuel' (i + SPONGE_RATE K)%nat input st
    end
  else Ok st.

(** [input] is the memory behind the [const GoldilocksField*] argument. *)
Definition hash_n_to_m_no_pad (fuel : nat) (input : nat -> GoldilocksField)
    : outcome HashOut :=
  let st := repeat (mkGF 0) SPONGE_WIDTH in
  do st <- absorb_loop fuel 0 input st ;
  Ok (mkHashOut (firstn 4 st)).

End WithConstants.

End PoseidonHasher.

(** ** Ranges, views and the free functions *)

Definition INT_MIN : Z := - 2 ^ 31.

(** Arithmetic on [int]: a result outside the type is undefined. *)
Definition int_checked (x : Z) : outcome Z :=
  if (INT_MIN <=? x) && (x <=? INT_MAX) then Ok x else Undefined.

(** Conversion of an unsigned value to [int]: its low 32 bits, read in two's
    complement. *)
Definition to_int (x : Z) : Z :=
  let w := wrap32 x in
  if w <? 2 ^ 31 then w else w - 2 ^ 32.

(** The built-in variables of a kernel launch that the two helpers below
    read, each an [unsigned int]. *)
Record launch : Type :=
  mkLaunch { threadIdx_x : Z; blockIdx_x : Z; blockDim_x : Z; gridDim_x : Z }.

(** [threadIdx.x + blockIdx.x * blockDim.x], computed on [unsigned int] and
    converted to [int]. *)
Definition get_global_id (l : launch) : Z :=
  to_int (wrap32 (threadIdx_x l + wrap32 (blockIdx_x l * blockDim_x l))).

Definition get_global_thcnt (l : launch) : Z :=
  to_int (wrap32 (gridDim_x l * blockDim_x l)).

(** [Range<T>], a [my_pair<T, T>]. *)
Record Range : Type := mkRange { first : Z; second : Z }.

(** Device memory holding field elements; a [GoldilocksField*] is an address,
    counted in elements. *)
Definition memory : Type := Z -> GoldilocksField.

Record GoldilocksFieldView : Type := mkView { ptr : Z; len : Z }.

Module GoldilocksFieldView.

(** The three overloads of [view]: [(start, end)], [(start)] and
    [(Range<int>)]. *)
Definition view (v : GoldilocksFieldView) (start end_ : Z)
    : outcome GoldilocksFieldView :=
  do l <- int_checked (end_ - start) ;
  Ok (mkView (ptr v + start) l).

Definition view_from (v : GoldilocksFieldView) (start : Z)
    : outcome GoldilocksFieldView :=
  do l <- int_checked (len v - start) ;
  Ok (mkView (ptr v + start) l).

Definition view_range (v : GoldilocksFieldView) (range : Range)
    : outcome GoldilocksFieldView :=
  do l <- int_checked (second range - first range) ;
  Ok (mkView (ptr v + first range) l).

(** operator[]: no bounds check. *)
Definition get (mem : memory) (v : GoldilocksFieldView) (index : Z)
    : GoldilocksField :=
  mem (ptr v + index).

(** [begin()] and [end()], as the addresses the iterators hold. *)
Definition begin (v : GoldilocksFieldView) : Z := ptr v.
Definition end_ (v : GoldilocksFieldView) : Z := ptr v + len v.

End GoldilocksFieldView.

Record StridedConstraintConsumer : Type := mkConsumer { terms : Z }.

Module StridedConstraintConsumer.

(** [*terms++ = term;]: the store and the advanced pointer. *)
Definition one (term : GoldilocksField) (s : memory * StridedConstraintConsumer)
    : memory * StridedConstraintConsumer :=
  let '(mem, c) := s in
  (fun a => if a =? terms c then term else mem a, mkConsumer (terms c + 1)).

End StridedConstraintConsumer.

(** The loop [for (int i = range.second - 1; i >= 0; --i) sum = sum * alpha + f(i);]
    with [n] iterations left: the next index is [n - 1]. *)
Fixpoint reduce_with_powers_loop (n : nat) (f : Z -> GoldilocksField)
    (alpha sum : GoldilocksField) : outcome GoldilocksField :=
  match n with
  | O => Ok sum
  | S i =>
      do sum <- GoldilocksField.add_checked (GoldilocksField.mul sum alpha)
                  (f (Z.of_nat i)) ;
      reduce_with_powers_loop i f alpha sum
  end.

(** The template [reduce_with_powers(Range<usize>, FN, GoldilocksField)].
    [range.second - 1] is computed on [usize] and converted to [int];
    [range.first] is not read. *)
Definition reduce_with_powers (range : Range) (f : Z -> GoldilocksField)
    (alpha : GoldilocksField) : outcome GoldilocksField :=
  let sum := mkGF 0 in
  let i := to_int (wrap64 (second range - 1)) in
  reduce_with_powers_loop (Z.to_nat (i + 1)) f alpha sum.

(** The overload on a view: [Range<usize>{0, terms.len}] and the lambda
    [terms[i]]. *)
Definition reduce_with_powers_view (mem : memory) (terms : GoldilocksFieldView)
    (alpha : GoldilocksField) : outcome GoldilocksField :=
  reduce_with_powers (mkRange 0 (wrap64 (len terms)))
    (fun i => GoldilocksFieldView.get mem terms i) alpha.

(** [(a + b - 1) / b] on [usize]; division by zero is undefined. *)
Definition ceil_div_usize (a b : Z) : outcome Z :=
  if b =? 0 then Undefined
  else Ok (wrap64 (wrap64 (a + b) - 1) / b).

(** * Specification vocabulary *)

(** Congruence modulo the field order. *)
Definition congr (a b : Z) : Prop :=
  a mod GoldilocksField.ORDER = b mod GoldilocksField.ORDER.

Notation "a ~= b" := (congr a b) (at level 70, no associativity).

(** What an iteration of [inverse] needs of its state: [f] and [g] odd,
    positive, distinct 64-bit values. *)
Record pre (s : GoldilocksField.inv_state) : Prop := mkPre {
  pre_f_odd : GoldilocksField.st_f s mod 2 = 1;
  pre_g_odd : GoldilocksField.st_g s mod 2 = 1;
  pre_f_pos : 0 < GoldilocksField.st_f s;
  pre_g_pos : 0 < GoldilocksField.st_g s;
  pre_f_u64 : GoldilocksField.st_f s < 2 ^ 64;
  pre_g_u64 : GoldilocksField.st_g s < 2 ^ 64;
  pre_neq : GoldilocksField.st_f s <> GoldilocksField.st_g s;
  pre_k : 0 <= GoldilocksField.st_k s <= 1000
}.

(** [step_rel sigma KK s s']: [s'] is [s] after one iteration that combined
    the larger of [f], [g] with [sigma] times the smaller one and stripped
    [KK] factors of two. *)
Definition step_rel (sigma KK : Z) (s s' : GoldilocksField.inv_state) : Prop :=
  let w := GoldilocksField.swap_if_less s in
  GoldilocksField.st_f s' * 2 ^ KK
  = GoldilocksField.st_f w - sigma * GoldilocksField.st_g w /\
  GoldilocksField.st_g s' = GoldilocksField.st_g w /\
  GoldilocksField.st_c s'
  = GoldilocksField.st_c w - sigma * GoldilocksField.st_d w /\
  GoldilocksField.st_d s' = GoldilocksField.st_d w * 2 ^ KK /\
  GoldilocksField.st_k s' = GoldilocksField.st_k s + KK /\
  GoldilocksField.st_f s' mod 2 = 1 /\ 0 < GoldilocksField.st_f s'.

(** The loop invariant of [inverse] on input word [a]: [f] and [g] stay odd,
    positive and coprime, [f * 2^k = c * a] and [g * 2^k = d * a] modulo the
    order, and [k] is bounded through the sizes of [f] and [g]. *)
Definition Inv (a : Z) (s : GoldilocksField.inv_state) : Prop :=
  GoldilocksField.st_f s mod 2 = 1 /\ GoldilocksField.st_g s mod 2 = 1 /\
  0 < GoldilocksField.st_f s /\ 0 < GoldilocksField.st_g s /\
  Z.coprime (GoldilocksField.st_f s) (GoldilocksField.st_g s) /\
  GoldilocksField.st_f s * 2 ^ GoldilocksField.st_k s
    ~= GoldilocksField.st_c s * a /\
  GoldilocksField.st_g s * 2 ^ GoldilocksField.st_k s
    ~= GoldilocksField.st_d s * a /\
  0 <= GoldilocksField.st_k s /\
  GoldilocksField.st_k s
  + 2 * (Z.log2 (GoldilocksField.st_f s) + Z.log2 (GoldilocksField.st_g s))
  <= 320.

(** The inputs on which [inverse] leaves through [return -inverse_2exp(k)]:
    the words [(p - 2^m) * 2^t]. *)
Definition negating_input (a : Z) : Prop :=
  exists m t, 2 <= m /\ 0 <= t /\ a = (GoldilocksField.ORDER - 2 ^ m) * 2 ^ t.

(** The closed form [p - ((p - 1) >> e)] of [inverse_2exp]. *)
Definition small_inverse (e : Z) : Z :=
  wrap64 (GoldilocksField.ORDER - Z.shiftr (wrap64 (GoldilocksField.ORDER - 1)) e).

Definition small_inverse_ok (e : Z) : bool :=
  (0 <=? small_inverse e) && (small_inverse e <? 2 ^ 64)
  && ((small_inverse e * 2 ^ e) mod GoldilocksField.ORDER =? 1).

(** Whether [inverse] leaves through [return -inverse_2exp(k)]. *)
Definition negated_exit (fuel : nat) (x : GoldilocksField) : bool :=
  match GoldilocksField.trailing_zeros fuel (data x) 0 with
  | Ok tz =>
      let k := wrap32 tz in
      let f := Z.shiftr (data x) k in
      if f =? 1 then false
      else
        match GoldilocksField.safe_iteration fuel
                (GoldilocksField.mkInv f GoldilocksField.ORDER 1 0 k) with
        | Ok s1 =>
            (GoldilocksField.st_f s1 =? 1) && (GoldilocksField.st_c s1 =? -1)
        | _ => false
        end
  | _ => false
  end.

(** An outcome that is neither a value nor a failed assertion. *)
Definition diverges {A : Type} (m : outcome A) : Prop :=
  m = OutOfFuel \/ m = Undefined.

Definition no_assert {A : Type} (m : outcome A) : Prop := m <> AssertFail.


Definition sum_Z (l : list Z) : Z := fold_right Z.add 0 l.

(** The integer held by a 160-bit accumulator. *)
Definition u160_value (pa : Z * Z) : Z := snd pa * 2 ^ 128 + fst pa.

(** What [mds_partial_layer_fast] computes, read off the source: lane 0 is
    the reduced dot product of the state with [(M_00 | w_hat)], lane [i >= 1]
    is [state[i] + state[0] * V[r][i-1]]. *)
Definition w_hat_term (K : PoseidonHasher.constants) (r : nat)
    (st : PoseidonHasher.state) (i : nat) : Z :=
  data (PoseidonHasher.lane st i)
  * PoseidonHasher.u64_at (PoseidonHasher.FAST_PARTIAL_ROUND_W_HATS K r) (i - 1).

Definition mds0to0 (K : PoseidonHasher.constants) : Z :=
  wrap64 (PoseidonHasher.u64_at (PoseidonHasher.MDS_MATRIX_CIRC K) 0
          + PoseidonHasher.u64_at (PoseidonHasher.MDS_MATRIX_DIAG K) 0).

Definition fast_lane0 (K : PoseidonHasher.constants) (r : nat)
    (st : PoseidonHasher.state) : GoldilocksField :=
  PoseidonHasher.reduce_u160
    (PoseidonHasher.add_u160_u128
       (fold_left PoseidonHasher.add_u160_u128
          (map (fun i => wrap128 (w_hat_term K r st i)) (seq 1 11)) (0, 0))
       (wrap128 (data (PoseidonHasher.lane st 0) * mds0to0 K))).

Definition fast_lane (K : PoseidonHasher.constants) (r : nat)
    (st : PoseidonHasher.state) (i : nat) : GoldilocksField :=
  GoldilocksField.multiply_accumulate (PoseidonHasher.lane st i)
    (PoseidonHasher.lane st 0)
    (GoldilocksField.from_canonical_u64
       (PoseidonHasher.u64_at (PoseidonHasher.FAST_PARTIAL_ROUND_VS K r) (i - 1))).

(** S-box on lane 0 only, as a partial round applies it. *)
Definition sbox_lane_0 (st : PoseidonHasher.state) : PoseidonHasher.state :=
  PoseidonHasher.upd 0
    (PoseidonHasher.sbox_monomial (PoseidonHasher.lane st 0)) st.

(** The state on which [permute_poseidon] makes its first call of
    [mds_partial_layer_fast]: after the first half of the full rounds, the
    first-round constants, the initial mixing, and the S-box and round
    constant on lane 0. *)
Definition partial_round_entry (K : PoseidonHasher.constants)
    (st : PoseidonHasher.state) : PoseidonHasher.state :=
  let st := PoseidonHasher.partial_first_constant_layer K st in
  let st := PoseidonHasher.mds_partial_layer_init K st in
  let st := sbox_lane_0 st in
  PoseidonHasher.upd 0
    (GoldilocksField.add_canonical_u64 (PoseidonHasher.lane st 0)
       (PoseidonHasher.u64_at (PoseidonHasher.FAST_PARTIAL_ROUND_CONSTANTS K) 0))
    st.

Definition first_fast_step_input (K : PoseidonHasher.constants)
    (st : PoseidonHasher.state) : outcome PoseidonHasher.state :=
  do rs <- PoseidonHasher.full_rounds K 0 st ;
  Ok (partial_round_entry K (snd rs)).

(** ** Sample data for the closed examples

    One instantiation of the tables of [constants.cuh]: a dense circulant MDS
    vector with a one-entry diagonal, and small distinct entries elsewhere. *)

Definition table (l : list Z) (i : nat) : Z := nth i l 0.

Definition sample_constants : PoseidonHasher.constants :=
  {| PoseidonHasher.SPONGE_RATE := 8;
     PoseidonHasher.HALF_N_FULL_ROUNDS := 4;
     PoseidonHasher.N_PARTIAL_ROUNDS := 22;
     PoseidonHasher.N_ROUNDS := 30;
     PoseidonHasher.ALL_ROUND_CONSTANTS := fun i => Z.of_nat (i + 1);
     PoseidonHasher.MDS_MATRIX_CIRC :=
       table [17; 15; 41; 16; 2; 28; 13; 13; 39; 18; 34; 20];
     PoseidonHasher.MDS_MATRIX_DIAG :=
       table [8; 0; 0; 0; 0; 0; 0; 0; 0; 0; 0; 0];
     PoseidonHasher.FAST_PARTIAL_FIRST_ROUND_CONSTANT := fun i => Z.of_nat (i + 2);
     PoseidonHasher.FAST_PARTIAL_ROUND_CONSTANTS := fun i => Z.of_nat (i + 3);
     PoseidonHasher.FAST_PARTIAL_ROUND_INITIAL_MATRIX :=
       fun r c => Z.of_nat (r + c + 1);
     PoseidonHasher.FAST_PARTIAL_ROUND_W_HATS := fun r i => Z.of_nat (r + i + 5);
     PoseidonHasher.FAST_PARTIAL_ROUND_VS := fun r i => Z.of_nat (2 * r + i + 7) |}.

Definition unit_lane_1 : PoseidonHasher.state :=
  map mkGF [0; 1; 0; 0; 0; 0; 0; 0; 0; 0; 0; 0].

Definition sample_state : PoseidonHasher.state :=
  map mkGF [1; 2; 3; 4; 5; 6; 7; 8; 9; 10; 11; 12].

Definition sample_input (j : nat) : GoldilocksField := mkGF (Z.of_nat j + 1).


(** The state [first_fast_step_input] reaches from [sample_state] under
    [sample_constants]. *)
Definition sample_partial_state : PoseidonHasher.state :=
  map mkGF
    [3601444759662990925; 16605306728297304275; 3653077389478651679;
     9147592120074583404; 14642106850670515129; 1689877511851862533;
     7184392242447794258; 12678906973043725983; 18173421703639657708;
     5221192364821005112; 10715707095416936837; 16210221826012868562].

(** ** Vocabulary of the further properties *)

(** [sum_{i < n} f(i) * x^i]. *)
Fixpoint poly_eval (f : Z -> Z) (x : Z) (n : nat) : Z :=
  match n with
  | O => 0
  | S i => poly_eval f x i + f (Z.of_nat i) * x ^ Z.of_nat i
  end.

(** Row [r] of the circulant-plus-diagonal MDS matrix applied to a state, as
    an integer. *)
Definition mds_row_sum (K : PoseidonHasher.constants)
    (st : PoseidonHasher.state) (r : nat) : Z :=
  sum_Z (map (fun i =>
                data (PoseidonHasher.lane st ((i + r) mod 12))
                * PoseidonHasher.u64_at (PoseidonHasher.MDS_MATRIX_CIRC K) i)
             (seq 0 12))
  + data (PoseidonHasher.lane st r)
    * PoseidonHasher.u64_at (PoseidonHasher.MDS_MATRIX_DIAG K) r.

(** Column [c] of the initial matrix of the partial rounds applied to lanes
    1..11 of a state. *)
Definition init_col_sum (K : PoseidonHasher.constants)
    (st : PoseidonHasher.state) (c : nat) : Z :=
  sum_Z (map (fun r =>
                data (PoseidonHasher.lane st r)
                * PoseidonHasher.u64_at
                    (PoseidonHasher.FAST_PARTIAL_ROUND_INITIAL_MATRIX K (r - 1))
                    (c - 1))
             (seq 1 11)).

(** A state of [SPONGE_WIDTH] 64-bit words. *)
Definition state_ok (st : PoseidonHasher.state) : Prop :=
  length st = PoseidonHasher.SPONGE_WIDTH /\
  forall i, (i < 12)%nat -> is_u64 (data (PoseidonHasher.lane st i)).

(** The cells [p], [p + 1], ... written by successive calls of [one]. *)
Definition feed (ts : list GoldilocksField)
    (s : memory * StridedConstraintConsumer) : memory * StridedConstraintConsumer :=
  fold_left (fun s t => StridedConstraintConsumer.one t s) ts s.

(** The MDS matrix entries are small: thirteen products of a 64-bit word
    with an entry fit 96 bits. *)
Definition small_mds (K : PoseidonHasher.constants) : Prop :=
  forall i, (i < 12)%nat ->
    PoseidonHasher.u64_at (PoseidonHasher.MDS_MATRIX_CIRC K) i < 2 ^ 28 /\
    PoseidonHasher.u64_at (PoseidonHasher.MDS_MATRIX_DIAG K) i < 2 ^ 28.

(** Row [r] of a full round on the field: the MDS matrix applied to the
    seventh powers of the state plus the round constants. *)
Definition full_round_row (K : PoseidonHasher.constants) (round_ctr : nat)
    (st : PoseidonHasher.state) (r : nat) : Z :=
  let x := fun j =>
    data (PoseidonHasher.lane st j)
    + PoseidonHasher.u64_at (PoseidonHasher.ALL_ROUND_CONSTANTS K)
        (j + 12 * round_ctr) in
  sum_Z (map (fun i =>
                x ((i + r) mod 12)%nat ^ 7
                * PoseidonHasher.u64_at (PoseidonHasher.MDS_MATRIX_CIRC K) i)
             (seq 0 12))
  + x r ^ 7 * PoseidonHasher.u64_at (PoseidonHasher.MDS_MATRIX_DIAG K) r.

(** The lanes of [mds_layer], [constant_layer], [sbox_layer],
    [partial_first_constant_layer] and [mds_partial_layer_init], one
    expression per lane. *)
Definition mds_lane (K : PoseidonHasher.constants) (st : PoseidonHasher.state)
    (r : nat) : GoldilocksField :=
  let v :=
    map (fun r => GoldilocksField.to_noncanonical_u64 (PoseidonHasher.lane st r))
        (seq 0 PoseidonHasher.SPONGE_WIDTH) in
  let res :=
    fold_left
      (fun res i =>
         wrap128
           (res + wrap128 (nth ((i + r) mod PoseidonHasher.SPONGE_WIDTH) v 0
                           * PoseidonHasher.u64_at (PoseidonHasher.MDS_MATRIX_CIRC K) i)))
      (seq 0 12) 0 in
  let sum :=
    wrap128 (res + wrap128 (nth r v 0
                            * PoseidonHasher.u64_at (PoseidonHasher.MDS_MATRIX_DIAG K) r)) in
  GoldilocksField.from_noncanonical_u96 (wrap64 sum) (wrap32 (Z.shiftr sum 64)).

Definition constant_lane (K : PoseidonHasher.constants) (round_ctr : nat)
    (st : PoseidonHasher.state) (i : nat) : GoldilocksField :=
  GoldilocksField.add_canonical_u64 (PoseidonHasher.lane st i)
    (PoseidonHasher.u64_at (PoseidonHasher.ALL_ROUND_CONSTANTS K)
       (i + PoseidonHasher.SPONGE_WIDTH * round_ctr)).

Definition first_constant_lane (K : PoseidonHasher.constants)
    (st : PoseidonHasher.state) (i : nat) : GoldilocksField :=
  GoldilocksField.add (PoseidonHasher.lane st i)
    (GoldilocksField.from_canonical_u64
       (PoseidonHasher.u64_at (PoseidonHasher.FAST_PARTIAL_FIRST_ROUND_CONSTANT K) i)).

Definition init_lane (K : PoseidonHasher.constants) (st : PoseidonHasher.state)
    (c : nat) : GoldilocksField :=
  fold_left
    (fun acc r =>
       GoldilocksField.add acc
         (GoldilocksField.mul (PoseidonHasher.lane st r)
            (GoldilocksField.from_canonical_u64
               (PoseidonHasher.u64_at
                  (PoseidonHasher.FAST_PARTIAL_ROUND_INITIAL_MATRIX K (r - 1))
                  (c - 1)))))
    (seq 1 11) (mkGF 0).

(** The input words [hash_n_to_m_no_pad] reads: chunk [i = q * SPONGE_RATE]
    takes the words [i * SPONGE_RATE + j]. *)
Definition absorbed_index (K : PoseidonHasher.constants) (n : nat) : Prop :=
  exists q j,
    (q * PoseidonHasher.SPONGE_RATE K < 4)%nat /\
    (j < PoseidonHasher.SPONGE_RATE K)%nat /\
    n = (q * PoseidonHasher.SPONGE_RATE K * PoseidonHasher.SPONGE_RATE K + j)%nat.

(** One partial round on the field: lane 0 after the S-box and the round
    constant, the dot product with [(M_00 | w_hat)] for lane 0, and
    [state[j] + x_0 * V[i][j-1]] for the other lanes. *)
Definition partial_round_x0 (K : PoseidonHasher.constants) (i : nat)
    (st : PoseidonHasher.state) : Z :=
  data (PoseidonHasher.lane st 0) ^ 7
  + PoseidonHasher.u64_at (PoseidonHasher.FAST_PARTIAL_ROUND_CONSTANTS K) i.

Definition partial_round_row0 (K : PoseidonHasher.constants) (i : nat)
    (st : PoseidonHasher.state) : Z :=
  partial_round_x0 K i st * mds0to0 K
  + sum_Z (map (w_hat_term K i st) (seq 1 11)).

Definition partial_round_row (K : PoseidonHasher.constants) (i : nat)
    (st : PoseidonHasher.state) (j : nat) : Z :=
  data (PoseidonHasher.lane st j)
  + partial_round_x0 K i st
    * PoseidonHasher.u64_at (PoseidonHasher.FAST_PARTIAL_ROUND_VS K i) (j - 1).

(** Column [c] of the initial matrix applied to the state plus the
    first-round constants. *)
Definition prologue_col (K : PoseidonHasher.constants)
    (st : PoseidonHasher.state) (c : nat) : Z :=
  sum_Z (map (fun r =>
                (data (PoseidonHasher.lane st r)
                 + PoseidonHasher.u64_at
                     (PoseidonHasher.FAST_PARTIAL_FIRST_ROUND_CONSTANT K) r)
                * PoseidonHasher.u64_at
                    (PoseidonHasher.FAST_PARTIAL_ROUND_INITIAL_MATRIX K (r - 1))
                    (c - 1))
             (seq 1 11)).

(** * Proofs *)

Import GoldilocksField.
Import PoseidonHasher.

(** ** Field arithmetic *)

Lemma EPSILON_val : EPSILON = 4294967295.
Proof. reflexivity. Qed.

Lemma ORDER_val : ORDER = 18446744069414584321.
Proof. reflexivity. Qed.

Ltac consts :=
  unfold is_u64, is_u32, is_u128, wrap64, wrap32, wrap128, UINT64_MAX, UINT128_MAX in *;
  rewrite ?EPSILON_val, ?ORDER_val in *;
  change (2 ^ 32) with 4294967296 in *;
  change (2 ^ 64) with 18446744073709551616 in *;
  change (2 ^ 128) with 340282366920938463463374607431768211456 in *.

Lemma mod_eq_shift (x y k m : Z) : x = y + k * m -> x mod m = y mod m.
Proof. intros ->. apply Z_mod_plus_full. Qed.

Ltac solve_wrap := Z.div_mod_to_equations; lia.

Ltac cong_by_shift :=
  first [ apply (mod_eq_shift _ _ 0); solve_wrap
        | apply (mod_eq_shift _ _ (-1)); solve_wrap
        | apply (mod_eq_shift _ _ 1); solve_wrap
        | apply (mod_eq_shift _ _ (-2)); solve_wrap
        | apply (mod_eq_shift _ _ 2); solve_wrap ].

Ltac break_flag :=
  match goal with
  | |- context [flag (?a <? ?b)] => destruct (Z.ltb_spec a b); cbn [flag]
  end.
Ltac break_lt :=
  match goal with
  | |- context [?a <? ?b] => destruct (Z.ltb_spec a b)
  end.

Lemma add_spec (a b : GoldilocksField) :
  is_u64 (data a) -> is_u64 (data b) ->
  is_u64 (data (add a b)) /\ data (add a b) mod ORDER = (data a + data b) mod ORDER.
Proof.
  destruct a as [a], b as [b]; cbn [data]; intros Ha Hb.
  unfold add, overflowing_add; cbn [data]. consts.
  break_flag; break_lt; cbn [data]; (split; [solve_wrap | cong_by_shift]).
Qed.

Lemma add_checked_ok (a b : GoldilocksField) :
  is_u64 (data a) -> is_u64 (data b) -> add_checked a b = Ok (add a b).
Proof.
  destruct a as [a], b as [b]; cbn [data]; intros Ha Hb.
  unfold add_checked, add, overflowing_add, assert; cbn [data]. consts.
  break_flag; break_lt; try reflexivity.
  - assert (Hx : 18446744069414584321 < a) by solve_wrap.
    assert (Hy : 18446744069414584321 < b) by solve_wrap.
    apply Z.ltb_lt in Hx, Hy. rewrite Hx, Hy. reflexivity.
  - exfalso; solve_wrap.
Qed.

Lemma sub_spec (a b : GoldilocksField) :
  is_u64 (data a) -> is_u64 (data b) ->
  is_u64 (data (sub a b)) /\ data (sub a b) mod ORDER = (data a - data b) mod ORDER.
Proof.
  destruct a as [a], b as [b]; cbn [data]; intros Ha Hb.
  unfold sub, overflowing_sub; cbn [data]. consts.
  break_flag; break_lt; cbn [data]; (split; [solve_wrap | cong_by_shift]).
Qed.

Lemma sub_checked_ok (a b : GoldilocksField) :
  is_u64 (data a) -> is_u64 (data b) -> sub_checked a b = Ok (sub a b).
Proof.
  destruct a as [a], b as [b]; cbn [data]; intros Ha Hb.
  unfold sub_checked, sub, overflowing_sub, assert; cbn [data]. consts.
  break_flag; break_lt; try reflexivity.
  - assert (Hx : a < 4294967295 - 1) by solve_wrap.
    assert (Hy : 18446744069414584321 < b) by solve_wrap.
    apply Z.ltb_lt in Hx, Hy. rewrite Hx, Hy. reflexivity.
  - exfalso; solve_wrap.
Qed.

Lemma land_ones_32 (x : Z) : Z.land x 4294967295 = x mod 4294967296.
Proof. change 4294967295 with (Z.ones 32). rewrite Z.land_ones by lia. reflexivity. Qed.

Lemma land_ones_64 (x : Z) : Z.land x 18446744073709551615 = x mod 18446744073709551616.
Proof. change 18446744073709551615 with (Z.ones 64). rewrite Z.land_ones by lia. reflexivity. Qed.

Lemma shiftr_32 (x : Z) : Z.shiftr x 32 = x / 4294967296.
Proof. rewrite Z.shiftr_div_pow2 by lia. reflexivity. Qed.

Lemma shiftr_64 (x : Z) : Z.shiftr x 64 = x / 18446744073709551616.
Proof. rewrite Z.shiftr_div_pow2 by lia. reflexivity. Qed.

Lemma shiftl_32 (x : Z) : Z.shiftl x 32 = x * 4294967296.
Proof. rewrite Z.shiftl_mul_pow2 by lia. reflexivity. Qed.

Lemma shiftl_64 (x : Z) : Z.shiftl x 64 = x * 18446744073709551616.
Proof. rewrite Z.shiftl_mul_pow2 by lia. reflexivity. Qed.

Ltac bits :=
  change 0xffffffff with 4294967295 in *;
  rewrite ?land_ones_32, ?land_ones_64, ?shiftr_32, ?shiftr_64, ?shiftl_32, ?shiftl_64 in *.

Lemma reduce128_spec (x_hi x_lo : Z) :
  is_u64 x_hi -> is_u64 x_lo ->
  is_u64 (data (reduce128 x_hi x_lo)) /\
  data (reduce128 x_hi x_lo) mod ORDER = (x_hi * 2 ^ 64 + x_lo) mod ORDER.
Proof.
  intros Hh Hl. unfold reduce128, overflowing_sub. consts. bits.
  cbn [data].
  pose proof (Z.div_mod x_hi 4294967296 ltac:(lia)) as E.
  pose proof (Z.mod_pos_bound x_hi 4294967296 ltac:(lia)) as B.
  assert (0 <= x_hi / 4294967296 < 4294967296) as Bh
    by (split; [apply Z.div_pos; lia | apply Z.div_lt_upper_bound; lia]).
  set (hh := x_hi / 4294967296) in *. set (hl := x_hi mod 4294967296) in *.
  clearbody hh hl. subst x_hi.
  assert (T1 : (hl * 4294967295) mod 18446744073709551616 = hl * 4294967295)
    by (apply Z.mod_small; lia).
  rewrite T1.
  destruct (Z.ltb_spec x_lo hh) as [H1|H1].
  - assert (T0 : ((x_lo - hh) mod 18446744073709551616 - 4294967295) mod 18446744073709551616
                 = x_lo - hh + 18446744069414584321) by solve_wrap.
    rewrite T0.
    break_lt; (split; [solve_wrap | ]).
    + apply (mod_eq_shift _ _ (- (hh * 4294967297 + hl))). solve_wrap.
    + apply (mod_eq_shift _ _ (1 - (hh * 4294967297 + hl))). solve_wrap.
  - assert (T0 : (x_lo - hh) mod 18446744073709551616 = x_lo - hh) by solve_wrap.
    rewrite T0.
    break_lt; (split; [solve_wrap | ]).
    + apply (mod_eq_shift _ _ (- 1 - (hh * 4294967297 + hl))). solve_wrap.
    + apply (mod_eq_shift _ _ (- (hh * 4294967297 + hl))). solve_wrap.
Qed.

Lemma prod32_bound (x y : Z) :
  0 <= x < 4294967296 -> 0 <= y < 4294967296 ->
  0 <= x * y <= 18446744065119617025.
Proof.
  intros Hx Hy. split; [apply Z.mul_nonneg_nonneg; lia|].
  change 18446744065119617025 with (4294967295 * 4294967295).
  apply Z.mul_le_mono_nonneg; lia.
Qed.

Lemma mul_as_reduce128 (a b : GoldilocksField) :
  is_u64 (data a) -> is_u64 (data b) ->
  mul a b = reduce128 ((data a * data b) / 2 ^ 64) ((data a * data b) mod 2 ^ 64).
Proof.
  destruct a as [a], b as [b]; cbn [data]; intros Ha Hb.
  unfold mul; cbn [data].
  change 0xFFFFFFFF with 4294967295. consts. bits.
  pose proof (Z.div_mod a 4294967296 ltac:(lia)) as Ea.
  pose proof (Z.mod_pos_bound a 4294967296 ltac:(lia)) as Bal.
  assert (0 <= a / 4294967296 < 4294967296) as Bah
    by (split; [apply Z.div_pos; lia | apply Z.div_lt_upper_bound; lia]).
  pose proof (Z.div_mod b 4294967296 ltac:(lia)) as Eb.
  pose proof (Z.mod_pos_bound b 4294967296 ltac:(lia)) as Bbl.
  assert (0 <= b / 4294967296 < 4294967296) as Bbh
    by (split; [apply Z.div_pos; lia | apply Z.div_lt_upper_bound; lia]).
  set (ah := a / 4294967296) in *. set (al := a mod 4294967296) in *.
  set (bh := b / 4294967296) in *. set (bl := b mod 4294967296) in *.
  clearbody ah al bh bl.
  assert (EN : a * b = (ah * bh) * 18446744073709551616
                       + (al * bh + ah * bl) * 4294967296 + al * bl)
    by (subst a b; ring).
  rewrite EN. clear EN Ea Eb.
  pose proof (prod32_bound al bl Bal Bbl) as Pl.
  pose proof (prod32_bound al bh Bal Bbh) as P1.
  pose proof (prod32_bound ah bl Bah Bbl) as P2.
  pose proof (prod32_bound ah bh Bah Bbh) as Ph.
  set (pl := al * bl) in *. set (m1 := al * bh) in *.
  set (m2 := ah * bl) in *. set (ph := ah * bh) in *.
  clearbody pl m1 m2 ph.
  rewrite !(Z.mod_small pl), !(Z.mod_small m1), !(Z.mod_small m2), !(Z.mod_small ph) by lia.
  f_equal; solve_wrap.
Qed.

Lemma mul_spec (a b : GoldilocksField) :
  is_u64 (data a) -> is_u64 (data b) ->
  is_u64 (data (mul a b)) /\ data (mul a b) mod ORDER = (data a * data b) mod ORDER.
Proof.
  intros Ha Hb. rewrite (mul_as_reduce128 a b Ha Hb).
  assert (0 <= data a * data b < 2 ^ 128) as HN.
  { unfold is_u64 in *. split; [apply Z.mul_nonneg_nonneg; lia|].
    change (2 ^ 128) with (2 ^ 64 * 2 ^ 64).
    apply Z.mul_lt_mono_nonneg; lia. }
  set (N := data a * data b) in *. clearbody N.
  assert (is_u64 (N / 2 ^ 64)) as H1
    by (unfold is_u64; split; [apply Z.div_pos; lia | apply Z.div_lt_upper_bound; lia]).
  assert (is_u64 (N mod 2 ^ 64)) as H2 by (unfold is_u64; apply Z.mod_pos_bound; lia).
  destruct (reduce128_spec _ _ H1 H2) as [R1 R2]. split; [exact R1|].
  rewrite R2. f_equal.
  rewrite (Z.div_mod N (2 ^ 64)) at 3 by lia. ring.
Qed.

(** ** The modular inverse *)

Lemma land_1 (n : Z) : Z.land n 1 = n mod 2.
Proof. change 1 with (Z.ones 1) at 1. rewrite Z.land_ones by lia. reflexivity. Qed.

Lemma land_3 (n : Z) : Z.land n 3 = n mod 4.
Proof. change 3 with (Z.ones 2). rewrite Z.land_ones by lia. reflexivity. Qed.

Lemma shiftr_1 (n : Z) : Z.shiftr n 1 = n / 2.
Proof. rewrite Z.shiftr_div_pow2 by lia. reflexivity. Qed.

Lemma trailing_zeros_bits :
  forall (b : nat) (fuel : nat) (n count : Z),
    (b <= fuel)%nat -> 0 < n < 2 ^ Z.of_nat b ->
    0 <= count -> count + Z.of_nat b <= INT_MAX ->
    exists t, trailing_zeros fuel n count = Ok (count + t) /\
              0 <= t <= Z.of_nat b /\
              n = Z.shiftr n t * 2 ^ t /\ Z.shiftr n t mod 2 = 1.
Proof.
  induction b as [|b IH]; intros fuel n count Hb Hn Hc Hi.
  - simpl in Hn. lia.
  - destruct fuel as [|fuel]; [lia|].
    cbn [trailing_zeros]. rewrite land_1.
    destruct (Z.eqb_spec (n mod 2) 0) as [E|E].
    + assert (Hlt : (count <? INT_MAX) = true)
        by (apply Z.ltb_lt; lia).
      rewrite Hlt, shiftr_1.
      assert (Hn2 : 0 < n / 2 < 2 ^ Z.of_nat b).
      { rewrite Nat2Z.inj_succ, Z.pow_succ_r in Hn by lia.
        Z.div_mod_to_equations. lia. }
      destruct (IH fuel (n / 2) (count + 1)) as (t & Ht & Bt & Et & Ot);
        try lia.
      exists (t + 1). rewrite Ht. split; [f_equal; lia|].
      split; [lia|].
      assert (S1 : Z.shiftr n (t + 1) = Z.shiftr (n / 2) t).
      { rewrite <- shiftr_1, Z.shiftr_shiftr by lia. f_equal. lia. }
      rewrite S1. split; [|exact Ot].
      rewrite Z.pow_add_r by lia. change (2 ^ 1) with 2.
      rewrite Z.mul_assoc, <- Et. Z.div_mod_to_equations. lia.
    + exists 0. rewrite Z.add_0_r. split; [reflexivity|].
      rewrite Z.shiftr_0_r. split; [lia|]. split; [lia|].
      Z.div_mod_to_equations. lia.
Qed.

Lemma trailing_zeros_u64 (fuel : nat) (n : Z) :
  (64 <= fuel)%nat -> 0 < n < 2 ^ 64 ->
  exists t, trailing_zeros fuel n 0 = Ok t /\ 0 <= t < 64 /\
            n = Z.shiftr n t * 2 ^ t /\ Z.shiftr n t mod 2 = 1 /\
            0 < Z.shiftr n t <= n.
Proof.
  intros Hf Hn.
  destruct (trailing_zeros_bits 64 fuel n 0 Hf) as (t & Ht & Bt & Et & Ot);
    try (unfold INT_MAX; simpl; lia).
  exists t. simpl in Ht. rewrite Ht. split; [reflexivity|].
  assert (P : 0 < 2 ^ t) by (apply Z.pow_pos_nonneg; lia).
  assert (M : 0 < Z.shiftr n t) by nia.
  assert (L : Z.shiftr n t <= n) by nia.
  repeat split; try lia; try assumption.
  destruct (Z.eq_dec t 64) as [->|]; [|simpl in Bt; lia].
  change (2 ^ 64) with 18446744073709551616 in *. lia.
Qed.

Lemma trailing_zeros_zero (fuel : nat) (count : Z) :
  trailing_zeros fuel 0 count = OutOfFuel \/ trailing_zeros fuel 0 count = Undefined.
Proof.
  revert count. induction fuel as [|fuel IH]; intros count; cbn.
  - left; reflexivity.
  - destruct (_ <? _); [apply IH | right; reflexivity].
Qed.

(** *** One iteration of the binary extended GCD *)

Lemma i128_checked_cases (x : Z) :
  (i128_checked x = Ok x /\ I128_MIN <= x <= I128_MAX) \/ i128_checked x = Undefined.
Proof.
  unfold i128_checked.
  destruct (Z.leb_spec I128_MIN x), (Z.leb_spec x I128_MAX); cbn; auto.
Qed.

Lemma i128_shl_cases (x n : Z) :
  0 <= n < 128 -> i128_shl x n = Ok (x * 2 ^ n) \/ i128_shl x n = Undefined.
Proof.
  intros Hn. unfold i128_shl.
  replace ((0 <=? n) && (n <? 128)) with true
    by (symmetry; apply andb_true_iff; split; [apply Z.leb_le | apply Z.ltb_lt]; lia).
  destruct (i128_checked_cases (x * 2 ^ n)) as [[-> _] | ->]; auto.
Qed.

Lemma swap_if_less_facts (s : inv_state) :
  pre s ->
  let w := swap_if_less s in
  st_g w < st_f w /\ st_f w mod 2 = 1 /\ st_g w mod 2 = 1 /\
  0 < st_g w /\ st_f w < 2 ^ 64 /\ st_k w = st_k s /\
  st_f w + st_g w = st_f s + st_g s.
Proof.
  intros [].
  unfold swap_if_less. destruct (Z.ltb_spec (st_f s) (st_g s)); cbn; repeat split; lia.
Qed.

Lemma tz_ge_2 (n t : Z) :
  0 <= t -> n mod 4 = 0 -> n = Z.shiftr n t * 2 ^ t -> Z.shiftr n t mod 2 = 1 ->
  2 <= t.
Proof.
  intros Ht H4 E O.
  destruct (Z.eq_dec t 0) as [->|]; [change (2 ^ 0) with 1 in E; Z.div_mod_to_equations; lia|].
  destruct (Z.eq_dec t 1) as [->|]; [change (2 ^ 1) with 2 in E; Z.div_mod_to_equations; lia|].
  lia.
Qed.

Lemma safe_iteration_step (fuel : nat) (s : inv_state) :
  (64 <= fuel)%nat -> pre s ->
  safe_iteration fuel s = Undefined \/
  exists s' sigma KK,
    safe_iteration fuel s = Ok s' /\ (sigma = 1 \/ sigma = -1) /\
    2 <= KK <= 65 /\ step_rel sigma KK s s' /\
    I128_MIN <= st_c s' <= I128_MAX.
Proof.
  intros Hfuel Hpre.
  pose proof (swap_if_less_facts s Hpre) as (Hlt & Fo & Go & Gp & Fu & Hk & _).
  destruct Hpre as [_ _ _ _ _ _ _ Hkb].
  unfold safe_iteration, step_rel.
  set (w := swap_if_less s) in *. clearbody w.
  destruct w as [F G C D k0]; cbn [st_f st_g st_c st_d st_k] in *.
  rewrite !land_3.
  change (Z.shiftr F 2) with (Z.shiftr F 2).
  destruct (Z.eqb_spec (F mod 4) (G mod 4)) as [E4|E4].
  - assert (W : wrap64 (F - G) = F - G) by (apply Z.mod_small; lia).
    rewrite W.
    destruct (i128_checked_cases (C - D)) as [[-> Rc] | ->]; cbn [bind]; [|left; reflexivity].
    destruct (trailing_zeros_u64 fuel (F - G) Hfuel) as (t & -> & Bt & Et & Ot & Mt);
      [lia|]. cbn [bind].
    assert (T2 : 2 <= t).
    { apply (tz_ge_2 (F - G)); try lia; try assumption.
      Z.div_mod_to_equations. lia. }
    destruct (i128_shl_cases D t) as [-> | ->]; [lia| |left; reflexivity].
    cbn [bind]. right.
    eexists _, 1, t. split; [reflexivity|]. cbn [st_f st_g st_c st_d st_k].
    split; [left; reflexivity|]. split; [lia|]. split; [|exact Rc].
    repeat split; try lia; try assumption.
    unfold wrap32. rewrite Z.mod_small by (change (2 ^ 32) with 4294967296; lia). lia.
  - assert (W : wrap64 (wrap64 (Z.shiftr F 2 + Z.shiftr G 2) + 1) * 4 = F + G).
    { rewrite !Z.shiftr_div_pow2 by lia. change (2 ^ 2) with 4.
      unfold wrap64. change (2 ^ 64) with 18446744073709551616 in *.
      Z.div_mod_to_equations. lia. }
    set (f1 := wrap64 (wrap64 (Z.shiftr F 2 + Z.shiftr G 2) + 1)) in *.
    clearbody f1.
    destruct (i128_checked_cases (C + D)) as [[-> Rc] | ->]; cbn [bind]; [|left; reflexivity].
    destruct (trailing_zeros_u64 fuel f1 Hfuel) as (t & -> & Bt & Et & Ot & Mt);
      [change (2 ^ 64) with 18446744073709551616 in *; lia|]. cbn [bind].
    destruct (i128_shl_cases D (t + 2)) as [-> | ->]; [lia| |left; reflexivity].
    cbn [bind]. right.
    eexists _, (-1), (t + 2). split; [reflexivity|]. cbn [st_f st_g st_c st_d st_k].
    split; [right; reflexivity|]. split; [lia|]. split; [|exact Rc].
    repeat split; try lia; try assumption.
    + rewrite Z.pow_add_r by lia. change (2 ^ 2) with 4. lia.
    + unfold wrap32. rewrite Z.mod_small by (change (2 ^ 32) with 4294967296; lia). lia.
Qed.

Lemma unsafe_iteration_step (fuel : nat) (s : inv_state) :
  (64 <= fuel)%nat -> pre s -> st_f s + st_g s < 2 ^ 64 ->
  unsafe_iteration fuel s = Undefined \/
  exists s' sigma KK,
    unsafe_iteration fuel s = Ok s' /\ (sigma = 1 \/ sigma = -1) /\
    2 <= KK <= 65 /\ step_rel sigma KK s s' /\
    I128_MIN <= st_c s' <= I128_MAX.
Proof.
  intros Hfuel Hpre Hsum.
  pose proof (swap_if_less_facts s Hpre) as (Hlt & Fo & Go & Gp & Fu & Hk & Hs).
  destruct Hpre as [_ _ _ _ _ _ _ Hkb].
  unfold unsafe_iteration, step_rel.
  set (w := swap_if_less s) in *. clearbody w.
  destruct w as [F G C D k0]; cbn [st_f st_g st_c st_d st_k] in *.
  rewrite !land_3.
  destruct (Z.eqb_spec (F mod 4) (G mod 4)) as [E4|E4].
  - assert (W : wrap64 (F - G) = F - G) by (apply Z.mod_small; lia).
    rewrite W.
    destruct (i128_checked_cases (C - D)) as [[-> Rc] | ->]; cbn [bind]; [|left; reflexivity].
    destruct (trailing_zeros_u64 fuel (F - G) Hfuel) as (t & -> & Bt & Et & Ot & Mt);
      [lia|]. cbn [bind].
    assert (T2 : 2 <= t).
    { apply (tz_ge_2 (F - G)); try lia; try assumption.
      Z.div_mod_to_equations. lia. }
    destruct (i128_shl_cases D t) as [-> | ->]; [lia| |left; reflexivity].
    cbn [bind]. right.
    eexists _, 1, t. split; [reflexivity|]. cbn [st_f st_g st_c st_d st_k].
    split; [left; reflexivity|]. split; [lia|]. split; [|exact Rc].
    repeat split; try lia; try assumption.
    unfold wrap32. rewrite Z.mod_small by (change (2 ^ 32) with 4294967296; lia). lia.
  - assert (W : wrap64 (F + G) = F + G) by (apply Z.mod_small; lia).
    rewrite W.
    destruct (i128_checked_cases (C + D)) as [[-> Rc] | ->]; cbn [bind]; [|left; reflexivity].
    destruct (trailing_zeros_u64 fuel (F + G) Hfuel) as (t & -> & Bt & Et & Ot & Mt);
      [lia|]. cbn [bind].
    assert (T2 : 2 <= t).
    { apply (tz_ge_2 (F + G)); try lia; try assumption.
      Z.div_mod_to_equations. lia. }
    destruct (i128_shl_cases D t) as [-> | ->]; [lia| |left; reflexivity].
    cbn [bind]. right.
    eexists _, (-1), t. split; [reflexivity|]. cbn [st_f st_g st_c st_d st_k].
    split; [right; reflexivity|]. split; [lia|]. split; [|exact Rc].
    repeat split; try lia; try assumption.
    unfold wrap32. rewrite Z.mod_small by (change (2 ^ 32) with 4294967296; lia). lia.
Qed.

#[export] Instance congr_equiv : Equivalence congr := eqm_setoid ORDER.
#[export] Instance congr_add : Proper (congr ==> congr ==> congr) Z.add := Zplus_eqm ORDER.
#[export] Instance congr_sub : Proper (congr ==> congr ==> congr) Z.sub := Zminus_eqm ORDER.
#[export] Instance congr_mul : Proper (congr ==> congr ==> congr) Z.mul := Zmult_eqm ORDER.
#[export] Instance congr_opp : Proper (congr ==> congr) Z.opp := Zopp_eqm ORDER.

Lemma congr_mod (a : Z) : a mod ORDER ~= a.
Proof. apply Zmod_eqm. Qed.

Lemma congr_ORDER : ORDER ~= 0.
Proof. reflexivity. Qed.

Lemma coprime_same (f : Z) : 0 < f -> Z.coprime f f -> f = 1.
Proof.
  intros Hf H. apply Z.Bezout_coprime in H. destruct H as (u & v & E).
  assert (E' : (u + v) * f = 1) by lia.
  destruct (Z.mul_eq_1 _ _ E'); lia.
Qed.

Lemma Inv_pre (a : Z) (s : inv_state) :
  Inv a s -> st_f s <> 1 -> st_f s < 2 ^ 64 -> st_g s < 2 ^ 64 -> pre s.
Proof.
  intros (Fo & Go & Fp & Gp & R & _ & _ & K0 & K1) Hne Hf Hg.
  constructor; try assumption.
  - intros E. apply Hne. rewrite <- E in R. apply coprime_same; assumption.
  - pose proof (Z.log2_nonneg (st_f s)). pose proof (Z.log2_nonneg (st_g s)). lia.
Qed.

Lemma log2_shrink (x y n : Z) :
  0 < x -> 0 < y -> 1 <= n -> x * 2 ^ n <= 2 * y -> Z.log2 x + (n - 1) <= Z.log2 y.
Proof.
  intros Hx Hy Hn H.
  rewrite Z.add_comm, <- Z.log2_mul_pow2 by lia.
  apply Z.log2_le_mono.
  replace n with (1 + (n - 1)) in H by lia.
  rewrite Z.pow_add_r in H by lia. change (2 ^ 1) with 2 in H. lia.
Qed.

Lemma step_preserves (a sigma KK : Z) (s s' : inv_state) :
  Inv a s -> st_f s <> st_g s -> (sigma = 1 \/ sigma = -1) -> 2 <= KK ->
  step_rel sigma KK s s' ->
  Inv a s' /\
  Z.log2 (st_f s') + Z.log2 (st_g s') < Z.log2 (st_f s) + Z.log2 (st_g s) /\
  4 * st_f s' <= st_f s + st_g s /\
  (st_g s' <= st_f s /\ st_g s' <= st_g s).
Proof.
  intros (Fo & Go & Fp & Gp & R & Cf & Cg & K0 & K1) Hne Hs HK.
  unfold step_rel.
  assert (exists F G C D,
    swap_if_less s = mkInv F G C D (st_k s) /\
    G < F /\ 0 < G /\ G mod 2 = 1 /\ Z.coprime F G /\
    F * 2 ^ st_k s ~= C * a /\ G * 2 ^ st_k s ~= D * a /\
    Z.log2 F + Z.log2 G = Z.log2 (st_f s) + Z.log2 (st_g s) /\
    F + G = st_f s + st_g s /\ G <= st_f s /\ G <= st_g s) as (F & G & C & D & -> & W).
  { unfold swap_if_less. destruct (Z.ltb_spec (st_f s) (st_g s)).
    - exists (st_g s), (st_f s), (st_d s), (st_c s). split; [reflexivity|].
      repeat split; try lia; try assumption. symmetry; assumption.
    - exists (st_f s), (st_g s), (st_c s), (st_d s). split; [destruct s; reflexivity|].
      repeat split; try lia; try assumption. }
  destruct W as (Hlt & Gpos & Godd & RFG & CF & CG & HL & Hsum & Hg1 & Hg2).
  cbn [st_f st_g st_c st_d st_k].
  intros (Ef & Eg & Ec & Ed & Ek & Fo' & Fp').
  assert (P : 0 < 2 ^ KK) by (apply Z.pow_pos_nonneg; lia).
  assert (P4 : 4 <= 2 ^ KK).
  { change 4 with (2 ^ 2). apply Z.pow_le_mono_r; lia. }
  assert (Hup : st_f s' * 2 ^ KK <= F + G) by (destruct Hs; subst sigma; lia).
  assert (Hshr : Z.log2 (st_f s') + (KK - 1) <= Z.log2 F)
    by (apply log2_shrink; lia).
  split; [|split; [|split]].
  - unfold Inv. rewrite Eg, Ec, Ed, Ek.
    repeat split; try assumption; try lia.
    + (* coprimality *)
      apply Z.Bezout_coprime in RFG. destruct RFG as (u & v & E).
      apply Z.coprime_Bezout. exists (u * 2 ^ KK), (u * sigma + v).
      rewrite <- E.
      replace F with (st_f s' * 2 ^ KK + sigma * G) by lia. ring.
    + (* f * 2^k = c * a *)
      rewrite Z.pow_add_r by lia.
      replace (st_f s' * (2 ^ st_k s * 2 ^ KK))
        with (F * 2 ^ st_k s - sigma * (G * 2 ^ st_k s))
        by (replace F with (st_f s' * 2 ^ KK + sigma * G) by lia; ring).
      rewrite CF, CG. replace ((C - sigma * D) * a) with (C * a - sigma * (D * a)) by ring.
      reflexivity.
    + (* g * 2^k = d * a *)
      rewrite Z.pow_add_r by lia.
      replace (G * (2 ^ st_k s * 2 ^ KK)) with (G * 2 ^ st_k s * 2 ^ KK) by ring.
      rewrite CG. replace (D * 2 ^ KK * a) with (D * a * 2 ^ KK) by ring.
      reflexivity.
  - rewrite Eg. lia.
  - nia.
  - rewrite Eg. lia.
Qed.

Lemma log2_zero_is_one (f : Z) : 0 < f -> Z.log2 f <= 0 -> f = 1.
Proof.
  intros Hf Hl. destruct (Z.eq_dec f 1) as [|Hn]; [assumption|].
  assert (1 < f) by lia. pose proof (Z.log2_pos f ltac:(lia)). lia.
Qed.

Lemma remaining_iterations_spec (a : Z) (tzf : nat) :
  (64 <= tzf)%nat ->
  forall (fuel : nat) (s : inv_state),
    Inv a s -> st_f s < 2 ^ 63 -> st_g s < 2 ^ 63 ->
    I128_MIN <= st_c s <= I128_MAX ->
    Z.log2 (st_f s) + Z.log2 (st_g s) <= Z.of_nat fuel ->
    remaining_iterations tzf fuel s = Undefined \/
    exists s', remaining_iterations tzf fuel s = Ok s' /\ Inv a s' /\
               st_f s' = 1 /\ I128_MIN <= st_c s' <= I128_MAX.
Proof.
  intros Htz. induction fuel as [|fuel IH]; intros s HI Hf Hg Hc Hm.
  - cbn. destruct (Z.eqb_spec (st_f s) 1) as [E|E]; [right; eauto|].
    exfalso. apply E.
    destruct HI as (_ & _ & Fp & Gp & _).
    pose proof (Z.log2_nonneg (st_g s)).
    apply log2_zero_is_one; [assumption|]. simpl in Hm. lia.
  - cbn. destruct (Z.eqb_spec (st_f s) 1) as [E|E]; [right; eauto|].
    assert (Hpre : pre s).
    { apply (Inv_pre a); try assumption;
        change (2 ^ 63) with 9223372036854775808 in *;
        change (2 ^ 64) with 18446744073709551616; lia. }
    destruct (unsafe_iteration_step tzf s Htz Hpre) as [-> | (s' & sg & KK & -> & Hsg & HK & Hst & Hc')].
    + change (2 ^ 63) with 9223372036854775808 in *;
        change (2 ^ 64) with 18446744073709551616; lia.
    + left; reflexivity.
    + cbn [bind].
      destruct (step_preserves a sg KK s s' HI (pre_neq s Hpre) Hsg ltac:(lia) Hst)
        as (HI' & Hlog & H4 & Hg1 & Hg2).
      apply IH; try assumption; try lia.
Qed.

(** *** The canonicalisation loops *)

Lemma canon_add_loop_spec :
  forall (fuel : nat) (c : Z),
    I128_MIN <= c <= I128_MAX ->
    canon_add_loop fuel c =
    if c + Z.of_nat fuel * ORDER <? 0 then OutOfFuel
    else Ok (if c <? 0 then c mod ORDER else c).
Proof.
  induction fuel as [|fuel IH]; intros c Hc.
  - cbn [canon_add_loop]. change (Z.of_nat 0) with 0. rewrite Z.mul_0_l, Z.add_0_r.
    destruct (c <? 0); reflexivity.
  - cbn [canon_add_loop].
    destruct (Z.ltb_spec c 0) as [Hneg|Hpos].
    + destruct (i128_checked_cases (c + ORDER)) as [[-> R] | E].
      * cbn [bind]. rewrite IH by assumption.
        replace (c + ORDER + Z.of_nat fuel * ORDER) with (c + Z.of_nat (S fuel) * ORDER) by lia.
        destruct (c + Z.of_nat (S fuel) * ORDER <? 0); [reflexivity|].
        f_equal. destruct (Z.ltb_spec (c + ORDER) 0).
        -- rewrite <- (Z_mod_plus_full c 1 ORDER). f_equal; lia.
        -- symmetry. rewrite <- (Z_mod_plus_full c 1 ORDER).
           rewrite Z.mul_1_l. apply Z.mod_small. lia.
      * exfalso. unfold i128_checked in E.
        destruct (Z.leb_spec I128_MIN (c + ORDER)), (Z.leb_spec (c + ORDER) I128_MAX);
          cbn in E; try discriminate;
          unfold I128_MIN, I128_MAX in *; rewrite ORDER_val in *; lia.
    + destruct (Z.ltb_spec (c + Z.of_nat (S fuel) * ORDER) 0); [|reflexivity].
      rewrite ORDER_val in *. lia.
Qed.

Lemma canon_sub_loop_spec :
  forall (fuel : nat) (c : Z),
    I128_MIN <= c <= I128_MAX ->
    canon_sub_loop fuel c =
    if ORDER <=? c - Z.of_nat fuel * ORDER then OutOfFuel
    else Ok (if ORDER <=? c then c mod ORDER else c).
Proof.
  induction fuel as [|fuel IH]; intros c Hc.
  - cbn [canon_sub_loop]. change (Z.of_nat 0) with 0. rewrite Z.mul_0_l, Z.sub_0_r.
    destruct (ORDER <=? c); reflexivity.
  - cbn [canon_sub_loop].
    destruct (Z.leb_spec ORDER c) as [Hge|Hlt].
    + destruct (i128_checked_cases (c - ORDER)) as [[-> R] | E].
      * cbn [bind]. rewrite IH by assumption.
        replace (c - ORDER - Z.of_nat fuel * ORDER) with (c - Z.of_nat (S fuel) * ORDER) by lia.
        destruct (ORDER <=? c - Z.of_nat (S fuel) * ORDER); [reflexivity|].
        f_equal. destruct (Z.leb_spec ORDER (c - ORDER)).
        -- rewrite <- (Z_mod_plus_full c (-1) ORDER). f_equal; lia.
        -- symmetry. rewrite <- (Z_mod_plus_full c (-1) ORDER).
           apply Z.mod_small. rewrite ORDER_val in *. lia.
      * exfalso. unfold i128_checked in E.
        destruct (Z.leb_spec I128_MIN (c - ORDER)), (Z.leb_spec (c - ORDER) I128_MAX);
          cbn in E; try discriminate;
          unfold I128_MIN, I128_MAX in *; rewrite ORDER_val in *; lia.
    + destruct (Z.leb_spec ORDER (c - Z.of_nat (S fuel) * ORDER)); [|reflexivity].
      rewrite ORDER_val in *. lia.
Qed.

Lemma canonicalize_spec (fuel : nat) (c : Z) :
  2 ^ 64 <= Z.of_nat fuel -> I128_MIN <= c <= I128_MAX ->
  (do c1 <- canon_add_loop fuel c ; canon_sub_loop fuel c1) = Ok (c mod ORDER).
Proof.
  intros Hfuel Hc.
  pose proof (Z.mod_pos_bound c ORDER ltac:(rewrite ORDER_val; lia)) as Hm.
  rewrite canon_add_loop_spec by assumption.
  unfold I128_MIN, I128_MAX in *. rewrite ORDER_val in *.
  change (2 ^ 64) with 18446744073709551616 in *.
  change (2 ^ 127) with 170141183460469231731687303715884105728 in *.
  destruct (Z.ltb_spec (c + Z.of_nat fuel * 18446744069414584321) 0); [nia|].
  cbn [bind].
  destruct (Z.ltb_spec c 0).
  - rewrite <- ORDER_val. rewrite canon_sub_loop_spec
      by (unfold I128_MIN, I128_MAX; rewrite ORDER_val;
          change (2 ^ 127) with 170141183460469231731687303715884105728; lia).
    rewrite ORDER_val.
    destruct (Z.leb_spec 18446744069414584321
                (c mod 18446744069414584321 - Z.of_nat fuel * 18446744069414584321)); [nia|].
    destruct (Z.leb_spec 18446744069414584321 (c mod 18446744069414584321)); [lia|reflexivity].
  - rewrite <- ORDER_val. rewrite canon_sub_loop_spec
      by (unfold I128_MIN, I128_MAX; change (2 ^ 127) with 170141183460469231731687303715884105728; lia).
    rewrite ORDER_val.
    destruct (Z.leb_spec 18446744069414584321 (c - Z.of_nat fuel * 18446744069414584321)); [nia|].
    destruct (Z.leb_spec 18446744069414584321 c); [reflexivity|].
    f_equal. symmetry. apply Z.mod_small. lia.
Qed.

(** *** [inverse_2exp] *)

Lemma small_inverse_check (n : nat) :
  (n <= 32)%nat -> small_inverse_ok (Z.of_nat n) = true.
Proof.
  intros Hn.
  do 33 (destruct n as [|n]; [vm_compute; reflexivity|]).
  lia.
Qed.

Lemma small_inverse_spec (e : Z) :
  0 <= e <= 32 -> is_u64 (small_inverse e) /\ small_inverse e * 2 ^ e ~= 1.
Proof.
  intros He.
  pose proof (small_inverse_check (Z.to_nat e) ltac:(lia)) as H.
  rewrite Z2Nat.id in H by lia.
  unfold small_inverse_ok in H.
  apply andb_true_iff in H. destruct H as [H H3].
  apply andb_true_iff in H. destruct H as [H1 H2].
  apply Z.leb_le in H1. apply Z.ltb_lt in H2. apply Z.eqb_eq in H3.
  split; [split; assumption|]. unfold congr. rewrite H3. reflexivity.
Qed.

Lemma inverse_2exp_loop_spec (inv32 : GoldilocksField) :
  is_u64 (data inv32) -> data inv32 * 2 ^ 32 ~= 1 ->
  forall (n : nat) (res : GoldilocksField) (e K : Z),
    is_u64 (data res) -> 0 <= e < 2 ^ 64 -> e <= 32 * (Z.of_nat n + 1) ->
    0 <= K -> data res * 2 ^ K ~= 1 ->
    exists res' e',
      inverse_2exp_loop n inv32 res e = (res', e') /\
      is_u64 (data res') /\ 0 <= e' <= 32 /\ e' <= e /\
      data res' * 2 ^ (K + (e - e')) ~= 1.
Proof.
  intros Hi32 Ci32.
  induction n as [|n IH]; intros res e K Hres He Hn HK HC.
  - cbn. exists res, e. split; [reflexivity|].
    replace (K + (e - e)) with K by lia.
    split; [assumption|]. split; [lia|]. split; [lia|assumption].
  - cbn [inverse_2exp_loop].
    unfold CHARACTERISTIC_TWO_ADICITY, TWO_ADICITY.
    destruct (Z.ltb_spec 32 e) as [Hgt|Hle].
    + assert (W : wrap64 (e - 32) = e - 32) by (apply Z.mod_small; lia).
      rewrite W.
      destruct (mul_spec res inv32 Hres Hi32) as [M1 M2].
      destruct (IH (mul res inv32) (e - 32) (K + 32)) as (res' & e' & E & R1 & R2 & R3 & R4);
        try assumption; try lia.
      * unfold congr. rewrite Z.pow_add_r by lia.
        rewrite <- Z.mul_mod_idemp_l by (rewrite ORDER_val; lia).
        rewrite M2.
        rewrite Z.mul_mod_idemp_l by (rewrite ORDER_val; lia).
        fold (congr (data res * data inv32 * (2 ^ K * 2 ^ 32)) 1).
        replace (data res * data inv32 * (2 ^ K * 2 ^ 32))
          with ((data res * 2 ^ K) * (data inv32 * 2 ^ 32)) by ring.
        rewrite HC, Ci32. reflexivity.
      * exists res', e'. split; [exact E|].
        split; [assumption|]. split; [lia|]. split; [lia|].
        replace (K + (e - e')) with (K + 32 + (e - 32 - e')) by lia. exact R4.
    + exists res, e. split; [reflexivity|].
      replace (K + (e - e)) with K by lia.
      split; [assumption|]. split; [lia|]. split; [lia|assumption].
Qed.

Lemma inverse_2exp_spec (exp : Z) :
  0 <= exp < 2 ^ 64 ->
  is_u64 (data (inverse_2exp exp)) /\ data (inverse_2exp exp) * 2 ^ exp ~= 1.
Proof.
  intros He. unfold inverse_2exp.
  unfold CHARACTERISTIC_TWO_ADICITY, TWO_ADICITY.
  fold (small_inverse 32).
  destruct (Z.ltb_spec 32 exp) as [Hgt|Hle].
  - destruct (small_inverse_spec 32 ltac:(lia)) as [S1 S2].
    assert (W : wrap64 (exp - 32) = exp - 32) by (apply Z.mod_small; lia).
    rewrite W.
    destruct (inverse_2exp_loop_spec (from_canonical_u64 (small_inverse 32)) S1 S2
                (Z.to_nat exp) (from_canonical_u64 (small_inverse 32)) (exp - 32) 32)
      as (res' & e' & -> & R1 & R2 & R3 & R4); try assumption; try lia.
    fold (small_inverse e').
    destruct (small_inverse_spec e' R2) as [T1 T2].
    destruct (mul_spec res' (from_canonical_u64 (small_inverse e')) R1 T1) as [M1 M2].
    split; [exact M1|].
    unfold congr. rewrite <- Z.mul_mod_idemp_l by (rewrite ORDER_val; lia).
    rewrite M2. rewrite Z.mul_mod_idemp_l by (rewrite ORDER_val; lia).
    cbn [data from_canonical_u64].
    fold (congr (data res' * small_inverse e' * 2 ^ exp) 1).
    replace exp with ((32 + (exp - 32 - e')) + e') at 1 by lia.
    rewrite Z.pow_add_r by lia.
    replace (data res' * small_inverse e' * (2 ^ (32 + (exp - 32 - e')) * 2 ^ e'))
      with ((data res' * 2 ^ (32 + (exp - 32 - e'))) * (small_inverse e' * 2 ^ e')) by ring.
    rewrite R4, T2. reflexivity.
  - fold (small_inverse exp). cbn [data from_canonical_u64].
    apply small_inverse_spec. lia.
Qed.

Lemma initial_Inv (a t0 : Z) :
  0 < a < 2 ^ 64 -> Z.coprime a ORDER -> 0 <= t0 < 64 ->
  a = Z.shiftr a t0 * 2 ^ t0 -> Z.shiftr a t0 mod 2 = 1 -> 0 < Z.shiftr a t0 <= a ->
  Inv a (mkInv (Z.shiftr a t0) ORDER 1 0 t0).
Proof.
  intros Ha Hco Ht Et Ot Mt. unfold Inv. cbn [st_f st_g st_c st_d st_k].
  set (x' := Z.shiftr a t0) in *.
  split; [exact Ot|]. split; [reflexivity|]. split; [lia|]. split; [reflexivity|].
  split; [|split; [|split; [|split]]].
  - apply Z.Bezout_coprime in Hco. destruct Hco as (u & v & E).
    apply Z.coprime_Bezout. exists (u * 2 ^ t0), v.
    replace (u * 2 ^ t0 * x') with (u * (x' * 2 ^ t0)) by ring.
    rewrite <- Et. exact E.
  - rewrite <- Et, Z.mul_1_l. reflexivity.
  - unfold congr. rewrite Z.mul_comm, Z_mod_mult. reflexivity.
  - lia.
  - assert (L1 : Z.log2 x' < 64) by (apply Z.log2_lt_pow2; lia).
    change (Z.log2 ORDER) with 63. lia.
Qed.

Lemma congr_unit_inverse (a k r : Z) :
  0 <= k -> 2 ^ k ~= a -> r * 2 ^ k ~= 1 -> a * r ~= 1.
Proof.
  intros Hk H1 H2. rewrite <- H1. rewrite Z.mul_comm. exact H2.
Qed.

Lemma inverse_gcd_spec (fuel : nat) (x : GoldilocksField) :
  (128 <= fuel)%nat -> 0 < data x < 2 ^ 64 -> Z.coprime (data x) ORDER ->
  ~ negating_input (data x) ->
  inverse_gcd fuel x = Undefined \/
  (exists r, inverse_gcd fuel x = Ok (Early r) /\
             is_u64 (data r) /\ data x * data r ~= 1) \/
  (exists s, inverse_gcd fuel x = Ok (LoopExit s) /\
             Inv (data x) s /\ st_f s = 1 /\ I128_MIN <= st_c s <= I128_MAX).
Proof.
  intros Hfuel Ha Hco Hneg. unfold inverse_gcd.
  assert (Hfuel64 : (64 <= fuel)%nat) by lia.
  destruct (trailing_zeros_u64 fuel (data x) Hfuel64 Ha) as (t0 & -> & Bt & Et & Ot & Mt).
  cbn [bind].
  assert (W : wrap32 t0 = t0)
    by (apply Z.mod_small; change (2 ^ 32) with 4294967296; lia).
  rewrite W.
  pose proof (initial_Inv (data x) t0 Ha Hco Bt Et Ot Mt) as HI0.
  set (x' := Z.shiftr (data x) t0) in *.
  destruct (Z.eqb_spec x' 1) as [E1|N1].
  { right; left. exists (inverse_2exp t0). split; [reflexivity|].
    destruct (inverse_2exp_spec t0) as [I1 I2]; [change (2 ^ 64) with 18446744073709551616; lia|].
    split; [exact I1|].
    apply (congr_unit_inverse _ t0); [lia| |exact I2].
    rewrite Et, E1, Z.mul_1_l. reflexivity. }
  assert (Hx'p : x' <> ORDER).
  { intros E. destruct HI0 as (_ & _ & _ & _ & R & _). cbn [st_f st_g] in R.
    rewrite E in R. unfold Z.coprime in R. rewrite Z.gcd_diag in R. discriminate R. }
  assert (Hpre0 : pre (mkInv x' ORDER 1 0 t0)).
  { constructor; cbn [st_f st_g st_k]; try reflexivity; try lia; try assumption. }
  destruct (safe_iteration_step fuel _ Hfuel64 Hpre0)
    as [-> | (s1 & sg & KK & -> & Hsg & HK & Hst & Hc1)]; [left; reflexivity|].
  cbn [bind].
  destruct (step_preserves (data x) sg KK _ s1 HI0 (pre_neq _ Hpre0) Hsg ltac:(lia) Hst)
    as (HI1 & Hlog1 & H41 & Hg1a & Hg1b).
  cbn [st_f st_g] in Hlog1, H41, Hg1a, Hg1b.
  assert (Hc1v : st_c s1 = 1 \/
                 (st_c s1 = -1 /\ st_f s1 * 2 ^ KK = ORDER - x')).
  { unfold step_rel, swap_if_less in Hst. cbn [st_f st_g st_c st_d st_k] in Hst.
    destruct (Z.ltb_spec x' ORDER); cbn [st_f st_g st_c st_d st_k] in Hst;
      destruct Hst as (Ef & _ & Ec & _); destruct Hsg; subst sg; lia. }
  assert (Hk1 : 0 <= st_k s1 < 2 ^ 64).
  { destruct HI1 as (_ & _ & P1 & P2 & _ & _ & _ & K0 & K1).
    pose proof (Z.log2_nonneg (st_f s1)). pose proof (Z.log2_nonneg (st_g s1)).
    change (2 ^ 64) with 18446744073709551616. lia. }
  destruct (Z.eqb_spec (st_f s1) 1) as [Ef1|Nf1].
  { destruct (Z.eqb_spec (st_c s1) (-1)) as [Ec|Nc].
    - exfalso. apply Hneg. destruct Hc1v as [?|[_ Ex]]; [lia|].
      exists KK, t0. split; [lia|]. split; [lia|].
      rewrite Ef1, Z.mul_1_l in Ex. rewrite Et. fold x'. rewrite Ex. f_equal. lia.
    - destruct Hc1v as [Ec|[? _]]; [|lia]. rewrite Ec. cbn [Z.eqb Pos.eqb assert bind].
      right; left. exists (inverse_2exp (st_k s1)). split; [reflexivity|].
      destruct (inverse_2exp_spec (st_k s1) Hk1) as [I1 I2].
      split; [exact I1|].
      apply (congr_unit_inverse _ (st_k s1)); [lia| |exact I2].
      destruct HI1 as (_ & _ & _ & _ & _ & Cf & _).
      rewrite Ef1, Ec, !Z.mul_1_l in Cf. exact Cf. }
  assert (Hpre1 : pre s1).
  { apply (Inv_pre (data x)); try assumption;
      rewrite ORDER_val in *; change (2 ^ 64) with 18446744073709551616 in *; lia. }
  destruct (safe_iteration_step fuel s1 Hfuel64 Hpre1)
    as [-> | (s2 & sg2 & KK2 & -> & Hsg2 & HK2 & Hst2 & Hc2)]; [left; reflexivity|].
  cbn [bind].
  destruct (step_preserves (data x) sg2 KK2 s1 s2 HI1 (pre_neq _ Hpre1) Hsg2 ltac:(lia) Hst2)
    as (HI2 & Hlog2 & H42 & Hg2a & Hg2b).
  assert (Hf2 : st_f s2 < 2 ^ 63 /\ st_g s2 < 2 ^ 63).
  { rewrite ORDER_val in *. change (2 ^ 64) with 18446744073709551616 in *.
    change (2 ^ 63) with 9223372036854775808. lia. }
  destruct Hf2 as [Hf2 Hg2].
  destruct (remaining_iterations_spec (data x) fuel Hfuel64 fuel s2 HI2 Hf2 Hg2 Hc2)
    as [-> | (s3 & -> & HI3 & Hf3 & Hc3)].
  { destruct HI2 as (_ & _ & P1 & P2 & _).
    assert (Z.log2 (st_f s2) < 63) by (apply Z.log2_lt_pow2; lia).
    assert (Z.log2 (st_g s2) < 63) by (apply Z.log2_lt_pow2; lia).
    lia. }
  { left; reflexivity. }
  cbn [bind]. right; right. exists s3.
  split; [reflexivity|]. split; [exact HI3|]. split; [exact Hf3 | exact Hc3].
Qed.

Lemma u64_congr_one (v : Z) : is_u64 v -> v ~= 1 -> v = 1 \/ v = ORDER + 1.
Proof.
  unfold is_u64, congr. rewrite ORDER_val.
  change (2 ^ 64) with 18446744073709551616.
  change (1 mod 18446744069414584321) with 1.
  intros Hv H. Z.div_mod_to_equations. lia.
Qed.

Lemma inverse_spec (fuel : nat) (x : GoldilocksField) :
  2 ^ 64 <= Z.of_nat fuel -> 0 < data x < 2 ^ 64 -> Z.coprime (data x) ORDER ->
  ~ negating_input (data x) ->
  inverse fuel x = Undefined \/
  exists r, inverse fuel x = Ok r /\ is_u64 (data r) /\ data x * data r ~= 1.
Proof.
  intros Hfuel Ha Hco Hneg. unfold inverse.
  assert (Hfuel128 : (128 <= fuel)%nat)
    by (change (2 ^ 64) with 18446744073709551616 in Hfuel; lia).
  destruct (inverse_gcd_spec fuel x Hfuel128 Ha Hco Hneg)
    as [-> | [(r & -> & R1 & R2) | (s & -> & HI & Hf & Hc)]]; cbn [bind].
  - left; reflexivity.
  - right. exists r. auto.
  - pose proof (canonicalize_spec fuel (st_c s) Hfuel Hc) as Hcan.
    destruct (canon_add_loop fuel (st_c s)) as [c1| | |]; cbn [bind] in Hcan |- *;
      try discriminate Hcan.
    rewrite Hcan. cbn [bind]. right. eexists. split; [reflexivity|].
    pose proof (Z.mod_pos_bound (st_c s) ORDER ltac:(rewrite ORDER_val; lia)) as Hm.
    assert (Wc : wrap64 (st_c s mod ORDER) = st_c s mod ORDER).
    { apply Z.mod_small. rewrite ORDER_val in *.
      change (2 ^ 64) with 18446744073709551616. lia. }
    rewrite Wc.
    destruct HI as (_ & _ & _ & _ & _ & Cf & _ & K0 & K1).
    assert (Hk : 0 <= st_k s < 2 ^ 64).
    { rewrite Hf in K1. change (Z.log2 1) with 0 in K1.
      pose proof (Z.log2_nonneg (st_g s)).
      change (2 ^ 64) with 18446744073709551616. lia. }
    destruct (inverse_2exp_spec (st_k s) Hk) as [I1 I2].
    assert (Hc64 : is_u64 (data (from_canonical_u64 (st_c s mod ORDER)))).
    { cbn [data from_canonical_u64]. unfold is_u64. rewrite ORDER_val in *.
      change (2 ^ 64) with 18446744073709551616. lia. }
    destruct (mul_spec _ _ Hc64 I1) as [M1 M2].
    split; [exact M1|].
    cbn [data from_canonical_u64] in M2.
    unfold congr. rewrite <- Z.mul_mod_idemp_r by (rewrite ORDER_val; lia).
    rewrite M2. rewrite Z.mul_mod_idemp_r by (rewrite ORDER_val; lia).
    fold (congr (data x * (st_c s mod ORDER * data (inverse_2exp (st_k s)))) 1).
    rewrite congr_mod.
    replace (data x * (st_c s * data (inverse_2exp (st_k s))))
      with (st_c s * data x * data (inverse_2exp (st_k s))) by ring.
    rewrite <- Cf, Hf, Z.mul_1_l, Z.mul_comm. exact I2.
Qed.

(** *** The field order is prime *)

Lemma divisor_search (n : Z) (m : nat) :
  (forall d, 1 < d < Z.of_nat m -> ~ (d | n)) \/
  (exists d, 1 < d < Z.of_nat m /\ (d | n)).
Proof.
  induction m as [|m [IH|IH]].
  - left. intros d Hd. lia.
  - destruct (Z.BoolSpec_divide (Z.of_nat m) n) as [D|D].
    + destruct (Z_lt_dec 1 (Z.of_nat m)) as [L|L].
      * right. exists (Z.of_nat m). split; [lia|exact D].
      * left. intros d Hd. lia.
    + left. intros d Hd.
      destruct (Z.eq_dec d (Z.of_nat m)) as [->|Hne]; [exact D|].
      apply IH. lia.
  - right. destruct IH as (d & Hd & D). exists d. split; [lia|exact D].
Qed.

Lemma exists_prime_divisor (n : Z) :
  1 < n -> exists r, Z.prime r /\ (r | n).
Proof.
  intros Hn. remember (Z.to_nat n) as k eqn:Ek.
  revert n Hn Ek. induction k as [k IH] using lt_wf_ind. intros n Hn Ek.
  destruct (divisor_search n (Z.to_nat n)) as [Hp|(d & Hd & D)].
  - exists n. split; [|apply Z.divide_refl].
    split; [exact Hn|]. intros d Hd. apply Hp. lia.
  - destruct (IH (Z.to_nat d) ltac:(lia) d ltac:(lia) eq_refl) as (r & Hr & Dr).
    exists r. split; [exact Hr|]. eapply Z.divide_trans; eassumption.
Qed.

Lemma seven_is_nonresidue :
  7 ^ (2 ^ 31 * (2 ^ 32 - 1)) mod ORDER = ORDER - 1.
Proof.
  rewrite <- Zpow_mod_correct by (rewrite ORDER_val; lia).
  vm_compute. reflexivity.
Qed.

Lemma odd_pow_minus_one (r m : Z) :
  2 < r -> 0 <= m -> m mod 2 = 1 -> (r - 1) ^ m mod r = r - 1.
Proof.
  intros Hr Hm Ho.
  rewrite <- Z.mod_pow_l.
  replace ((r - 1) mod r) with ((Z.opp 1) mod r)
    by (rewrite <- (Z_mod_plus_full (Z.opp 1) 1 r); f_equal; lia).
  rewrite Z.mod_pow_l.
  assert (Hodd : Z.Odd m) by (exists (m / 2); Z.div_mod_to_equations; lia).
  rewrite Z.pow_opp_odd by assumption. rewrite Z.pow_1_l by lia.
  rewrite <- (Z_mod_plus_full (Z.opp 1) 1 r).
  replace (Z.opp 1 + 1 * r) with (r - 1) by lia. apply Z.mod_small. lia.
Qed.

Lemma prime_factor_large_gen (p g e r : Z) :
  1 < p -> p mod 2 = 1 -> 0 <= e ->
  g ^ (2 ^ 31 * e) mod p = p - 1 ->
  Z.prime r -> (r | p) -> 2 ^ 32 < r.
Proof.
  intros Hp Hodd He Hg Hr Hd.
  destruct (Z_lt_dec (2 ^ 32) r) as [|Hsmall]; [assumption|exfalso].
  pose proof (Z.prime_ge_2 r Hr) as H2.
  assert (Hr3 : 2 < r).
  { destruct (Z.eq_dec r 2) as [->|]; [|lia].
    destruct Hd as [q Hq]. Z.div_mod_to_equations. lia. }
  assert (HE : 0 <= 2 ^ 31 * e) by lia.
  remember (2 ^ 31 * e) as E eqn:EE.
  assert (H7 : g ^ E mod r = r - 1).
  { assert (D1 : (p | g ^ E + 1)).
    { apply Z.mod_divide; [lia|].
      rewrite <- Z.add_mod_idemp_l by lia.
      rewrite Hg. replace (p - 1 + 1) with p by lia. apply Z_mod_same_full. }
    destruct Hd as [q1 Hq1]. destruct D1 as [q2 Hq2].
    replace (g ^ E) with (r - 1 + (q2 * q1 - 1) * r) by lia.
    rewrite Z_mod_plus_full. apply Z.mod_small. lia. }
  assert (H7nz : g mod r <> 0).
  { intros Hz. rewrite <- Z.mod_pow_l, Hz in H7.
    destruct (Z.eq_dec E 0) as [->|HE0].
    - rewrite Z.pow_0_r in H7. rewrite Z.mod_small in H7 by lia. lia.
    - rewrite Z.pow_0_l in H7 by lia.
      rewrite Z.mod_0_l in H7 by lia. lia. }
  pose proof (Z.fermat_nz r g Hr H7nz) as HF.
  destruct (trailing_zeros_u64 64 (r - 1) (le_n _)) as (j & _ & Bj & Ej & Oj & Mj).
  { change (2 ^ 64) with 18446744073709551616.
    change (2 ^ 32) with 4294967296 in Hsmall. lia. }
  set (m := Z.shiftr (r - 1) j) in *. clearbody m.
  assert (Hj : j < 32).
  { destruct (Z_lt_dec j 32) as [|Hge]; [assumption|exfalso].
    assert (2 ^ 32 <= 2 ^ j) by (apply Z.pow_le_mono_r; lia).
    change (2 ^ 32) with 4294967296 in *. nia. }
  assert (X1 : g ^ (E * m) mod r = r - 1).
  { rewrite Z.pow_mul_r by lia.
    rewrite <- Z.mod_pow_l, H7. apply odd_pow_minus_one; lia. }
  assert (X2 : g ^ (E * m) mod r = 1).
  { replace (E * m) with ((r - 1) * (2 ^ (31 - j) * e)).
    - assert (0 <= 2 ^ (31 - j)) by (apply Z.pow_nonneg; lia).
      rewrite Z.pow_mul_r by lia.
      rewrite <- Z.mod_pow_l, HF, Z.pow_1_l by lia.
      apply Z.mod_small. lia.
    - rewrite EE, Ej.
      replace 31 with ((31 - j) + j) at 2 by lia.
      rewrite Z.pow_add_r by lia. ring. }
  lia.
Qed.

Lemma prime_factor_large (r : Z) :
  Z.prime r -> (r | ORDER) -> 2 ^ 32 < r.
Proof.
  apply (prime_factor_large_gen ORDER 7 (2 ^ 32 - 1)).
  - reflexivity.
  - reflexivity.
  - discriminate.
  - exact seven_is_nonresidue.
Qed.

Lemma ORDER_prime : Z.prime ORDER.
Proof.
  split; [rewrite ORDER_val; lia|].
  intros n Hn [q Hq].
  assert (Hq1 : 1 < q) by (rewrite ORDER_val in *; nia).
  destruct (exists_prime_divisor n ltac:(lia)) as (r1 & P1 & D1).
  destruct (exists_prime_divisor q Hq1) as (r2 & P2 & D2).
  assert (L1 : 2 ^ 32 < r1).
  { apply prime_factor_large; [assumption|].
    eapply Z.divide_trans; [eassumption|]. exists q. exact Hq. }
  assert (L2 : 2 ^ 32 < r2).
  { apply prime_factor_large; [assumption|].
    eapply Z.divide_trans; [eassumption|]. exists n. lia. }
  apply Z.divide_pos_le in D1; [|lia].
  apply Z.divide_pos_le in D2; [|lia].
  rewrite ORDER_val in *. change (2 ^ 32) with 4294967296 in *. nia.
Qed.

Lemma coprime_ORDER (a : Z) : a mod ORDER <> 0 -> Z.coprime a ORDER.
Proof.
  intros Ha. symmetry. apply Z.coprime_prime_l; [exact ORDER_prime|].
  intros D. apply Ha. apply Z.mod_divide in D; [exact D|rewrite ORDER_val; lia].
Qed.

(** ** Wide reductions *)

Lemma from_noncanonical_u128_spec (n : Z) :
  is_u128 n ->
  is_u64 (data (from_noncanonical_u128 n)) /\ data (from_noncanonical_u128 n) ~= n.
Proof.
  intros Hn. unfold from_noncanonical_u128.
  assert (H1 : wrap64 (Z.shiftr n 64) = n / 2 ^ 64).
  { consts. bits. apply Z.mod_small. Z.div_mod_to_equations. lia. }
  assert (H2 : wrap64 (Z.land n UINT64_MAX) = n mod 2 ^ 64).
  { unfold UINT64_MAX. change (2 ^ 64 - 1) with 18446744073709551615.
    consts. bits. apply Z.mod_small. Z.div_mod_to_equations. lia. }
  rewrite H1, H2.
  destruct (reduce128_spec (n / 2 ^ 64) (n mod 2 ^ 64)) as [R1 R2].
  - consts. Z.div_mod_to_equations. lia.
  - consts. Z.div_mod_to_equations. lia.
  - split; [exact R1|]. unfold congr. rewrite R2. f_equal.
    rewrite (Z.div_mod n (2 ^ 64)) at 3 by lia. ring.
Qed.

Lemma from_noncanonical_u96_spec (n_lo n_hi : Z) :
  is_u64 n_lo -> is_u32 n_hi ->
  is_u64 (data (from_noncanonical_u96 n_lo n_hi)) /\
  data (from_noncanonical_u96 n_lo n_hi) ~= n_hi * 2 ^ 64 + n_lo.
Proof.
  intros Hl Hh. unfold from_noncanonical_u96.
  assert (W : wrap128 (wrap128 (Z.shiftl n_hi 64) + n_lo) = n_hi * 2 ^ 64 + n_lo).
  { consts. bits. Z.div_mod_to_equations. lia. }
  rewrite W. apply from_noncanonical_u128_spec. consts. lia.
Qed.

Lemma reduce_u160_spec (lo hi : Z) :
  is_u128 lo -> is_u32 hi ->
  is_u64 (data (reduce_u160 (lo, hi))) /\
  data (reduce_u160 (lo, hi)) ~= hi * 2 ^ 128 + lo.
Proof.
  intros Hl Hh. unfold reduce_u160, to_noncanonical_u64.
  assert (H1 : wrap64 (Z.shiftr lo 64) = lo / 2 ^ 64).
  { consts. bits. apply Z.mod_small. Z.div_mod_to_equations. lia. }
  rewrite H1.
  destruct (from_noncanonical_u96_spec (lo / 2 ^ 64) hi) as [F1 F2].
  - consts. Z.div_mod_to_equations. lia.
  - exact Hh.
  - set (reduced_hi := data (from_noncanonical_u96 (lo / 2 ^ 64) hi)) in *.
    clearbody reduced_hi.
    assert (W : wrap128 (wrap128 (Z.shiftl reduced_hi 64) + wrap64 lo)
                = reduced_hi * 2 ^ 64 + lo mod 2 ^ 64).
    { consts. bits. Z.div_mod_to_equations. lia. }
    rewrite W.
    destruct (from_noncanonical_u128_spec (reduced_hi * 2 ^ 64 + lo mod 2 ^ 64)) as [G1 G2].
    + consts. Z.div_mod_to_equations. lia.
    + split; [exact G1|]. rewrite G2, F2.
      replace (hi * 2 ^ 128 + lo)
        with ((hi * 2 ^ 64 + lo / 2 ^ 64) * 2 ^ 64 + lo mod 2 ^ 64); [reflexivity|].
      rewrite (Z.div_mod lo (2 ^ 64)) at 3 by lia.
      change (2 ^ 128) with (2 ^ 64 * 2 ^ 64). ring.
Qed.

Lemma add_u160_u128_spec (lo hi y : Z) :
  is_u128 lo -> 0 <= hi < 2 ^ 32 - 1 -> is_u128 y ->
  let '(lo', hi') := add_u160_u128 (lo, hi) y in
  is_u128 lo' /\ 0 <= hi' <= hi + 1 /\
  hi' * 2 ^ 128 + lo' = hi * 2 ^ 128 + lo + y.
Proof.
  intros Hl Hh Hy. unfold add_u160_u128. consts.
  destruct (Z.ltb_spec (340282366920938463463374607431768211456 - 1 - y) lo);
    cbn [flag]; (split; [|split]); Z.div_mod_to_equations; lia.
Qed.

(** ** The permutation and the sponge *)

(** *** Lists as fixed-size arrays *)

Lemma length_upd {A : Type} (i : nat) (v : A) (l : list A) :
  length (upd i v l) = length l.
Proof.
  revert i. induction l as [|h t IH]; intros [|i]; cbn; try reflexivity.
  f_equal. apply IH.
Qed.

Lemma lane_upd (i j : nat) (v : GoldilocksField) (st : state) :
  (i < length st)%nat ->
  lane (upd i v st) j = if (j =? i)%nat then v else lane st j.
Proof.
  unfold lane. revert i j. induction st as [|h t IH]; intros i j Hi.
  - cbn in Hi. lia.
  - destruct i as [|i], j as [|j]; cbn; try reflexivity.
    apply IH. cbn in Hi. lia.
Qed.

Lemma unrolled_ind {S : Type} (P : S -> Prop) (from : nat) (body : nat -> S -> S) (s : S) :
  P s -> (forall i s, (i < 12)%nat -> P s -> P (body i s)) -> P (unrolled from body s).
Proof.
  intros H0 Hstep. unfold unrolled.
  generalize (seq from (12 - from)) as l. intros l. revert s H0.
  induction l as [|i l IH]; intros s H0; cbn [fold_left]; [exact H0|].
  apply IH. destruct (Nat.ltb_spec i SPONGE_WIDTH) as [Hi|Hi]; [|exact H0].
  apply Hstep; assumption.
Qed.

Section Permutation.

Variable K : constants.

Lemma mds_layer_ok (st : state) : exists st', mds_layer K st = Ok st'.
Proof.
  unfold mds_layer. apply unrolled_ind.
  - eauto.
  - intros i acc Hi [st' ->]. cbn [bind]. unfold mds_row_shf.
    replace (i <? SPONGE_WIDTH)%nat with true
      by (symmetry; apply Nat.ltb_lt; exact Hi).
    cbn [assert bind]. eauto.
Qed.

Lemma full_rounds_loop_ok (n round_ctr : nat) (st : state) :
  exists st', full_rounds_loop K n round_ctr st = Ok ((round_ctr + n)%nat, st').
Proof.
  revert round_ctr st. induction n as [|n IH]; intros round_ctr st.
  - cbn. rewrite Nat.add_0_r. eauto.
  - cbn [full_rounds_loop].
    destruct (mds_layer_ok (sbox_layer (constant_layer K round_ctr st))) as [st1 ->].
    cbn [bind]. destruct (IH (round_ctr + 1)%nat st1) as [st2 ->].
    replace (round_ctr + 1 + n)%nat with (round_ctr + S n)%nat by lia. eauto.
Qed.

Lemma permute_poseidon_ok (st : state) :
  N_ROUNDS K = (2 * HALF_N_FULL_ROUNDS K + N_PARTIAL_ROUNDS K)%nat ->
  exists st', permute_poseidon K st = Ok st'.
Proof.
  intros HN. unfold permute_poseidon, full_rounds, partial_rounds.
  destruct (full_rounds_loop_ok (HALF_N_FULL_ROUNDS K) 0 st) as [st1 ->].
  cbn [bind].
  match goal with
  | |- context [full_rounds_loop K ?n ?c ?s] =>
      destruct (full_rounds_loop_ok n c s) as [st2 ->]
  end.
  cbn [bind].
  replace (_ =? N_ROUNDS K)%nat with true by (symmetry; apply Nat.eqb_eq; lia).
  cbn [assert bind]. eauto.
Qed.




End Permutation.



(** *** The fast partial-round step *)

Lemma accumulate_spec (ys : list Z) :
  forall (pa : Z * Z),
    is_u128 (fst pa) -> 0 <= snd pa -> snd pa + Z.of_nat (length ys) < 2 ^ 32 ->
    Forall is_u128 ys ->
    let pa' := fold_left add_u160_u128 ys pa in
    is_u128 (fst pa') /\ 0 <= snd pa' <= snd pa + Z.of_nat (length ys) /\
    u160_value pa' = u160_value pa + sum_Z ys.
Proof.
  induction ys as [|y ys IH]; intros [lo hi] Hl Hh Hn Hys; cbn [fst snd] in *.
  - cbn. unfold u160_value. cbn [fst snd]. repeat split; try lia; apply Hl.
  - inversion Hys as [|? ? Hy Hys']; subst.
    cbn [fold_left length sum_Z fold_right].
    pose proof (add_u160_u128_spec lo hi y Hl) as Hstep.
    destruct (add_u160_u128 (lo, hi) y) as [lo1 hi1].
    destruct Hstep as (S1 & S2 & S3); [cbn [length] in Hn; lia | exact Hy |].
    destruct (IH (lo1, hi1)) as (I1 & I2 & I3); cbn [fst snd]; try assumption; try lia.
    { cbn [length] in Hn. lia. }
    cbn [fst snd] in *. split; [exact I1|]. split; [cbn [length]; lia|].
    rewrite I3. unfold u160_value. cbn [fst snd]. fold (sum_Z ys). lia.
Qed.

Lemma unrolled_as_fold (from : nat) (f : nat -> Z) (pa : Z * Z) :
  unrolled from (fun i acc => add_u160_u128 acc (f i)) pa
  = fold_left add_u160_u128 (map f (seq from (12 - from))) pa.
Proof.
  unfold unrolled.
  assert (H : Forall (fun i => (i < 12)%nat) (seq from (12 - from))).
  { apply Forall_forall. intros i Hi. apply in_seq in Hi. lia. }
  revert pa H. generalize (seq from (12 - from)) as l.
  induction l as [|i l IH]; intros pa H; cbn [fold_left map]; [reflexivity|].
  inversion H as [|? ? Hi Hl]; subst.
  replace (i <? SPONGE_WIDTH)%nat with true by (symmetry; apply Nat.ltb_lt; exact Hi).
  apply IH. exact Hl.
Qed.

Lemma mds_partial_layer_fast_shape (K : constants) (r : nat) (st : state) :
  length st = 12%nat ->
  mds_partial_layer_fast K r st
  = fast_lane0 K r st :: map (fast_lane K r st) (seq 1 11).
Proof.
  intros Hlen.
  do 12 (destruct st as [|? st]; [discriminate Hlen|]).
  destruct st; [|discriminate Hlen].
  cbv beta iota zeta delta
    [mds_partial_layer_fast unrolled fold_left seq Nat.sub Nat.ltb Nat.leb
     SPONGE_WIDTH upd lane nth repeat to_noncanonical_u64 fast_lane0 fast_lane
     map w_hat_term mds0to0].
  reflexivity.
Qed.

Lemma u64_at_range (t : nat -> Z) (i : nat) : is_u64 (u64_at t i).
Proof. unfold u64_at, wrap64, is_u64. apply Z.mod_pos_bound. lia. Qed.

Lemma u64_product_u128 (a b : Z) : is_u64 a -> is_u64 b -> wrap128 (a * b) = a * b.
Proof.
  unfold is_u64. intros Ha Hb. apply Z.mod_small. split; [apply Z.mul_nonneg_nonneg; lia|].
  change (2 ^ 128) with (2 ^ 64 * 2 ^ 64). apply Z.mul_lt_mono_nonneg; lia.
Qed.

Lemma multiply_accumulate_spec (acc x y : GoldilocksField) :
  is_u64 (data acc) -> is_u64 (data x) -> is_u64 (data y) ->
  is_u64 (data (multiply_accumulate acc x y)) /\
  data (multiply_accumulate acc x y) ~= data acc + data x * data y.
Proof.
  intros Ha Hx Hy. unfold multiply_accumulate.
  destruct (mul_spec x y Hx Hy) as [M1 M2].
  destruct (add_spec acc (mul x y) Ha M1) as [A1 A2].
  split; [exact A1|]. unfold congr. rewrite A2.
  rewrite <- Z.add_mod_idemp_r, M2, Z.add_mod_idemp_r by (rewrite ORDER_val; lia).
  reflexivity.
Qed.

(** C2 (as amended): on every 12-lane state and for every round index [r],
    [mds_partial_layer_fast] returns a 12-lane state whose lane 0 is congruent
    modulo [p] to [s_0 * (CIRC[0] + DIAG[0]) + sum_{i=1..11} s_i * W_HAT[r][i-1]]
    and whose lane [i >= 1] is congruent to [s_i + s_0 * V[r][i-1]]: the
    sparse matrix [(M_00, w_hat; v, Id)], not the generic MDS layer. *)
Theorem mds_partial_layer_fast_spec (K : constants) (r : nat) (st : state) :
  length st = 12%nat -> (forall i, is_u64 (data (lane st i))) ->
  let st' := mds_partial_layer_fast K r st in
  length st' = 12%nat /\
  data (lane st' 0) ~=
    data (lane st 0) * mds0to0 K + sum_Z (map (w_hat_term K r st) (seq 1 11)) /\
  forall i, (1 <= i < 12)%nat ->
    data (lane st' i) ~=
      data (lane st i) + data (lane st 0) * u64_at (FAST_PARTIAL_ROUND_VS K r) (i - 1).
Proof.
  intros Hlen Hst. cbv zeta. rewrite mds_partial_layer_fast_shape by exact Hlen.
  split; [reflexivity|]. split.
  - cbn [lane nth]. unfold fast_lane0.
    assert (Hm : is_u64 (mds0to0 K))
      by (unfold mds0to0, wrap64, is_u64; apply Z.mod_pos_bound; lia).
    assert (Hterm : forall i, wrap128 (w_hat_term K r st i) = w_hat_term K r st i).
    { intros i. unfold w_hat_term. apply u64_product_u128; [apply Hst | apply u64_at_range]. }
    rewrite (map_ext _ _ Hterm).
    rewrite u64_product_u128 by (apply Hst || exact Hm).
    set (ys := map (w_hat_term K r st) (seq 1 11)).
    assert (Hys : Forall is_u128 ys).
    { apply Forall_forall. intros y Hy. apply in_map_iff in Hy.
      destruct Hy as (i & <- & _). rewrite <- Hterm.
      unfold wrap128, is_u128. apply Z.mod_pos_bound. lia. }
    pose proof (accumulate_spec ys (0, 0)) as Hacc. cbn [fst snd] in Hacc.
    destruct Hacc as (A1 & A2 & A3); try assumption.
    { unfold is_u128. lia. } { lia. }
    { unfold ys. rewrite length_map, length_seq. cbn. lia. }
    destruct (fold_left add_u160_u128 ys (0, 0)) as [lo hi].
    cbn [fst snd] in *. unfold u160_value in A3. cbn [fst snd] in A3.
    assert (Hy0 : is_u128 (data (lane st 0) * mds0to0 K)).
    { rewrite <- u64_product_u128 by (apply Hst || exact Hm).
      unfold wrap128, is_u128. apply Z.mod_pos_bound. lia. }
    pose proof (add_u160_u128_spec lo hi (data (lane st 0) * mds0to0 K) A1) as Hstep.
    destruct (add_u160_u128 (lo, hi) (data (lane st 0) * mds0to0 K)) as [lo' hi'].
    destruct Hstep as (S1 & S2 & S3).
    { unfold ys in A2. rewrite length_map, length_seq in A2. cbn in A2.
      change (2 ^ 32) with 4294967296. lia. }
    { exact Hy0. }
    destruct (reduce_u160_spec lo' hi' S1) as [_ R2].
    { unfold ys in A2. rewrite length_map, length_seq in A2. cbn in A2.
      unfold is_u32. change (2 ^ 32) with 4294967296. lia. }
    rewrite R2. replace (hi' * 2 ^ 128 + lo')
      with (data (lane st 0) * mds0to0 K + sum_Z ys) by lia.
    reflexivity.
  - intros i Hi.
    assert (Hlane : lane (fast_lane0 K r st :: map (fast_lane K r st) (seq 1 11)) i
                    = fast_lane K r st i).
    { unfold lane. destruct i as [|i]; [lia|]. cbn [nth].
      rewrite (nth_indep _ _ (fast_lane K r st 0%nat))
        by (rewrite length_map, length_seq; lia).
      rewrite (map_nth (fast_lane K r st)), seq_nth by lia. reflexivity. }
    rewrite Hlane. unfold fast_lane.
    apply multiply_accumulate_spec; try apply Hst.
    cbn [data from_canonical_u64]. apply u64_at_range.
Qed.

Example sbox_lane_0_unit : sbox_lane_0 unit_lane_1 = unit_lane_1.
Proof. vm_compute. reflexivity. Qed.

Example fast_on_unit_lane_1 :
  mds_partial_layer_fast sample_constants 0 (sbox_lane_0 unit_lane_1)
  = map mkGF [5; 1; 0; 0; 0; 0; 0; 0; 0; 0; 0; 0].
Proof. vm_compute. reflexivity. Qed.

Example generic_on_unit_lane_1 :
  mds_layer sample_constants (sbox_lane_0 unit_lane_1)
  = Ok (map mkGF [15; 17; 20; 34; 18; 39; 13; 13; 28; 2; 16; 41]).
Proof. vm_compute. reflexivity. Qed.

Example fast_step_differs_on_unit_lane_1 :
  mds_layer sample_constants (sbox_lane_0 unit_lane_1)
  <> Ok (mds_partial_layer_fast sample_constants 0 (sbox_lane_0 unit_lane_1)).
Proof.
  rewrite fast_on_unit_lane_1, generic_on_unit_lane_1. discriminate.
Qed.

Example fast_on_sample_partial_state :
  map data (mds_partial_layer_fast sample_constants 0 sample_partial_state)
  = [8976360473217885575; 4921931907109072108; 14017891397367994758;
     4667106818212333087; 13763066308471255737; 4412281729315594066;
     13508241219574516716; 4157456640418855045; 13253416130677777695;
     3902631551522116024; 12998591041781038674; 3647806462625377003].
Proof. vm_compute. reflexivity. Qed.

Example generic_on_sample_partial_state :
  mds_layer sample_constants sample_partial_state
  = Ok (map mkGF
          [7943466181453586501; 7622613940740253184; 8109461097765088605;
           15998212880753945827; 3183626924045892793; 10008365396053614703;
           6057516373209257573; 7258451437396524828; 1489371571483861598;
           8199780094696553075; 17946892345678455351; 3583741699871321787]).
Proof. vm_compute. reflexivity. Qed.

(** C2, counterexample: on the state that enters the first fast step when
    [sample_state] is permuted under [sample_constants], the fast step and
    the generic MDS layer return different states. *)
Lemma fast_step_differs_from_mds_layer :
  first_fast_step_input sample_constants sample_state = Ok sample_partial_state /\
  mds_layer sample_constants sample_partial_state
  <> Ok (mds_partial_layer_fast sample_constants 0 sample_partial_state).
Proof.
  split; [vm_compute; reflexivity|].
  vm_compute. discriminate.
Qed.

Lemma mul_zero_l (y : GoldilocksField) : mul (mkGF 0) y = mkGF 0.
Proof. reflexivity. Qed.

Lemma from_noncanonical_u96_small (n_lo : Z) :
  is_u64 n_lo -> from_noncanonical_u96 n_lo 0 = mkGF n_lo.
Proof.
  intros H. unfold from_noncanonical_u96, from_noncanonical_u128.
  assert (W : wrap128 (wrap128 (Z.shiftl 0 64) + n_lo) = n_lo).
  { consts. bits. Z.div_mod_to_equations. lia. }
  rewrite W.
  assert (H1 : wrap64 (Z.shiftr n_lo 64) = 0).
  { consts. bits. Z.div_mod_to_equations. lia. }
  assert (H2 : wrap64 (Z.land n_lo UINT64_MAX) = n_lo).
  { unfold UINT64_MAX. change (2 ^ 64 - 1) with 18446744073709551615.
    consts. bits. Z.div_mod_to_equations. lia. }
  rewrite H1, H2. unfold reduce128, overflowing_sub.
  change (Z.shiftr 0 32) with 0. change (Z.land 0 EPSILON) with 0.
  change (wrap64 (0 * EPSILON)) with 0.
  assert (W64 : wrap64 n_lo = n_lo) by (apply Z.mod_small; exact H).
  replace (n_lo <? 0) with false by (symmetry; apply Z.ltb_ge; apply H).
  rewrite !Z.sub_0_r, !W64.
  replace (UINT64_MAX <? n_lo) with false
    by (symmetry; apply Z.ltb_ge; unfold UINT64_MAX, is_u64 in *; lia).
  rewrite Z.add_0_r, W64. reflexivity.
Qed.

(** On the state [(0, 1, 0, ..., 0)] lane 2 of the generic layer is the last
    circulant entry, lane 2 of the fast step is zero: the two agree on this
    state only for tables whose circulant vector ends in zero. *)
Lemma fast_step_differs_whenever_dense (K : constants) (r : nat) :
  u64_at (MDS_MATRIX_CIRC K) 11 <> 0 ->
  mds_layer K unit_lane_1 <> Ok (mds_partial_layer_fast K r unit_lane_1).
Proof.
  intros Hc E.
  assert (L : exists st', mds_layer K unit_lane_1 = Ok st' /\
                          lane st' 2 = mkGF (u64_at (MDS_MATRIX_CIRC K) 11)).
  { cbv beta iota zeta delta
      [mds_layer unrolled fold_left seq map bind mds_row_shf assert Nat.ltb Nat.leb
       SPONGE_WIDTH Nat.sub Nat.add Nat.modulo Nat.divmod fst snd lane nth
       to_noncanonical_u64 data upd unit_lane_1].
    eexists. split; [reflexivity|].
    rewrite !Z.mul_0_l, Z.mul_1_l.
    change (wrap128 0) with 0. rewrite !Z.add_0_l.
    change (wrap128 0) with 0. rewrite !Z.add_0_r.
    pose proof (u64_at_range (MDS_MATRIX_CIRC K) 11) as Hr.
    assert (W : wrap128 (u64_at (MDS_MATRIX_CIRC K) 11) = u64_at (MDS_MATRIX_CIRC K) 11)
      by (apply Z.mod_small; unfold is_u64 in Hr;
          change (2 ^ 64) with 18446744073709551616 in Hr;
          change (2 ^ 128) with 340282366920938463463374607431768211456; lia).
    rewrite !W.
    assert (W1 : wrap64 (u64_at (MDS_MATRIX_CIRC K) 11) = u64_at (MDS_MATRIX_CIRC K) 11)
      by (apply Z.mod_small; exact Hr).
    assert (W2 : wrap32 (Z.shiftr (u64_at (MDS_MATRIX_CIRC K) 11) 64) = 0).
    { unfold is_u64 in Hr. consts. bits. Z.div_mod_to_equations. lia. }
    rewrite W1, W2. apply from_noncanonical_u96_small. exact Hr. }
  destruct L as (st' & E1 & E2). rewrite E1 in E. injection E as E.
  rewrite E in E2. rewrite mds_partial_layer_fast_shape in E2 by reflexivity.
  cbv beta iota delta [lane nth map seq fast_lane unit_lane_1 multiply_accumulate] in E2.
  rewrite mul_zero_l in E2.
  change (add (mkGF 0) (mkGF 0)) with (mkGF 0) in E2.
  injection E2 as E2. apply Hc. symmetry. exact E2.
Qed.

(** ** Statements about the field type *)

Lemma negating_input_large (a : Z) :
  negating_input a -> 0 < a -> 2 ^ 62 < a.
Proof.
  intros (m & t & Hm & Ht & ->) Hpos.
  assert (P : 0 < 2 ^ t) by (apply Z.pow_pos_nonneg; lia).
  destruct (Z_le_dec m 63) as [Hle|Hgt].
  - assert (2 ^ m <= 2 ^ 63) by (apply Z.pow_le_mono_r; lia).
    rewrite ORDER_val in *. change (2 ^ 63) with 9223372036854775808 in *.
    change (2 ^ 62) with 4611686018427387904. nia.
  - assert (2 ^ 64 <= 2 ^ m) by (apply Z.pow_le_mono_r; lia).
    rewrite ORDER_val in *. change (2 ^ 64) with 18446744073709551616 in *. nia.
Qed.

(** Partial correctness of [inverse]: on every input that is not congruent to
    0 modulo [p] and is not one of the words [(p - 2^m) * 2^t] of the negating
    early return, the run ends within [2^64] loop rounds without failing an
    assertion; if no signed 128-bit coefficient overflows on the way, it
    returns [b] with [a * b] congruent to 1 modulo [p], the product being
    stored as 1 or as [p + 1].  No bound on [c] and [d] that excludes the
    overflow for every input is proved here. *)
Lemma inverse_correct_unless_overflow (a : GoldilocksField) :
  is_u64 (data a) -> data a mod ORDER <> 0 -> ~ negating_input (data a) ->
  exists fuel : nat,
    inverse fuel a = Undefined \/
    exists b, inverse fuel a = Ok b /\ is_u64 (data b) /\
              data (mul a b) mod ORDER = 1 /\
              (data (mul a b) = 1 \/ data (mul a b) = ORDER + 1).
Proof.
  intros Ha Hnz Hneg. exists (Z.to_nat (2 ^ 64)).
  assert (Hpos : 0 < data a < 2 ^ 64).
  { unfold is_u64 in Ha. split; [|lia].
    destruct (Z.eq_dec (data a) 0) as [E|]; [|lia]. rewrite E in Hnz.
    exfalso. apply Hnz. reflexivity. }
  destruct (inverse_spec (Z.to_nat (2 ^ 64)) a) as [E | (b & E & B1 & B2)];
    try assumption.
  - rewrite Z2Nat.id by lia. lia.
  - apply coprime_ORDER. exact Hnz.
  - left. exact E.
  - right. exists b. split; [exact E|]. split; [exact B1|].
    destruct (mul_spec a b Ha B1) as [M1 M2].
    assert (M3 : data (mul a b) ~= 1).
    { unfold congr. rewrite M2. exact B2. }
    split; [exact M3|]. apply u64_congr_one; assumption.
Qed.

Example inverse_correct_unless_overflow_at_3 :
  is_u64 (data (mkGF 3)) /\ data (mkGF 3) mod ORDER <> 0 /\
  ~ negating_input (data (mkGF 3)) /\
  exists fuel : nat,
    inverse fuel (mkGF 3) = Undefined \/
    exists b, inverse fuel (mkGF 3) = Ok b /\ is_u64 (data b) /\
              data (mul (mkGF 3) b) mod ORDER = 1 /\
              (data (mul (mkGF 3) b) = 1 \/ data (mul (mkGF 3) b) = ORDER + 1).
Proof.
  assert (H1 : is_u64 (data (mkGF 3))) by (unfold is_u64; simpl; lia).
  assert (H2 : data (mkGF 3) mod ORDER <> 0) by (vm_compute; discriminate).
  assert (H3 : ~ negating_input (data (mkGF 3))).
  { intros H. apply negating_input_large in H; simpl in *; lia. }
  split; [exact H1|]. split; [exact H2|]. split; [exact H3|].
  exact (inverse_correct_unless_overflow (mkGF 3) H1 H2 H3).
Qed.

(** The product with the inverse need not be stored canonically: [inverse 2]
    is [(p + 1) / 2], and the stored word of [2 * inverse 2] is [p + 1]. *)
Lemma inverse_product_not_canonical :
  inverse 64 (mkGF 2) = Ok (mkGF 9223372034707292161) /\
  data (mul (mkGF 2) (mkGF 9223372034707292161)) = ORDER + 1 /\
  data (mul (mkGF 2) (mkGF 9223372034707292161)) <> 1.
Proof. split; [vm_compute; reflexivity|]. split; [vm_compute; reflexivity|]. vm_compute. discriminate. Qed.

Example inverse_of_3 :
  inverse 128 (mkGF 3) = Ok (mkGF 12297829379609722881) /\
  data (mul (mkGF 3) (mkGF 12297829379609722881)) = ORDER + 1.
Proof. split; vm_compute; reflexivity. Qed.

(** The slip behind the excluded inputs: on [p - 4] the early return negates
    with the two's-complement [operator-], and the product is not 1 mod p. *)
Example inverse_negated_exit_wrong :
  negated_exit 64 (mkGF (ORDER - 4)) = true /\
  inverse 64 (mkGF (ORDER - 4)) = Ok (mkGF 4611686021648613375) /\
  data (mul (mkGF (ORDER - 4)) (mkGF 4611686021648613375)) mod ORDER
  = 18446744052234715142.
Proof. repeat split; vm_compute; reflexivity. Qed.

(** C3: for every pair of 64-bit words [x_hi], [x_lo], [reduce128] returns a
    64-bit word congruent to [x_hi * 2^64 + x_lo] modulo [p]. *)
Theorem reduce128_congruent (x_hi x_lo : Z) :
  is_u64 x_hi -> is_u64 x_lo ->
  is_u64 (data (reduce128 x_hi x_lo)) /\
  data (reduce128 x_hi x_lo) mod ORDER = (x_hi * 2 ^ 64 + x_lo) mod ORDER.
Proof. exact (reduce128_spec x_hi x_lo). Qed.

Lemma reduce128_congruent_witness :
  is_u64 (2 ^ 64 - 1) /\ is_u64 5 /\
  is_u64 (data (reduce128 (2 ^ 64 - 1) 5)) /\
  data (reduce128 (2 ^ 64 - 1) 5) mod ORDER = ((2 ^ 64 - 1) * 2 ^ 64 + 5) mod ORDER.
Proof.
  assert (H1 : is_u64 (2 ^ 64 - 1)) by (unfold is_u64; lia).
  assert (H2 : is_u64 5) by (unfold is_u64; lia).
  split; [exact H1|]. split; [exact H2|].
  exact (reduce128_congruent (2 ^ 64 - 1) 5 H1 H2).
Defined.

Example reduce128_can_be_noncanonical :
  data (reduce128 0 (ORDER + 1)) = ORDER + 1.
Proof. vm_compute. reflexivity. Qed.

Lemma add_neg_is_epsilon (a : GoldilocksField) :
  0 < data a < 2 ^ 64 -> data (add a (neg a)) = EPSILON.
Proof.
  destruct a as [a]; cbn [data]; intros Ha.
  unfold add, neg, overflowing_add; cbn [data]. consts.
  assert (N : (- a) mod 18446744073709551616 = 18446744073709551616 - a)
    by (Z.div_mod_to_equations; lia).
  rewrite N.
  replace (a + (18446744073709551616 - a)) with 18446744073709551616 by lia.
  replace (18446744073709551616 - 1 - (18446744073709551616 - a) <? a) with true
    by (symmetry; apply Z.ltb_lt; lia).
  vm_compute. reflexivity.
Qed.

(** C5, the code at the failing input [a = 1]: the stored word of
    [a + (-a)] is [2^32 - 1], which is not congruent to 0 modulo [p]. *)
Theorem add_negate_one_is_epsilon :
  data (add (mkGF 1) (neg (mkGF 1))) = 4294967295 /\
  4294967295 mod ORDER <> 0.
Proof. split; [vm_compute; reflexivity | vm_compute; discriminate]. Qed.

(** C6, counterexample: the stored word of [(p - 1) + 1] is not 0. *)
Lemma wraparound_boundary_not_zero :
  data (add (from_canonical_u64 (ORDER - 1)) (from_canonical_u64 1)) <> 0.
Proof. vm_compute. discriminate. Qed.

(** C6 (as amended): [from_canonical (p - 1) + from_canonical 1] has the
    stored word [p], the non-canonical representative of zero. *)
Theorem wraparound_boundary_is_order :
  data (add (from_canonical_u64 (ORDER - 1)) (from_canonical_u64 1)) = ORDER /\
  data (add (from_canonical_u64 (ORDER - 1)) (from_canonical_u64 1)) mod ORDER = 0.
Proof. split; vm_compute; reflexivity. Qed.

(** C7, counterexample: with second operand 0 addition stores [p] for
    [from_canonical p] and 0 for canonical 0, with second operand 1 so does
    multiplication, and the answers of equality against 0 differ. *)
Lemma noncanonical_zero_not_identical :
  data (add (from_canonical_u64 ORDER) (mkGF 0))
  <> data (add (from_canonical_u64 0) (mkGF 0)) /\
  data (mul (from_canonical_u64 ORDER) (mkGF 1))
  <> data (mul (from_canonical_u64 0) (mkGF 1)) /\
  eqb (from_canonical_u64 ORDER) (mkGF 0) <> eqb (from_canonical_u64 0) (mkGF 0).
Proof. repeat split; vm_compute; discriminate. Qed.

(** Equality and negation on the two zeros: [operator==] compares stored
    words and [operator-] is the 64-bit two's complement. *)
Example noncanonical_zero_eq_neg :
  eqb (from_canonical_u64 ORDER) (from_canonical_u64 0) = false /\
  data (neg (from_canonical_u64 ORDER)) = EPSILON /\
  data (neg (from_canonical_u64 0)) = 0.
Proof. repeat split; vm_compute; reflexivity. Qed.

Ltac as_congr :=
  match goal with
  | |- ?a mod ORDER = ?b mod ORDER => change (congr a b)
  end.

(** C7 (as amended): for add, sub and mul (in either operand position) and
    square, and every second operand [x], the result with [from_canonical p]
    is congruent modulo [p] to the result with canonical 0. *)
Theorem noncanonical_zero_congruent (x : GoldilocksField) :
  is_u64 (data x) ->
  let z := from_canonical_u64 0 in
  let nz := from_canonical_u64 ORDER in
  data (add nz x) mod ORDER = data (add z x) mod ORDER /\
  data (add x nz) mod ORDER = data (add x z) mod ORDER /\
  data (sub nz x) mod ORDER = data (sub z x) mod ORDER /\
  data (sub x nz) mod ORDER = data (sub x z) mod ORDER /\
  data (mul nz x) mod ORDER = data (mul z x) mod ORDER /\
  data (mul x nz) mod ORDER = data (mul x z) mod ORDER /\
  data (square nz) mod ORDER = data (square z) mod ORDER.
Proof.
  intros Hx z nz.
  assert (Hz : is_u64 (data z)) by (unfold is_u64; simpl; lia).
  assert (Hnz : is_u64 (data nz)) by (unfold is_u64; simpl; rewrite ORDER_val; lia).
  assert (E : data nz ~= data z) by reflexivity.
  split; [|split; [|split; [|split; [|split; [|split]]]]].
  - rewrite (proj2 (add_spec nz x Hnz Hx)), (proj2 (add_spec z x Hz Hx)).
    as_congr. rewrite E. reflexivity.
  - rewrite (proj2 (add_spec x nz Hx Hnz)), (proj2 (add_spec x z Hx Hz)).
    as_congr. rewrite E. reflexivity.
  - rewrite (proj2 (sub_spec nz x Hnz Hx)), (proj2 (sub_spec z x Hz Hx)).
    as_congr. rewrite E. reflexivity.
  - rewrite (proj2 (sub_spec x nz Hx Hnz)), (proj2 (sub_spec x z Hx Hz)).
    as_congr. rewrite E. reflexivity.
  - rewrite (proj2 (mul_spec nz x Hnz Hx)), (proj2 (mul_spec z x Hz Hx)).
    as_congr. rewrite E. reflexivity.
  - rewrite (proj2 (mul_spec x nz Hx Hnz)), (proj2 (mul_spec x z Hx Hz)).
    as_congr. rewrite E. reflexivity.
  - vm_compute. reflexivity.
Qed.

Lemma noncanonical_zero_congruent_witness :
  is_u64 (data (mkGF 5)) /\
  let x := mkGF 5 in
  let z := from_canonical_u64 0 in
  let nz := from_canonical_u64 ORDER in
  data (add nz x) mod ORDER = data (add z x) mod ORDER /\
  data (add x nz) mod ORDER = data (add x z) mod ORDER /\
  data (sub nz x) mod ORDER = data (sub z x) mod ORDER /\
  data (sub x nz) mod ORDER = data (sub x z) mod ORDER /\
  data (mul nz x) mod ORDER = data (mul z x) mod ORDER /\
  data (mul x nz) mod ORDER = data (mul x z) mod ORDER /\
  data (square nz) mod ORDER = data (square z) mod ORDER.
Proof.
  assert (H : is_u64 (data (mkGF 5))) by (unfold is_u64; simpl; lia).
  split; [exact H|]. exact (noncanonical_zero_congruent (mkGF 5) H).
Defined.

(** *** Zero inputs of [inverse] *)

Lemma bind_diverges {A B : Type} (m : outcome A) (k : A -> outcome B) :
  diverges m -> diverges (bind m k).
Proof. intros [-> | ->]; [left | right]; reflexivity. Qed.

Lemma inverse_zero_diverges (fuel : nat) :
  diverges (inverse fuel (mkGF 0)) /\ diverges (inverse fuel (mkGF ORDER)).
Proof.
  split.
  - unfold inverse, inverse_gcd. cbn [data].
    apply bind_diverges, bind_diverges. apply trailing_zeros_zero.
  - unfold inverse, inverse_gcd. cbn [data].
    apply bind_diverges.
    assert (T : trailing_zeros fuel ORDER 0 = Ok 0) by (destruct fuel; reflexivity).
    rewrite T. cbn [bind].
    change (Z.shiftr ORDER (wrap32 0) =? 1) with false. cbv iota.
    apply bind_diverges.
    unfold safe_iteration.
    change (swap_if_less (mkInv (Z.shiftr ORDER (wrap32 0)) ORDER 1 0 (wrap32 0)))
      with (mkInv ORDER ORDER 1 0 0).
    cbn [st_f st_g st_c st_d st_k].
    rewrite Z.eqb_refl. change (wrap64 (ORDER - ORDER)) with 0.
    change (i128_checked (1 - 0)) with (Ok 1). cbn [bind].
    apply bind_diverges. apply trailing_zeros_zero.
Qed.

(** *** No input makes [inverse] fail its assertion *)

Lemma bind_no_assert {A B : Type} (m : outcome A) (k : A -> outcome B) :
  no_assert m -> (forall a, m = Ok a -> no_assert (k a)) -> no_assert (bind m k).
Proof.
  unfold no_assert. intros Hm Hk. destruct m; cbn; try discriminate.
  - apply Hk. reflexivity.
  - congruence.
Qed.

Lemma trailing_zeros_no_assert (fuel : nat) :
  forall n count, no_assert (trailing_zeros fuel n count).
Proof.
  unfold no_assert.
  induction fuel as [|fuel IH]; intros n count; cbn [trailing_zeros];
    destruct (_ =? 0); try discriminate.
  destruct (_ <? _); [apply IH | discriminate].
Qed.

Lemma i128_checked_no_assert (x : Z) : no_assert (i128_checked x).
Proof. unfold no_assert, i128_checked. destruct (_ && _); discriminate. Qed.

Lemma i128_shl_no_assert (x n : Z) : no_assert (i128_shl x n).
Proof.
  unfold i128_shl. destruct (_ && _); [apply i128_checked_no_assert | discriminate].
Qed.

Lemma i128_checked_Ok (x y : Z) : i128_checked x = Ok y -> y = x.
Proof. unfold i128_checked. destruct (_ && _); congruence. Qed.

Lemma safe_iteration_no_assert (fuel : nat) (s : inv_state) :
  no_assert (safe_iteration fuel s).
Proof.
  unfold safe_iteration. destruct (_ =? _);
    (apply bind_no_assert; [apply i128_checked_no_assert|]; intros c _;
     apply bind_no_assert; [apply trailing_zeros_no_assert|]; intros kk _;
     apply bind_no_assert; [apply i128_shl_no_assert|]; intros d _; discriminate).
Qed.

Lemma unsafe_iteration_no_assert (fuel : nat) (s : inv_state) :
  no_assert (unsafe_iteration fuel s).
Proof.
  unfold unsafe_iteration. cbv zeta.
  apply bind_no_assert; [apply i128_checked_no_assert|]; intros c _.
  apply bind_no_assert; [apply trailing_zeros_no_assert|]; intros kk _.
  apply bind_no_assert; [apply i128_shl_no_assert|]; intros d _. discriminate.
Qed.

Lemma remaining_iterations_no_assert (tzf fuel : nat) :
  forall s, no_assert (remaining_iterations tzf fuel s).
Proof.
  induction fuel as [|fuel IH]; intros s; cbn [remaining_iterations];
    destruct (_ =? 1); try discriminate.
  apply bind_no_assert; [apply unsafe_iteration_no_assert|]. intros s' _. apply IH.
Qed.

Lemma canon_add_loop_no_assert (fuel : nat) :
  forall c, no_assert (canon_add_loop fuel c).
Proof.
  induction fuel as [|fuel IH]; intros c; cbn [canon_add_loop];
    destruct (_ <? 0); try discriminate.
  apply bind_no_assert; [apply i128_checked_no_assert|]. intros c' _. apply IH.
Qed.

Lemma canon_sub_loop_no_assert (fuel : nat) :
  forall c, no_assert (canon_sub_loop fuel c).
Proof.
  induction fuel as [|fuel IH]; intros c; cbn [canon_sub_loop];
    destruct (_ <=? _); try discriminate.
  apply bind_no_assert; [apply i128_checked_no_assert|]. intros c' _. apply IH.
Qed.

Lemma first_iteration_sign (fuel : nat) (f g k : Z) (s1 : inv_state) :
  safe_iteration fuel (mkInv f g 1 0 k) = Ok s1 -> st_c s1 = 1 \/ st_c s1 = -1.
Proof.
  unfold safe_iteration, swap_if_less. cbn [st_f st_g st_c st_d st_k].
  destruct (f <? g); cbn [st_f st_g st_c st_d st_k];
    destruct (_ =? _);
    match goal with
    | |- bind (i128_checked ?x) _ = _ -> _ =>
        destruct (i128_checked x) as [c| | |] eqn:Ec; cbn [bind]; try discriminate;
        apply i128_checked_Ok in Ec
    end;
    destruct (trailing_zeros fuel _ 0); cbn [bind]; try discriminate;
    destruct (i128_shl _ _); cbn [bind]; try discriminate;
    intros E; injection E as <-; cbn [st_c]; subst c; auto.
Qed.

Lemma inverse_never_asserts (fuel : nat) (x : GoldilocksField) :
  no_assert (inverse fuel x).
Proof.
  unfold inverse. apply bind_no_assert.
  - unfold inverse_gcd. cbv zeta.
    apply bind_no_assert; [apply trailing_zeros_no_assert|]. intros tz _.
    destruct (_ =? 1); [discriminate|].
    apply bind_no_assert; [apply safe_iteration_no_assert|]. intros s1 H1.
    destruct (st_f s1 =? 1).
    + destruct (first_iteration_sign _ _ _ _ _ H1) as [E|E]; rewrite E; discriminate.
    + apply bind_no_assert; [apply safe_iteration_no_assert|]. intros s2 _.
      apply bind_no_assert; [apply remaining_iterations_no_assert|]. intros s3 _.
      discriminate.
  - intros [r|s] _; [discriminate|].
    apply bind_no_assert; [apply canon_add_loop_no_assert|]. intros c _.
    apply bind_no_assert; [apply canon_sub_loop_no_assert|]. intros c' _.
    discriminate.
Qed.

(** C8 (as amended): on the stored words 0 and [p], for every amount of fuel,
    [inverse] neither returns nor fails an assertion: it stays in the loop of
    [trailing_zeros] (until its [int] counter overflows); and no input at
    all, zero or not, makes [inverse] fail its one assertion. *)
Theorem inverse_zero_never_returns (fuel : nat) :
  diverges (inverse fuel (mkGF 0)) /\ diverges (inverse fuel (mkGF ORDER)) /\
  forall x : GoldilocksField, inverse fuel x <> AssertFail.
Proof.
  destruct (inverse_zero_diverges fuel) as [H0 Hp].
  split; [exact H0|]. split; [exact Hp|].
  intros x. apply inverse_never_asserts.
Qed.

(** C8, counterexample: after 64 rounds of the loop of [trailing_zeros] the
    calls on 0 and on [p] are still running, and no amount of fuel makes
    either of them fail an assertion. *)
Lemma inverse_zero_fails_no_assertion :
  inverse 64 (mkGF 0) = OutOfFuel /\ inverse 64 (mkGF ORDER) = OutOfFuel /\
  ~ (exists fuel, inverse fuel (mkGF 0) = AssertFail) /\
  ~ (exists fuel, inverse fuel (mkGF ORDER) = AssertFail).
Proof.
  split; [vm_compute; reflexivity|]. split; [vm_compute; reflexivity|].
  split; intros [fuel H]; exact (inverse_never_asserts fuel _ H).
Qed.

(** *** Canonicalisation counts *)

(** C9, counterexample: on input 805 the main loop exits with
    [c = 89483895187886116589 >= 4 p]; one subtraction, and even three, do
    not bring it below [p]. *)
Lemma canonicalization_805_needs_four :
  inverse_gcd 128 (mkGF 805)
  = Ok (LoopExit (mkInv 1 3 89483895187886116589 286898429633072934088 77)) /\
  4 * ORDER <= 89483895187886116589 /\
  canon_sub_loop 1 89483895187886116589 = OutOfFuel /\
  canon_sub_loop 3 89483895187886116589 = OutOfFuel /\
  canon_sub_loop 4 89483895187886116589 = Ok 15696918910227779305.
Proof.
  split; [vm_compute; reflexivity|]. split; [vm_compute; discriminate|].
  repeat split; vm_compute; reflexivity.
Qed.

(** C9 (as amended): for every signed 128-bit [c], the first loop finishes
    exactly when given at least [ceil (-c / p)] additions and the second
    exactly when given at least [floor (c / p)] subtractions, and each leaves
    [c mod p] when it had anything to do; no fixed number of rounds is
    enough for all exit values. *)
Theorem canonicalization_counts (fuel : nat) (c : Z) :
  I128_MIN <= c <= I128_MAX ->
  canon_add_loop fuel c =
    (if c + Z.of_nat fuel * ORDER <? 0 then OutOfFuel
     else Ok (if c <? 0 then c mod ORDER else c)) /\
  canon_sub_loop fuel c =
    (if ORDER <=? c - Z.of_nat fuel * ORDER then OutOfFuel
     else Ok (if ORDER <=? c then c mod ORDER else c)).
Proof.
  intros Hc. split; [apply canon_add_loop_spec | apply canon_sub_loop_spec]; exact Hc.
Qed.

Lemma canonicalization_counts_witness :
  I128_MIN <= - (2 * ORDER) - 1 <= I128_MAX /\
  canon_add_loop 2 (- (2 * ORDER) - 1) =
    (if - (2 * ORDER) - 1 + Z.of_nat 2 * ORDER <? 0 then OutOfFuel
     else Ok (if - (2 * ORDER) - 1 <? 0 then (- (2 * ORDER) - 1) mod ORDER
              else - (2 * ORDER) - 1)) /\
  canon_sub_loop 2 (- (2 * ORDER) - 1) =
    (if ORDER <=? - (2 * ORDER) - 1 - Z.of_nat 2 * ORDER then OutOfFuel
     else Ok (if ORDER <=? - (2 * ORDER) - 1 then (- (2 * ORDER) - 1) mod ORDER
              else - (2 * ORDER) - 1)).
Proof.
  assert (H : I128_MIN <= - (2 * ORDER) - 1 <= I128_MAX) by (vm_compute; split; discriminate).
  split; [exact H|]. exact (canonicalization_counts 2 (- (2 * ORDER) - 1) H).
Defined.

(** *** The 160-bit accumulator *)

(** C10: for every accumulator [(lo, hi)] with a 128-bit [lo] and a 32-bit
    [hi], as [add_u160_u128] builds them, [reduce_u160] returns a 64-bit word
    congruent to [hi * 2^128 + lo] modulo [p]. *)
Theorem reduce_u160_congruent (lo hi : Z) :
  is_u128 lo -> is_u32 hi ->
  is_u64 (data (reduce_u160 (lo, hi))) /\
  data (reduce_u160 (lo, hi)) mod ORDER = (hi * 2 ^ 128 + lo) mod ORDER.
Proof. exact (reduce_u160_spec lo hi). Qed.

Lemma reduce_u160_congruent_witness :
  is_u128 (2 ^ 128 - 1) /\ is_u32 11 /\
  is_u64 (data (reduce_u160 (2 ^ 128 - 1, 11))) /\
  data (reduce_u160 (2 ^ 128 - 1, 11)) mod ORDER = (11 * 2 ^ 128 + (2 ^ 128 - 1)) mod ORDER.
Proof.
  assert (H1 : is_u128 (2 ^ 128 - 1)) by (unfold is_u128; lia).
  assert (H2 : is_u32 11) by (unfold is_u32; lia).
  split; [exact H1|]. split; [exact H2|].
  exact (reduce_u160_congruent (2 ^ 128 - 1) 11 H1 H2).
Defined.

(** Accumulators built by [add_u160_u128] from the empty sum are in range and
    hold the exact sum of their addends. *)
Lemma accumulator_exact (ys : list Z) :
  Forall is_u128 ys -> Z.of_nat (length ys) < 2 ^ 32 ->
  let pa := fold_left add_u160_u128 ys (0, 0) in
  is_u128 (fst pa) /\ is_u32 (snd pa) /\ u160_value pa = sum_Z ys.
Proof.
  intros Hys Hn.
  destruct (accumulate_spec ys (0, 0)) as (A1 & A2 & A3); cbn [fst snd];
    try assumption; try lia.
  { unfold is_u128. lia. }
  cbn [fst snd] in *. split; [exact A1|]. split; [unfold is_u32; lia|].
  rewrite A3. unfold u160_value. cbn [fst snd]. lia.
Qed.

(** *** Witnesses for the permutation theorems *)



Lemma sample_state_lanes (i : nat) : is_u64 (data (lane sample_state i)).
Proof.
  unfold is_u64, lane, sample_state.
  do 12 (destruct i as [|i]; [simpl; lia|]). destruct i; simpl; lia.
Qed.

Lemma mds_partial_layer_fast_spec_witness :
  length sample_state = 12%nat /\
  (forall i, is_u64 (data (lane sample_state i))) /\
  let st' := mds_partial_layer_fast sample_constants 0 sample_state in
  length st' = 12%nat /\
  data (lane st' 0) ~=
    data (lane sample_state 0) * mds0to0 sample_constants
    + sum_Z (map (w_hat_term sample_constants 0 sample_state) (seq 1 11)) /\
  forall i, (1 <= i < 12)%nat ->
    data (lane st' i) ~=
      data (lane sample_state i)
      + data (lane sample_state 0)
        * u64_at (FAST_PARTIAL_ROUND_VS sample_constants 0) (i - 1).
Proof.
  split; [reflexivity|]. split; [exact sample_state_lanes|].
  exact (mds_partial_layer_fast_spec sample_constants 0 sample_state
           eq_refl sample_state_lanes).
Defined.

(** * Further properties *)

(** ** The field operations *)

(** *** Carries and borrows *)

Lemma overflowing_add_exact (a b : Z) :
  is_u64 a -> is_u64 b ->
  is_u64 (fst (overflowing_add a b)) /\
  fst (overflowing_add a b) + 2 ^ 64 * flag (snd (overflowing_add a b)) = a + b.
Proof.
  intros Ha Hb. unfold overflowing_add; cbn [fst snd]. consts.
  break_flag; split; solve_wrap.
Qed.

Lemma overflowing_sub_exact (a b : Z) :
  is_u64 a -> is_u64 b ->
  is_u64 (fst (overflowing_sub a b)) /\
  fst (overflowing_sub a b) - 2 ^ 64 * flag (snd (overflowing_sub a b)) = a - b.
Proof.
  intros Ha Hb. unfold overflowing_sub; cbn [fst snd]. consts.
  break_flag; split; solve_wrap.
Qed.

(** X1: for 64-bit [a] and [b], the word and the flag of [overflowing_add]
    hold the exact sum ([word + 2^64 * flag = a + b]), and those of
    [overflowing_sub] the exact difference ([word - 2^64 * flag = a - b]). *)
Theorem overflowing_add_sub_exact (a b : Z) :
  is_u64 a -> is_u64 b ->
  (is_u64 (fst (overflowing_add a b)) /\
   fst (overflowing_add a b) + 2 ^ 64 * flag (snd (overflowing_add a b)) = a + b) /\
  (is_u64 (fst (overflowing_sub a b)) /\
   fst (overflowing_sub a b) - 2 ^ 64 * flag (snd (overflowing_sub a b)) = a - b).
Proof.
  intros Ha Hb. split.
  - apply overflowing_add_exact; assumption.
  - apply overflowing_sub_exact; assumption.
Qed.

Lemma overflowing_add_sub_exact_witness :
  is_u64 (2 ^ 64 - 1) /\ is_u64 2 /\
  (is_u64 (fst (overflowing_add (2 ^ 64 - 1) 2)) /\
   fst (overflowing_add (2 ^ 64 - 1) 2)
   + 2 ^ 64 * flag (snd (overflowing_add (2 ^ 64 - 1) 2)) = 2 ^ 64 - 1 + 2) /\
  (is_u64 (fst (overflowing_sub (2 ^ 64 - 1) 2)) /\
   fst (overflowing_sub (2 ^ 64 - 1) 2)
   - 2 ^ 64 * flag (snd (overflowing_sub (2 ^ 64 - 1) 2)) = 2 ^ 64 - 1 - 2).
Proof.
  assert (H1 : is_u64 (2 ^ 64 - 1)) by (unfold is_u64; lia).
  assert (H2 : is_u64 2) by (unfold is_u64; lia).
  split; [exact H1|]. split; [exact H2|].
  exact (overflowing_add_sub_exact (2 ^ 64 - 1) 2 H1 H2).
Defined.

(** *** Addition and subtraction *)

Lemma add_multiple (a b : GoldilocksField) :
  is_u64 (data a) -> is_u64 (data b) ->
  exists j, 0 <= j <= 2 /\ data (add a b) = data a + data b - j * ORDER.
Proof.
  destruct a as [a], b as [b]; cbn [data]; intros Ha Hb.
  unfold add, overflowing_add; cbn [data]. consts.
  break_flag; break_lt; cbn [data].
  - exists 2. split; [lia | solve_wrap].
  - exists 1. split; [lia | solve_wrap].
  - exfalso. revert H0. solve_wrap.
  - exists 0. split; [lia | solve_wrap].
Qed.

Lemma sub_multiple (a b : GoldilocksField) :
  is_u64 (data a) -> is_u64 (data b) ->
  exists j, 0 <= j <= 2 /\ data (sub a b) = data a - data b + j * ORDER.
Proof.
  destruct a as [a], b as [b]; cbn [data]; intros Ha Hb.
  unfold sub, overflowing_sub; cbn [data]. consts.
  break_flag; break_lt; cbn [data].
  - exists 2. split; [lia | solve_wrap].
  - exists 1. split; [lia | solve_wrap].
  - exfalso. revert H0. solve_wrap.
  - exists 0. split; [lia | solve_wrap].
Qed.

(** X2: on 64-bit operands [operator+] never fails its assertion, and the
    word it stores is a 64-bit value equal to [a + b - j * p] for some
    [j] in 0..2. *)
Theorem add_never_asserts (a b : GoldilocksField) :
  is_u64 (data a) -> is_u64 (data b) ->
  exists r j,
    add_checked a b = Ok r /\ is_u64 (data r) /\
    0 <= j <= 2 /\ data r = data a + data b - j * ORDER.
Proof.
  intros Ha Hb.
  destruct (add_multiple a b Ha Hb) as (j & Hj & E).
  exists (add a b), j. split; [apply add_checked_ok; assumption|].
  split; [apply add_spec; assumption|]. split; assumption.
Qed.

Lemma add_never_asserts_witness :
  is_u64 (data (mkGF (2 ^ 64 - 1))) /\ is_u64 (data (mkGF (2 ^ 64 - 1))) /\
  exists r j,
    add_checked (mkGF (2 ^ 64 - 1)) (mkGF (2 ^ 64 - 1)) = Ok r /\ is_u64 (data r) /\
    0 <= j <= 2 /\
    data r = data (mkGF (2 ^ 64 - 1)) + data (mkGF (2 ^ 64 - 1)) - j * ORDER.
Proof.
  assert (H1 : is_u64 (data (mkGF (2 ^ 64 - 1)))) by (unfold is_u64; cbn; lia).
  split; [exact H1|]. split; [exact H1|].
  exact (add_never_asserts (mkGF (2 ^ 64 - 1)) (mkGF (2 ^ 64 - 1)) H1 H1).
Defined.

(** X3: on 64-bit operands the binary [operator-] never fails its
    assertion, and the word it stores is a 64-bit value equal to
    [a - b + j * p] for some [j] in 0..2. *)
Theorem sub_never_asserts (a b : GoldilocksField) :
  is_u64 (data a) -> is_u64 (data b) ->
  exists r j,
    sub_checked a b = Ok r /\ is_u64 (data r) /\
    0 <= j <= 2 /\ data r = data a - data b + j * ORDER.
Proof.
  intros Ha Hb.
  destruct (sub_multiple a b Ha Hb) as (j & Hj & E).
  exists (sub a b), j. split; [apply sub_checked_ok; assumption|].
  split; [apply sub_spec; assumption|]. split; assumption.
Qed.

Lemma sub_never_asserts_witness :
  is_u64 (data (mkGF 0)) /\ is_u64 (data (mkGF (2 ^ 64 - 1))) /\
  exists r j,
    sub_checked (mkGF 0) (mkGF (2 ^ 64 - 1)) = Ok r /\ is_u64 (data r) /\
    0 <= j <= 2 /\
    data r = data (mkGF 0) - data (mkGF (2 ^ 64 - 1)) + j * ORDER.
Proof.
  assert (H1 : is_u64 (data (mkGF 0))) by (unfold is_u64; cbn; lia).
  assert (H2 : is_u64 (data (mkGF (2 ^ 64 - 1)))) by (unfold is_u64; cbn; lia).
  split; [exact H1|]. split; [exact H2|].
  exact (sub_never_asserts (mkGF 0) (mkGF (2 ^ 64 - 1)) H1 H2).
Defined.

(** *** Multiplication and powers *)

(** X4: on 64-bit operands [operator*] passes to [reduce128] exactly the
    high and low halves of the 128-bit product [a * b], and returns a 64-bit
    word congruent to [a * b] modulo [p]. *)
Theorem mul_exact_product (a b : GoldilocksField) :
  is_u64 (data a) -> is_u64 (data b) ->
  mul a b = reduce128 ((data a * data b) / 2 ^ 64) ((data a * data b) mod 2 ^ 64) /\
  is_u64 (data (mul a b)) /\ data (mul a b) ~= data a * data b.
Proof.
  intros Ha Hb. split; [apply mul_as_reduce128; assumption|].
  exact (mul_spec a b Ha Hb).
Qed.

Lemma mul_exact_product_witness :
  is_u64 (data (mkGF (2 ^ 64 - 1))) /\ is_u64 (data (mkGF (2 ^ 64 - 2))) /\
  mul (mkGF (2 ^ 64 - 1)) (mkGF (2 ^ 64 - 2))
  = reduce128 ((data (mkGF (2 ^ 64 - 1)) * data (mkGF (2 ^ 64 - 2))) / 2 ^ 64)
              ((data (mkGF (2 ^ 64 - 1)) * data (mkGF (2 ^ 64 - 2))) mod 2 ^ 64) /\
  is_u64 (data (mul (mkGF (2 ^ 64 - 1)) (mkGF (2 ^ 64 - 2)))) /\
  data (mul (mkGF (2 ^ 64 - 1)) (mkGF (2 ^ 64 - 2)))
  ~= data (mkGF (2 ^ 64 - 1)) * data (mkGF (2 ^ 64 - 2)).
Proof.
  assert (H1 : is_u64 (data (mkGF (2 ^ 64 - 1)))) by (unfold is_u64; cbn; lia).
  assert (H2 : is_u64 (data (mkGF (2 ^ 64 - 2)))) by (unfold is_u64; cbn; lia).
  split; [exact H1|]. split; [exact H2|].
  exact (mul_exact_product (mkGF (2 ^ 64 - 1)) (mkGF (2 ^ 64 - 2)) H1 H2).
Defined.

Lemma congr_pow (a b e : Z) : a ~= b -> a ^ e ~= b ^ e.
Proof.
  intros H. destruct (Z.le_gt_cases 0 e) as [He | He].
  - revert e He. apply natlike_ind.
    + reflexivity.
    + intros e He IH. rewrite !Z.pow_succ_r by assumption.
      apply congr_mul; assumption.
  - rewrite !Z.pow_neg_r by lia. reflexivity.
Qed.

Lemma square_spec (x : GoldilocksField) :
  is_u64 (data x) ->
  is_u64 (data (square x)) /\ data (square x) ~= data x ^ 2.
Proof.
  intros Hx. unfold square. destruct (mul_spec x x Hx Hx) as [U C].
  split; [exact U|]. unfold congr. rewrite C. f_equal. lia.
Qed.

Lemma bit_of_shift (power j : Z) :
  0 <= power -> 0 <= j ->
  Z.land (Z.shiftr power j) 1 = (power / 2 ^ j) mod 2.
Proof.
  intros Hp Hj. rewrite Z.shiftr_div_pow2 by assumption.
  change 1 with (Z.ones 1). rewrite Z.land_ones by lia. reflexivity.
Qed.

Lemma low_bits_step (q : Z) (n : nat) :
  0 <= q ->
  q mod 2 ^ Z.of_nat (S n) = q mod 2 + 2 * ((q / 2) mod 2 ^ Z.of_nat n).
Proof.
  intros Hq. rewrite Nat2Z.inj_succ, Z.pow_succ_r by lia.
  assert (0 < 2 ^ Z.of_nat n) by (apply Z.pow_pos_nonneg; lia).
  rewrite Z.rem_mul_r by lia. lia.
Qed.

Lemma exp_u64_loop_spec (power : Z) :
  0 <= power ->
  forall (n : nat) (j : Z) (current product : GoldilocksField),
    0 <= j -> is_u64 (data current) -> is_u64 (data product) ->
    is_u64 (data (exp_u64_loop n j power current product)) /\
    data (exp_u64_loop n j power current product)
    ~= data product * data current ^ ((power / 2 ^ j) mod 2 ^ Z.of_nat n).
Proof.
  intros Hp. induction n as [|n IH]; intros j current product Hj Hc Hpr.
  - cbn [exp_u64_loop]. split; [assumption|].
    change (2 ^ Z.of_nat 0) with 1. rewrite Z.mod_1_r, Z.pow_0_r, Z.mul_1_r.
    reflexivity.
  - cbn [exp_u64_loop].
    destruct (square_spec current Hc) as [Us Cs].
    assert (Hq : 0 <= power / 2 ^ j).
    { apply Z.div_pos; [assumption | apply Z.pow_pos_nonneg; lia]. }
    assert (Eq : power / 2 ^ (j + 1) = power / 2 ^ j / 2).
    { rewrite Z.pow_add_r, Z.pow_1_r by lia.
      rewrite Z.div_div by (try apply Z.pow_pos_nonneg; lia). reflexivity. }
    assert (He : 0 <= (power / 2 ^ j / 2) mod 2 ^ Z.of_nat n).
    { apply Z.mod_pos_bound. apply Z.pow_pos_nonneg; lia. }
    rewrite (low_bits_step _ n Hq).
    rewrite bit_of_shift by assumption.
    assert (Hb : (power / 2 ^ j) mod 2 = 0 \/ (power / 2 ^ j) mod 2 = 1)
      by (pose proof (Z.mod_pos_bound (power / 2 ^ j) 2); lia).
    destruct Hb as [Hb | Hb]; rewrite Hb; cbn [Z.eqb negb].
    + destruct (IH (j + 1) (square current) product ltac:(lia) Us Hpr) as [U C].
      split; [exact U|]. rewrite C, Eq.
      rewrite (congr_pow _ _ _ Cs).
      rewrite <- Z.pow_mul_r by lia. rewrite Z.add_0_l. reflexivity.
    + destruct (mul_spec product current Hpr Hc) as [Um Cm].
      destruct (IH (j + 1) (square current) (mul product current) ltac:(lia) Us Um)
        as [U C].
      split; [exact U|]. rewrite C, Eq.
      rewrite (congr_pow _ _ _ Cs).
      rewrite <- Z.pow_mul_r by lia.
      change (data (mul product current) mod ORDER
              = (data product * data current) mod ORDER)
        with (data (mul product current) ~= data product * data current) in Cm.
      rewrite Cm.
      rewrite Z.pow_add_r by lia. rewrite Z.pow_1_r.
      rewrite Z.mul_assoc. reflexivity.
Qed.

Lemma exp_u64_power_spec (x : GoldilocksField) (power : Z) :
  is_u64 (data x) -> 0 <= power < 2 ^ 64 ->
  is_u64 (data (exp_u64 x power)) /\ data (exp_u64 x power) ~= data x ^ power.
Proof.
  intros Hx Hp. unfold exp_u64.
  assert (H1 : is_u64 (data (from_canonical_u64 1))) by (cbn; unfold is_u64; lia).
  destruct (exp_u64_loop_spec power (proj1 Hp) 64 0 x (from_canonical_u64 1)
              (Z.le_refl 0) Hx H1) as [U C].
  split; [exact U|]. rewrite C.
  change (data (from_canonical_u64 1)) with 1.
  rewrite Z.pow_0_r, Z.div_1_r, Z.mul_1_l.
  change (2 ^ Z.of_nat 64) with (2 ^ 64).
  rewrite Z.mod_small by assumption. reflexivity.
Qed.

(** X5: for a 64-bit base [x] and an exponent [power < 2^64], [exp_u64]
    returns a 64-bit word congruent to [x ^ power] modulo [p]. *)
Theorem exp_u64_power (x : GoldilocksField) (power : Z) :
  is_u64 (data x) -> 0 <= power < 2 ^ 64 ->
  is_u64 (data (exp_u64 x power)) /\ data (exp_u64 x power) ~= data x ^ power.
Proof. exact (exp_u64_power_spec x power). Qed.

Lemma exp_u64_power_witness :
  is_u64 (data (mkGF 7)) /\ 0 <= 2 ^ 32 < 2 ^ 64 /\
  is_u64 (data (exp_u64 (mkGF 7) (2 ^ 32))) /\
  data (exp_u64 (mkGF 7) (2 ^ 32)) ~= data (mkGF 7) ^ (2 ^ 32).
Proof.
  assert (H1 : is_u64 (data (mkGF 7))) by (unfold is_u64; cbn; lia).
  assert (H2 : 0 <= 2 ^ 32 < 2 ^ 64) by lia.
  split; [exact H1|]. split; [exact H2|].
  exact (exp_u64_power (mkGF 7) (2 ^ 32) H1 H2).
Defined.

(** *** The S-box *)

Lemma sbox_monomial_spec (x : GoldilocksField) :
  is_u64 (data x) ->
  is_u64 (data (sbox_monomial x)) /\ data (sbox_monomial x) ~= data x ^ 7.
Proof.
  intros Hx. unfold sbox_monomial.
  destruct (square_spec x Hx) as [U2 C2].
  destruct (square_spec (square x) U2) as [U4 C4].
  destruct (mul_spec x (square x) Hx U2) as [U3 C3].
  destruct (mul_spec (mul x (square x)) (square (square x)) U3 U4) as [U7 C7].
  split; [exact U7|].
  change (data (mul (mul x (square x)) (square (square x)))
          ~= data (mul x (square x)) * data (square (square x))) in C7.
  change (data (mul x (square x)) ~= data x * data (square x)) in C3.
  rewrite C7, C3, C4, (congr_pow _ _ 2 C2), C2.
  replace (data x ^ 7) with (data x * data x ^ 2 * (data x ^ 2) ^ 2) by ring.
  reflexivity.
Qed.

(** X6: for every 64-bit [x], [sbox_monomial x] is a 64-bit word congruent
    to [x ^ 7] modulo [p]. *)
Theorem sbox_monomial_seventh_power (x : GoldilocksField) :
  is_u64 (data x) ->
  is_u64 (data (sbox_monomial x)) /\ data (sbox_monomial x) ~= data x ^ 7.
Proof. exact (sbox_monomial_spec x). Qed.

Lemma sbox_monomial_seventh_power_witness :
  is_u64 (data (mkGF (2 ^ 64 - 1))) /\
  is_u64 (data (sbox_monomial (mkGF (2 ^ 64 - 1)))) /\
  data (sbox_monomial (mkGF (2 ^ 64 - 1))) ~= data (mkGF (2 ^ 64 - 1)) ^ 7.
Proof.
  assert (H1 : is_u64 (data (mkGF (2 ^ 64 - 1)))) by (unfold is_u64; cbn; lia).
  split; [exact H1|].
  exact (sbox_monomial_seventh_power (mkGF (2 ^ 64 - 1)) H1).
Defined.

(** *** Derived operations *)

(** X7: on 64-bit operands, [square], [sub_one], [multiply_accumulate] and
    [add_canonical_u64] return 64-bit words congruent modulo [p] to [x^2],
    [x - 1], [acc + x * y] and [acc + rhs]. *)
Theorem derived_operations (acc x y : GoldilocksField) (rhs : Z) :
  is_u64 (data acc) -> is_u64 (data x) -> is_u64 (data y) -> is_u64 rhs ->
  (is_u64 (data (square x)) /\ data (square x) ~= data x ^ 2) /\
  (is_u64 (data (sub_one x)) /\ data (sub_one x) ~= data x - 1) /\
  (is_u64 (data (multiply_accumulate acc x y)) /\
   data (multiply_accumulate acc x y) ~= data acc + data x * data y) /\
  (is_u64 (data (add_canonical_u64 acc rhs)) /\
   data (add_canonical_u64 acc rhs) ~= data acc + rhs).
Proof.
  intros Ha Hx Hy Hr.
  split; [apply square_spec; assumption|].
  split.
  { unfold sub_one. apply (sub_spec x (from_canonical_u64 1) Hx).
    cbn. unfold is_u64. lia. }
  split; [apply multiply_accumulate_spec; assumption|].
  unfold add_canonical_u64. apply (add_spec acc (from_canonical_u64 rhs) Ha Hr).
Qed.

Lemma derived_operations_witness :
  is_u64 (data (mkGF 5)) /\ is_u64 (data (mkGF 0)) /\ is_u64 (data (mkGF ORDER)) /\
  is_u64 (2 ^ 64 - 1) /\
  (is_u64 (data (square (mkGF 0))) /\ data (square (mkGF 0)) ~= data (mkGF 0) ^ 2) /\
  (is_u64 (data (sub_one (mkGF 0))) /\ data (sub_one (mkGF 0)) ~= data (mkGF 0) - 1) /\
  (is_u64 (data (multiply_accumulate (mkGF 5) (mkGF 0) (mkGF ORDER))) /\
   data (multiply_accumulate (mkGF 5) (mkGF 0) (mkGF ORDER))
   ~= data (mkGF 5) + data (mkGF 0) * data (mkGF ORDER)) /\
  (is_u64 (data (add_canonical_u64 (mkGF 5) (2 ^ 64 - 1))) /\
   data (add_canonical_u64 (mkGF 5) (2 ^ 64 - 1)) ~= data (mkGF 5) + (2 ^ 64 - 1)).
Proof.
  assert (H1 : is_u64 (data (mkGF 5))) by (unfold is_u64; cbn; lia).
  assert (H2 : is_u64 (data (mkGF 0))) by (unfold is_u64; cbn; lia).
  assert (H3 : is_u64 (data (mkGF ORDER))) by (unfold is_u64, ORDER; cbn; lia).
  assert (H4 : is_u64 (2 ^ 64 - 1)) by (unfold is_u64; lia).
  split; [exact H1|]. split; [exact H2|]. split; [exact H3|]. split; [exact H4|].
  exact (derived_operations (mkGF 5) (mkGF 0) (mkGF ORDER) (2 ^ 64 - 1) H1 H2 H3 H4).
Defined.

(** *** Equality of stored words *)

(** X8: [operator==] answers true only on operands congruent modulo [p],
    and on canonical operands (stored words below [p]) it answers true
    exactly when they are congruent. *)
Theorem eqb_on_canonical_words (x y : GoldilocksField) :
  (eqb x y = true -> data x ~= data y) /\
  (0 <= data x < ORDER -> 0 <= data y < ORDER ->
   (eqb x y = true <-> data x ~= data y)).
Proof.
  unfold eqb. split.
  - intros E. apply Z.eqb_eq in E. rewrite E. reflexivity.
  - intros Hx Hy. split.
    + intros E. apply Z.eqb_eq in E. rewrite E. reflexivity.
    + unfold congr. rewrite !Z.mod_small by assumption.
      intros E. apply Z.eqb_eq. symmetry. exact E.
Qed.

(** *** Wide words *)

(** X9: [from_noncanonical_u128 n] is a 64-bit word congruent to [n] for
    every [n < 2^128], and [from_noncanonical_u96 n_lo n_hi] a 64-bit word
    congruent to [n_hi * 2^64 + n_lo] for a 64-bit [n_lo] and a 32-bit
    [n_hi]. *)
Theorem from_noncanonical_congruent (n n_lo n_hi : Z) :
  is_u128 n -> is_u64 n_lo -> is_u32 n_hi ->
  (is_u64 (data (from_noncanonical_u128 n)) /\ data (from_noncanonical_u128 n) ~= n) /\
  (is_u64 (data (from_noncanonical_u96 n_lo n_hi)) /\
   data (from_noncanonical_u96 n_lo n_hi) ~= n_hi * 2 ^ 64 + n_lo).
Proof.
  intros Hn Hlo Hhi. split.
  - apply from_noncanonical_u128_spec; assumption.
  - apply from_noncanonical_u96_spec; assumption.
Qed.

Lemma from_noncanonical_congruent_witness :
  is_u128 (2 ^ 128 - 1) /\ is_u64 (2 ^ 64 - 1) /\ is_u32 (2 ^ 32 - 1) /\
  (is_u64 (data (from_noncanonical_u128 (2 ^ 128 - 1))) /\
   data (from_noncanonical_u128 (2 ^ 128 - 1)) ~= 2 ^ 128 - 1) /\
  (is_u64 (data (from_noncanonical_u96 (2 ^ 64 - 1) (2 ^ 32 - 1))) /\
   data (from_noncanonical_u96 (2 ^ 64 - 1) (2 ^ 32 - 1))
   ~= (2 ^ 32 - 1) * 2 ^ 64 + (2 ^ 64 - 1)).
Proof.
  assert (H1 : is_u128 (2 ^ 128 - 1)) by (unfold is_u128; lia).
  assert (H2 : is_u64 (2 ^ 64 - 1)) by (unfold is_u64; lia).
  assert (H3 : is_u32 (2 ^ 32 - 1)) by (unfold is_u32; lia).
  split; [exact H1|]. split; [exact H2|]. split; [exact H3|].
  exact (from_noncanonical_congruent (2 ^ 128 - 1) (2 ^ 64 - 1) (2 ^ 32 - 1) H1 H2 H3).
Defined.

(** *** Powers of two and their inverses *)

(** X10: on a nonzero 64-bit [n], 64 iterations are enough for
    [trailing_zeros], which returns [t < 64] with [n = (n >> t) * 2^t] and
    [n >> t] odd. *)
Theorem trailing_zeros_counts (fuel : nat) (n : Z) :
  (64 <= fuel)%nat -> 0 < n < 2 ^ 64 ->
  exists t, trailing_zeros fuel n 0 = Ok t /\ 0 <= t < 64 /\
            n = Z.shiftr n t * 2 ^ t /\ Z.shiftr n t mod 2 = 1.
Proof.
  intros Hf Hn.
  destruct (trailing_zeros_u64 fuel n Hf Hn) as (t & E & Ht & En & Odd & _).
  exists t. split; [exact E|]. split; [exact Ht|]. split; assumption.
Qed.

Lemma trailing_zeros_counts_witness :
  (64 <= 64)%nat /\ 0 < 2 ^ 63 < 2 ^ 64 /\
  exists t, trailing_zeros 64 (2 ^ 63) 0 = Ok t /\ 0 <= t < 64 /\
            2 ^ 63 = Z.shiftr (2 ^ 63) t * 2 ^ t /\ Z.shiftr (2 ^ 63) t mod 2 = 1.
Proof.
  assert (H1 : (64 <= 64)%nat) by lia.
  assert (H2 : 0 < 2 ^ 63 < 2 ^ 64) by lia.
  split; [exact H1|]. split; [exact H2|].
  exact (trailing_zeros_counts 64 (2 ^ 63) H1 H2).
Defined.

(** X11: for every [exp < 2^64], [inverse_2exp exp] is a 64-bit word with
    [inverse_2exp exp * 2^exp] congruent to 1 modulo [p]. *)
Theorem inverse_2exp_inverts (exp : Z) :
  0 <= exp < 2 ^ 64 ->
  is_u64 (data (inverse_2exp exp)) /\ data (inverse_2exp exp) * 2 ^ exp ~= 1.
Proof. exact (inverse_2exp_spec exp). Qed.

Lemma inverse_2exp_inverts_witness :
  0 <= 100 < 2 ^ 64 /\
  is_u64 (data (inverse_2exp 100)) /\ data (inverse_2exp 100) * 2 ^ 100 ~= 1.
Proof.
  assert (H1 : 0 <= 100 < 2 ^ 64) by lia.
  split; [exact H1|].
  exact (inverse_2exp_inverts 100 H1).
Defined.

(** *** The assertion and the negating exit of [inverse] *)

(** X12: whatever the input word and the fuel, [inverse] does not fail its
    assertion [assert(c == 1)]. *)
Theorem inverse_assertion_unreachable (fuel : nat) (x : GoldilocksField) :
  inverse fuel x <> AssertFail.
Proof. exact (inverse_never_asserts fuel x). Qed.

Lemma odd_pow2_lt (o1 o2 t1 t2 : Z) :
  0 <= t1 < t2 -> o1 mod 2 = 1 -> o1 * 2 ^ t1 = o2 * 2 ^ t2 -> False.
Proof.
  intros Ht O1 E.
  replace t2 with (t1 + 1 + (t2 - t1 - 1)) in E by lia.
  rewrite !Z.pow_add_r in E by lia. rewrite Z.pow_1_r in E.
  assert (P : 0 < 2 ^ t1) by (apply Z.pow_pos_nonneg; lia).
  assert (E' : o1 = 2 * (o2 * 2 ^ (t2 - t1 - 1))) by nia.
  rewrite E' in O1. rewrite Z.mul_comm, Z.mod_mul in O1; lia.
Qed.

Lemma odd_pow2_unique (o1 o2 t1 t2 : Z) :
  0 <= t1 -> 0 <= t2 -> o1 mod 2 = 1 -> o2 mod 2 = 1 ->
  o1 * 2 ^ t1 = o2 * 2 ^ t2 -> t1 = t2 /\ o1 = o2.
Proof.
  intros H1 H2 O1 O2 E.
  destruct (Z.lt_total t1 t2) as [L | [-> | L]].
  - exfalso. apply (odd_pow2_lt o1 o2 t1 t2); try assumption. lia.
  - split; [reflexivity|].
    assert (P : 0 < 2 ^ t2) by (apply Z.pow_pos_nonneg; lia). nia.
  - exfalso. apply (odd_pow2_lt o2 o1 t2 t1); try assumption; [lia|].
    symmetry. exact E.
Qed.

Lemma trailing_zeros_exact (fuel : nat) (o t : Z) :
  (64 <= fuel)%nat -> 0 <= t -> o mod 2 = 1 -> 0 < o * 2 ^ t < 2 ^ 64 ->
  trailing_zeros fuel (o * 2 ^ t) 0 = Ok t /\ Z.shiftr (o * 2 ^ t) t = o.
Proof.
  intros Hf Ht Ho Hn.
  destruct (trailing_zeros_u64 fuel _ Hf Hn) as (t' & E & Ht' & En & Odd & _).
  destruct (odd_pow2_unique o _ t t' Ht (proj1 Ht') Ho Odd En) as [-> Eo].
  split; [exact E | symmetry; exact Eo].
Qed.

Lemma pow2_lt_64 (m : Z) : 0 <= m -> 2 ^ m < 2 ^ 64 -> m < 64.
Proof.
  intros Hm H. apply (Z.pow_lt_mono_r_iff 2); lia.
Qed.

Lemma negating_exit_value (fuel : nat) (m t : Z) :
  (64 <= fuel)%nat -> 2 <= m -> 0 <= t ->
  0 < (ORDER - 2 ^ m) * 2 ^ t < 2 ^ 64 ->
  m + t < 128 /\
  inverse fuel (mkGF ((ORDER - 2 ^ m) * 2 ^ t)) = Ok (neg (inverse_2exp (t + m))).
Proof.
  intros Hf Hm Ht Ha.
  assert (Pt : 0 < 2 ^ t) by (apply Z.pow_pos_nonneg; lia).
  assert (Pm : 0 < 2 ^ m) by (apply Z.pow_pos_nonneg; lia).
  assert (HF : 0 < ORDER - 2 ^ m) by nia.
  assert (Hm64 : m < 64).
  { apply pow2_lt_64; [lia|]. rewrite ORDER_val in HF. lia. }
  assert (HF63 : 1 < ORDER - 2 ^ m).
  { assert (2 ^ m <= 2 ^ 63) by (apply Z.pow_le_mono_r; lia).
    rewrite ORDER_val. lia. }
  assert (E4 : 2 ^ m = 4 * 2 ^ (m - 2)).
  { replace m with (2 + (m - 2)) at 1 by lia. rewrite Z.pow_add_r by lia. reflexivity. }
  assert (P2 : 0 < 2 ^ (m - 2)) by (apply Z.pow_pos_nonneg; lia).
  assert (Fodd : (ORDER - 2 ^ m) mod 2 = 1).
  { rewrite E4, ORDER_val. Z.div_mod_to_equations. lia. }
  assert (Ht64 : t < 64).
  { apply pow2_lt_64; [lia|]. nia. }
  split; [lia|].
  destruct (trailing_zeros_exact fuel _ t Hf Ht Fodd Ha) as [Etz Esh].
  unfold inverse, inverse_gcd. cbn [data].
  rewrite Etz. cbn [bind].
  assert (Wt : wrap32 t = t) by (unfold wrap32; apply Z.mod_small; lia).
  rewrite Wt, Esh.
  destruct (Z.eqb_spec (ORDER - 2 ^ m) 1) as [E1 | _]; [lia|].
  unfold safe_iteration, swap_if_less. cbn [st_f st_g st_c st_d st_k].
  destruct (Z.ltb_spec (ORDER - 2 ^ m) ORDER) as [_ | L]; [|lia].
  cbn [st_f st_g st_c st_d st_k].
  rewrite !land_3.
  assert (M4 : ORDER mod 4 = (ORDER - 2 ^ m) mod 4).
  { rewrite E4, ORDER_val. Z.div_mod_to_equations. lia. }
  rewrite M4, Z.eqb_refl.
  assert (Wf : wrap64 (ORDER - (ORDER - 2 ^ m)) = 1 * 2 ^ m).
  { unfold wrap64. rewrite Z.mod_small; [lia|].
    assert (2 ^ m < 2 ^ 64) by (apply Z.pow_lt_mono_r; lia). lia. }
  rewrite Wf.
  change (i128_checked (0 - 1)) with (Ok (-1)). cbn [bind].
  assert (H2m : 0 < 1 * 2 ^ m < 2 ^ 64).
  { assert (2 ^ m < 2 ^ 64) by (apply Z.pow_lt_mono_r; lia). lia. }
  destruct (trailing_zeros_exact fuel 1 m Hf ltac:(lia) eq_refl H2m) as [Etz2 Esh2].
  rewrite Etz2. cbn [bind]. rewrite Esh2.
  assert (Eshl : i128_shl 1 m = Ok (1 * 2 ^ m)).
  { unfold i128_shl, i128_checked, I128_MIN, I128_MAX.
    assert (2 ^ m <= 2 ^ 63) by (apply Z.pow_le_mono_r; lia).
    replace ((0 <=? m) && (m <? 128)) with true
      by (symmetry; apply andb_true_iff; split; [apply Z.leb_le | apply Z.ltb_lt]; lia).
    replace ((- 2 ^ 127 <=? 1 * 2 ^ m) && (1 * 2 ^ m <=? 2 ^ 127 - 1)) with true
      by (symmetry; apply andb_true_iff; split; apply Z.leb_le; lia).
    reflexivity. }
  rewrite Eshl. cbn [bind st_f st_c st_k].
  rewrite Z.eqb_refl. cbn [bind].
  assert (Wk : wrap32 (t + m) = t + m) by (unfold wrap32; apply Z.mod_small; lia).
  rewrite Wk. reflexivity.
Qed.

Lemma two_pow_96 : 2 ^ 96 ~= -1.
Proof. reflexivity. Qed.

Lemma one_not_zero : ~ (1 ~= 0).
Proof. unfold congr. discriminate. Qed.

Lemma negated_inverse_wrong (a k i : Z) :
  0 <= k -> a ~= - 2 ^ k -> i * 2 ^ k ~= 1 -> ~ (a * (2 ^ 64 - i) ~= 1).
Proof.
  intros Hk Ha Hi Hp.
  assert (Hu : a * i ~= -1).
  { rewrite Ha. replace (- 2 ^ k * i) with (- (i * 2 ^ k)) by ring.
    rewrite Hi. reflexivity. }
  assert (X : a * (2 ^ 64 - i) * (i * 2 ^ 32) ~= 1 * (i * 2 ^ 32))
    by (rewrite Hp; reflexivity).
  replace (a * (2 ^ 64 - i) * (i * 2 ^ 32))
    with (a * i * 2 ^ 96 - a * i * (i * 2 ^ 32)) in X by ring.
  rewrite Hu, two_pow_96 in X.
  assert (Y : -1 * -1 - -1 * (i * 2 ^ 32) - i * 2 ^ 32
              ~= 1 * (i * 2 ^ 32) - i * 2 ^ 32)
    by (rewrite X; reflexivity).
  replace (-1 * -1 - -1 * (i * 2 ^ 32) - i * 2 ^ 32) with 1 in Y by ring.
  replace (1 * (i * 2 ^ 32) - i * 2 ^ 32) with 0 in Y by ring.
  exact (one_not_zero Y).
Qed.

(** X13: on every nonzero 64-bit input [(p - 2^m) * 2^t] with [m >= 2],
    which is not congruent to 0 modulo [p], [inverse] returns a 64-bit word
    [b] with [a * b] not congruent to 1 modulo [p]. *)
Theorem inverse_wrong_on_negating_inputs (fuel : nat) (a : Z) :
  (64 <= fuel)%nat -> 0 < a < 2 ^ 64 -> negating_input a ->
  a mod ORDER <> 0 /\
  exists b, inverse fuel (mkGF a) = Ok b /\ is_u64 (data b) /\
            ~ (a * data b ~= 1).
Proof.
  intros Hf Ha (m & t & Hm & Ht & E). subst a.
  destruct (negating_exit_value fuel m t Hf Hm Ht Ha) as [Hk Einv].
  assert (Hk64 : 0 <= t + m < 2 ^ 64) by lia.
  destruct (inverse_2exp_spec (t + m) Hk64) as [Ui Ci].
  assert (Pt : 0 < 2 ^ t) by (apply Z.pow_pos_nonneg; lia).
  assert (Cong : (ORDER - 2 ^ m) * 2 ^ t ~= - 2 ^ (t + m)).
  { unfold congr. apply (mod_eq_shift _ _ (2 ^ t)).
    rewrite Z.pow_add_r by lia. ring. }
  assert (Inz : data (inverse_2exp (t + m)) <> 0).
  { intros Z0. rewrite Z0, Z.mul_0_l in Ci. symmetry in Ci.
    exact (one_not_zero Ci). }
  assert (Eb : data (neg (inverse_2exp (t + m)))
               = 2 ^ 64 - data (inverse_2exp (t + m))).
  { unfold neg. cbn [data]. unfold wrap64. unfold is_u64 in Ui.
    symmetry. apply Z.mod_unique with (q := -1); lia. }
  split.
  - intros Z0.
    assert (C0 : - 2 ^ (t + m) ~= 0).
    { rewrite <- Cong. unfold congr. rewrite Z0. reflexivity. }
    assert (C1 : - (data (inverse_2exp (t + m)) * 2 ^ (t + m)) ~= -1)
      by (rewrite Ci; reflexivity).
    replace (- (data (inverse_2exp (t + m)) * 2 ^ (t + m)))
      with (data (inverse_2exp (t + m)) * - 2 ^ (t + m)) in C1 by ring.
    rewrite C0, Z.mul_0_r in C1.
    assert (C2 : 0 + 1 ~= -1 + 1) by (rewrite C1; reflexivity).
    exact (one_not_zero C2).
  - exists (neg (inverse_2exp (t + m))). split; [exact Einv|]. split.
    + rewrite Eb. unfold is_u64 in *. lia.
    + rewrite Eb. apply (negated_inverse_wrong _ (t + m)); [lia | exact Cong | exact Ci].
Qed.

Lemma inverse_wrong_on_negating_inputs_witness :
  (64 <= 64)%nat /\ 0 < ORDER - 4 < 2 ^ 64 /\ negating_input (ORDER - 4) /\
  (ORDER - 4) mod ORDER <> 0 /\
  exists b, inverse 64 (mkGF (ORDER - 4)) = Ok b /\ is_u64 (data b) /\
            ~ ((ORDER - 4) * data b ~= 1).
Proof.
  assert (H1 : (64 <= 64)%nat) by lia.
  assert (H2 : 0 < ORDER - 4 < 2 ^ 64) by (unfold ORDER; lia).
  assert (H3 : negating_input (ORDER - 4)).
  { exists 2, 0. split; [lia|]. split; [lia|]. reflexivity. }
  split; [exact H1|]. split; [exact H2|]. split; [exact H3|].
  exact (inverse_wrong_on_negating_inputs 64 (ORDER - 4) H1 H2 H3).
Defined.

(** ** Free functions, views and the constraint consumer *)

(** *** [ceil_div_usize] *)

(** X14: for a 64-bit [a] and [b > 0] with [a + b <= 2^64],
    [ceil_div_usize a b] is the [q] with [(q - 1) * b < a <= q * b]. *)
Theorem ceil_div_usize_ceiling (a b : Z) :
  is_u64 a -> 0 < b < 2 ^ 64 -> a + b <= 2 ^ 64 ->
  exists q, ceil_div_usize a b = Ok q /\ (q - 1) * b < a <= q * b.
Proof.
  intros Ha Hb Hs. unfold ceil_div_usize.
  destruct (Z.eqb_spec b 0) as [E | _]; [lia|].
  assert (W : wrap64 (wrap64 (a + b) - 1) = a + b - 1).
  { consts. solve_wrap. }
  rewrite W. eexists. split; [reflexivity|].
  pose proof (Z.div_mod (a + b - 1) b ltac:(lia)) as D.
  pose proof (Z.mod_pos_bound (a + b - 1) b ltac:(lia)) as M.
  nia.
Qed.

Lemma ceil_div_usize_ceiling_witness :
  is_u64 7 /\ 0 < 2 < 2 ^ 64 /\ 7 + 2 <= 2 ^ 64 /\
  exists q, ceil_div_usize 7 2 = Ok q /\ (q - 1) * 2 < 7 <= q * 2.
Proof.
  assert (H1 : is_u64 7) by (unfold is_u64; lia).
  assert (H2 : 0 < 2 < 2 ^ 64) by lia.
  assert (H3 : 7 + 2 <= 2 ^ 64) by lia.
  split; [exact H1|]. split; [exact H2|]. split; [exact H3|].
  exact (ceil_div_usize_ceiling 7 2 H1 H2 H3).
Defined.

(** X15: for 64-bit [a] and [b] with [a + b > 2^64] the sum wraps, and
    [ceil_div_usize a b] is a [q] with [q * b < a]. *)
Theorem ceil_div_usize_wraps (a b : Z) :
  is_u64 a -> is_u64 b -> 2 ^ 64 < a + b ->
  exists q, ceil_div_usize a b = Ok q /\ q * b < a.
Proof.
  intros Ha Hb Hs. unfold ceil_div_usize.
  destruct (Z.eqb_spec b 0) as [E | _]; [unfold is_u64 in *; lia|].
  assert (W : wrap64 (wrap64 (a + b) - 1) = a + b - 2 ^ 64 - 1).
  { consts. solve_wrap. }
  rewrite W. eexists. split; [reflexivity|].
  unfold is_u64 in *.
  pose proof (Z.div_mod (a + b - 2 ^ 64 - 1) b ltac:(lia)) as D.
  pose proof (Z.mod_pos_bound (a + b - 2 ^ 64 - 1) b ltac:(lia)) as M.
  nia.
Qed.

Lemma ceil_div_usize_wraps_witness :
  is_u64 (2 ^ 64 - 1) /\ is_u64 2 /\ 2 ^ 64 < 2 ^ 64 - 1 + 2 /\
  exists q, ceil_div_usize (2 ^ 64 - 1) 2 = Ok q /\ q * 2 < 2 ^ 64 - 1.
Proof.
  assert (H1 : is_u64 (2 ^ 64 - 1)) by (unfold is_u64; lia).
  assert (H2 : is_u64 2) by (unfold is_u64; lia).
  assert (H3 : 2 ^ 64 < 2 ^ 64 - 1 + 2) by lia.
  split; [exact H1|]. split; [exact H2|]. split; [exact H3|].
  exact (ceil_div_usize_wraps (2 ^ 64 - 1) 2 H1 H2 H3).
Defined.

(** *** [reduce_with_powers] *)

Lemma reduce_with_powers_loop_spec (f : Z -> GoldilocksField) (alpha : GoldilocksField) :
  is_u64 (data alpha) ->
  forall (n : nat) (sum : GoldilocksField),
    (forall i, 0 <= i < Z.of_nat n -> is_u64 (data (f i))) ->
    is_u64 (data sum) ->
    exists r, reduce_with_powers_loop n f alpha sum = Ok r /\ is_u64 (data r) /\
              data r ~= data sum * data alpha ^ Z.of_nat n
                        + poly_eval (fun i => data (f i)) (data alpha) n.
Proof.
  intros Ha. induction n as [|n IH]; intros sum Hf Hs.
  - exists sum. cbn [reduce_with_powers_loop poly_eval].
    split; [reflexivity|]. split; [assumption|].
    change (Z.of_nat 0) with 0. rewrite Z.pow_0_r, Z.mul_1_r, Z.add_0_r. reflexivity.
  - cbn [reduce_with_powers_loop poly_eval].
    destruct (mul_spec sum alpha Hs Ha) as [Um Cm].
    assert (Hfn : is_u64 (data (f (Z.of_nat n)))) by (apply Hf; lia).
    rewrite (add_checked_ok _ _ Um Hfn). cbn [bind].
    destruct (add_spec _ _ Um Hfn) as [Ua Ca].
    destruct (IH (add (mul sum alpha) (f (Z.of_nat n)))) as (r & E & Ur & Cr);
      [intros i Hi; apply Hf; lia | exact Ua |].
    exists r. split; [exact E|]. split; [exact Ur|].
    change (data (add (mul sum alpha) (f (Z.of_nat n)))
            ~= data (mul sum alpha) + data (f (Z.of_nat n))) in Ca.
    change (data (mul sum alpha) ~= data sum * data alpha) in Cm.
    rewrite Cr, Ca, Cm.
    rewrite Nat2Z.inj_succ, Z.pow_succ_r by lia.
    match goal with
    | |- ?l ~= ?r => replace l with r by ring
    end.
    reflexivity.
Qed.

Lemma to_int_pred (s : Z) :
  0 <= s <= 2 ^ 31 -> to_int (wrap64 (s - 1)) + 1 = s.
Proof.
  intros Hs. unfold to_int. consts.
  change (2 ^ 31) with 2147483648 in *.
  destruct (Z.ltb_spec ((s - 1) mod 18446744073709551616 mod 4294967296) 2147483648);
    solve_wrap.
Qed.

(** X16: for [range.second <= 2^31], 64-bit values of [f] and a 64-bit
    [alpha], the template [reduce_with_powers] fails no assertion and returns
    a 64-bit word congruent modulo [p] to [sum_{i < second} f(i) * alpha^i],
    whatever [range.first] is. *)
Theorem reduce_with_powers_horner (range : Range) (f : Z -> GoldilocksField)
    (alpha : GoldilocksField) :
  is_u64 (data alpha) ->
  (forall i, 0 <= i < second range -> is_u64 (data (f i))) ->
  0 <= second range <= 2 ^ 31 ->
  exists r, reduce_with_powers range f alpha = Ok r /\ is_u64 (data r) /\
            data r ~= poly_eval (fun i => data (f i)) (data alpha)
                        (Z.to_nat (second range)).
Proof.
  intros Ha Hf Hs. unfold reduce_with_powers.
  rewrite (to_int_pred _ Hs).
  destruct (reduce_with_powers_loop_spec f alpha Ha (Z.to_nat (second range)) (mkGF 0))
    as (r & E & Ur & Cr).
  - intros i Hi. apply Hf. lia.
  - cbn. unfold is_u64. lia.
  - exists r. split; [exact E|]. split; [exact Ur|].
    rewrite Cr. cbn [data]. rewrite Z.mul_0_l, Z.add_0_l. reflexivity.
Qed.

Lemma reduce_with_powers_horner_witness :
  is_u64 (data (mkGF 3)) /\
  (forall i, 0 <= i < second (mkRange 5 2) -> is_u64 (data (mkGF (i + 10)))) /\
  0 <= second (mkRange 5 2) <= 2 ^ 31 /\
  exists r, reduce_with_powers (mkRange 5 2) (fun i => mkGF (i + 10)) (mkGF 3) = Ok r /\
            is_u64 (data r) /\
            data r ~= poly_eval (fun i => data (mkGF (i + 10))) (data (mkGF 3))
                        (Z.to_nat (second (mkRange 5 2))).
Proof.
  assert (H1 : is_u64 (data (mkGF 3))) by (unfold is_u64; cbn; lia).
  assert (H2 : forall i, 0 <= i < second (mkRange 5 2) -> is_u64 (data (mkGF (i + 10))))
    by (cbn; unfold is_u64; intros; lia).
  assert (H3 : 0 <= second (mkRange 5 2) <= 2 ^ 31) by (cbn; lia).
  split; [exact H1|]. split; [exact H2|]. split; [exact H3|].
  exact (reduce_with_powers_horner (mkRange 5 2) (fun i => mkGF (i + 10)) (mkGF 3)
           H1 H2 H3).
Defined.

Lemma to_int_len (l : Z) :
  - 2 ^ 31 < l < 2 ^ 31 ->
  Z.to_nat (to_int (wrap64 (wrap64 l - 1)) + 1) = Z.to_nat l.
Proof.
  intros Hl.
  destruct (Z.le_gt_cases 0 l) as [P | N].
  - assert (W : wrap64 l = l) by (consts; apply Z.mod_small; lia).
    rewrite W, to_int_pred by lia. reflexivity.
  - assert (T : to_int (wrap64 (wrap64 l - 1)) = l - 1).
    { unfold to_int. consts. change (2 ^ 31) with 2147483648 in *.
      destruct (Z.ltb_spec
                  ((l mod 18446744073709551616 - 1) mod 18446744073709551616
                   mod 4294967296) 2147483648); solve_wrap. }
    rewrite T. lia.
Qed.

(** X17: for a view of length [len > INT_MIN] over 64-bit words and a
    64-bit [alpha], [reduce_with_powers] on the view fails no assertion and
    returns a 64-bit word congruent modulo [p] to
    [sum_{i < len} terms[i] * alpha^i]; for [len <= 0] it returns exactly
    [GoldilocksField{0}]. *)
Theorem reduce_with_powers_view_horner (mem : memory) (v : GoldilocksFieldView)
    (alpha : GoldilocksField) :
  is_u64 (data alpha) ->
  (forall i, 0 <= i < len v -> is_u64 (data (mem (ptr v + i)))) ->
  - 2 ^ 31 < len v < 2 ^ 31 ->
  exists r, reduce_with_powers_view mem v alpha = Ok r /\ is_u64 (data r) /\
            data r ~= poly_eval (fun i => data (mem (ptr v + i))) (data alpha)
                        (Z.to_nat (len v)) /\
            (len v <= 0 -> r = mkGF 0).
Proof.
  intros Ha Hf Hl. unfold reduce_with_powers_view, reduce_with_powers.
  cbn [second]. rewrite (to_int_len _ Hl).
  destruct (reduce_with_powers_loop_spec
              (fun i => GoldilocksFieldView.get mem v i) alpha Ha
              (Z.to_nat (len v)) (mkGF 0)) as (r & E & Ur & Cr).
  - intros i Hi. unfold GoldilocksFieldView.get. apply Hf. lia.
  - cbn. unfold is_u64. lia.
  - exists r. split; [exact E|]. split; [exact Ur|]. split.
    + rewrite Cr. cbn [data]. rewrite Z.mul_0_l, Z.add_0_l. reflexivity.
    + intros Hn. assert (N0 : Z.to_nat (len v) = 0%nat) by lia.
      rewrite N0 in E. cbn [reduce_with_powers_loop] in E. congruence.
Qed.

Lemma reduce_with_powers_view_horner_witness :
  is_u64 (data (mkGF 3)) /\
  (forall i, 0 <= i < len (mkView 100 2) ->
             is_u64 (data ((fun a => mkGF (a mod 7)) (ptr (mkView 100 2) + i)))) /\
  - 2 ^ 31 < len (mkView 100 2) < 2 ^ 31 /\
  exists r, reduce_with_powers_view (fun a => mkGF (a mod 7)) (mkView 100 2) (mkGF 3)
            = Ok r /\ is_u64 (data r) /\
            data r ~= poly_eval
                        (fun i => data ((fun a => mkGF (a mod 7)) (ptr (mkView 100 2) + i)))
                        (data (mkGF 3)) (Z.to_nat (len (mkView 100 2))) /\
            (len (mkView 100 2) <= 0 -> r = mkGF 0).
Proof.
  assert (H1 : is_u64 (data (mkGF 3))) by (unfold is_u64; cbn; lia).
  assert (H2 : forall i, 0 <= i < len (mkView 100 2) ->
             is_u64 (data ((fun a => mkGF (a mod 7)) (ptr (mkView 100 2) + i)))).
  { cbn [len ptr data]. unfold is_u64. intros i Hi.
    pose proof (Z.mod_pos_bound (100 + i) 7). lia. }
  assert (H3 : - 2 ^ 31 < len (mkView 100 2) < 2 ^ 31) by (cbn; lia).
  split; [exact H1|]. split; [exact H2|]. split; [exact H3|].
  exact (reduce_with_powers_view_horner (fun a => mkGF (a mod 7)) (mkView 100 2)
           (mkGF 3) H1 H2 H3).
Defined.

(** *** Views *)

Lemma int_checked_Ok (x y : Z) :
  int_checked x = Ok y -> y = x /\ INT_MIN <= x <= INT_MAX.
Proof.
  unfold int_checked.
  destruct (Z.leb_spec INT_MIN x), (Z.leb_spec x INT_MAX); cbn [andb]; intros E;
    try discriminate E.
  injection E as <-. lia.
Qed.

(** X18: the view [(c, d)] of the view [(a, b)] of [v] starts at
    [v.ptr + a + c], has length [d - c] and ends at [v.ptr + a + d], its
    element [i] is element [a + c + i] of [v]; [view(start)] is
    [view(start, len)] and [view(Range{c, d})] is [view(c, d)]. *)
Theorem view_of_view (mem : memory) (v v1 v2 : GoldilocksFieldView) (a b c d : Z) :
  GoldilocksFieldView.view v a b = Ok v1 ->
  GoldilocksFieldView.view v1 c d = Ok v2 ->
  ptr v2 = ptr v + (a + c) /\ len v2 = d - c /\
  GoldilocksFieldView.end_ v2 = ptr v + (a + d) /\
  (forall i, GoldilocksFieldView.get mem v2 i
             = GoldilocksFieldView.get mem v (a + c + i)) /\
  GoldilocksFieldView.view_from v1 c
  = GoldilocksFieldView.view v1 c (len v1) /\
  GoldilocksFieldView.view_range v1 (mkRange c d) = Ok v2.
Proof.
  unfold GoldilocksFieldView.view, GoldilocksFieldView.view_from,
    GoldilocksFieldView.view_range, GoldilocksFieldView.get, GoldilocksFieldView.end_.
  cbn [first second].
  intros E1 E2.
  destruct (int_checked (b - a)) as [l1| | |] eqn:I1; try discriminate E1.
  cbn [bind] in E1. injection E1 as <-.
  destruct (int_checked (d - c)) as [l2| | |] eqn:I2; try discriminate E2.
  cbn [bind] in E2. injection E2 as <-.
  apply int_checked_Ok in I2. destruct I2 as [-> _].
  cbn [ptr len bind].
  split; [lia|]. split; [reflexivity|]. split; [lia|]. split.
  - intros i. f_equal. lia.
  - split; reflexivity.
Qed.

Lemma view_of_view_witness :
  GoldilocksFieldView.view (mkView 1000 50) 10 40 = Ok (mkView 1010 30) /\
  GoldilocksFieldView.view (mkView 1010 30) 5 20 = Ok (mkView 1015 15) /\
  ptr (mkView 1015 15) = ptr (mkView 1000 50) + (10 + 5) /\
  len (mkView 1015 15) = 20 - 5 /\
  GoldilocksFieldView.end_ (mkView 1015 15) = ptr (mkView 1000 50) + (10 + 20) /\
  (forall i, GoldilocksFieldView.get (fun a => mkGF a) (mkView 1015 15) i
             = GoldilocksFieldView.get (fun a => mkGF a) (mkView 1000 50) (10 + 5 + i)) /\
  GoldilocksFieldView.view_from (mkView 1010 30) 5
  = GoldilocksFieldView.view (mkView 1010 30) 5 (len (mkView 1010 30)) /\
  GoldilocksFieldView.view_range (mkView 1010 30) (mkRange 5 20)
  = Ok (mkView 1015 15).
Proof.
  assert (H1 : GoldilocksFieldView.view (mkView 1000 50) 10 40 = Ok (mkView 1010 30))
    by reflexivity.
  assert (H2 : GoldilocksFieldView.view (mkView 1010 30) 5 20 = Ok (mkView 1015 15))
    by reflexivity.
  split; [exact H1|]. split; [exact H2|].
  exact (view_of_view (fun a => mkGF a) (mkView 1000 50) (mkView 1010 30)
           (mkView 1015 15) 10 40 5 20 H1 H2).
Defined.

(** *** [StridedConstraintConsumer] *)

Lemma feed_spec (ts : list GoldilocksField) :
  forall (mem : memory) (c : StridedConstraintConsumer),
    terms (snd (feed ts (mem, c))) = terms c + Z.of_nat (length ts) /\
    (forall i, (i < length ts)%nat ->
               fst (feed ts (mem, c)) (terms c + Z.of_nat i) = nth i ts (mkGF 0)) /\
    (forall a, a < terms c \/ terms c + Z.of_nat (length ts) <= a ->
               fst (feed ts (mem, c)) a = mem a).
Proof.
  induction ts as [|t ts IH]; intros mem c.
  - cbn. split; [lia|]. split; [intros i Hi; lia | reflexivity].
  - set (mem1 := fun a => if a =? terms c then t else mem a).
    set (c1 := mkConsumer (terms c + 1)).
    change (feed (t :: ts) (mem, c)) with (feed ts (mem1, c1)).
    destruct (IH mem1 c1) as (P & W & U).
    change (terms c1) with (terms c + 1) in P, W, U.
    cbn [length]. rewrite Nat2Z.inj_succ.
    split; [etransitivity; [exact P | lia]|]. split.
    + intros [|i] Hi.
      * cbn [nth]. etransitivity; [apply U; lia|]. unfold mem1.
        change (Z.of_nat 0) with 0. rewrite Z.add_0_r, Z.eqb_refl. reflexivity.
      * cbn [nth].
        replace (terms c + Z.of_nat (S i)) with (terms c + 1 + Z.of_nat i) by lia.
        apply W. lia.
    + intros a Ha. etransitivity; [apply U; lia|]. unfold mem1.
      destruct (Z.eqb_spec a (terms c)); [lia | reflexivity].
Qed.

(** X19: successive calls of [one] with the terms [ts] store them in order
    in the cells from [terms] on, advance the pointer by their number, and
    leave every other cell unchanged. *)
Theorem consumer_appends (ts : list GoldilocksField) (mem : memory)
    (c : StridedConstraintConsumer) :
  terms (snd (feed ts (mem, c))) = terms c + Z.of_nat (length ts) /\
  (forall i, (i < length ts)%nat ->
             fst (feed ts (mem, c)) (terms c + Z.of_nat i) = nth i ts (mkGF 0)) /\
  (forall a, a < terms c \/ terms c + Z.of_nat (length ts) <= a ->
             fst (feed ts (mem, c)) a = mem a).
Proof. exact (feed_spec ts mem c). Qed.

(** ** The layers of the permutation *)

(** *** The 160-bit accumulator *)

(** X20: for a 128-bit [lo], a 32-bit [hi] and a 128-bit [y],
    [add_u160_u128] returns a pair in the same ranges that holds
    [(hi * 2^128 + lo + y) mod 2^160]. *)
Theorem add_u160_u128_wraps (lo hi y : Z) :
  is_u128 lo -> is_u32 hi -> is_u128 y ->
  is_u128 (fst (add_u160_u128 (lo, hi) y)) /\
  is_u32 (snd (add_u160_u128 (lo, hi) y)) /\
  u160_value (add_u160_u128 (lo, hi) y) = (u160_value (lo, hi) + y) mod 2 ^ 160.
Proof.
  intros Hlo Hhi Hy. unfold add_u160_u128, u160_value. cbn [fst snd].
  change (2 ^ 160) with 1461501637330902918203684832716283019655932542976.
  consts. break_flag; (split; [solve_wrap|]); (split; [solve_wrap|]).
  - destruct (Z.eq_dec hi 4294967295) as [-> | N].
    + change ((4294967295 + 1) mod 4294967296) with 0.
      apply Z.mod_unique with (q := 1); solve_wrap.
    + rewrite (Z.mod_small (hi + 1)) by lia.
      apply Z.mod_unique with (q := 0); solve_wrap.
  - rewrite Z.add_0_r, (Z.mod_small hi) by lia.
    apply Z.mod_unique with (q := 0); solve_wrap.
Qed.

Lemma add_u160_u128_wraps_witness :
  is_u128 (2 ^ 128 - 1) /\ is_u32 (2 ^ 32 - 1) /\ is_u128 1 /\
  is_u128 (fst (add_u160_u128 (2 ^ 128 - 1, 2 ^ 32 - 1) 1)) /\
  is_u32 (snd (add_u160_u128 (2 ^ 128 - 1, 2 ^ 32 - 1) 1)) /\
  u160_value (add_u160_u128 (2 ^ 128 - 1, 2 ^ 32 - 1) 1)
  = (u160_value (2 ^ 128 - 1, 2 ^ 32 - 1) + 1) mod 2 ^ 160.
Proof.
  assert (H1 : is_u128 (2 ^ 128 - 1)) by (unfold is_u128; lia).
  assert (H2 : is_u32 (2 ^ 32 - 1)) by (unfold is_u32; lia).
  assert (H3 : is_u128 1) by (unfold is_u128; lia).
  split; [exact H1|]. split; [exact H2|]. split; [exact H3|].
  exact (add_u160_u128_wraps (2 ^ 128 - 1) (2 ^ 32 - 1) 1 H1 H2 H3).
Defined.

(** *** One expression per lane *)

Ltac twelve st Hlen :=
  do 12 (destruct st as [|? st]; [discriminate Hlen|]);
  destruct st; [|discriminate Hlen].

Lemma mds_layer_shape (K : constants) (st : state) :
  length st = 12%nat ->
  mds_layer K st = Ok (map (mds_lane K st) (seq 0 12)).
Proof.
  intros Hlen. twelve st Hlen.
  cbv beta iota zeta delta
    [mds_layer mds_row_shf unrolled fold_left seq Nat.sub Nat.ltb Nat.leb
     SPONGE_WIDTH upd lane nth map bind assert mds_lane
     Nat.add Nat.modulo Nat.divmod snd fst].
  reflexivity.
Qed.

Lemma constant_layer_shape (K : constants) (round_ctr : nat) (st : state) :
  length st = 12%nat ->
  constant_layer K round_ctr st = map (constant_lane K round_ctr st) (seq 0 12).
Proof.
  intros Hlen. twelve st Hlen.
  cbv beta iota zeta delta
    [constant_layer unrolled fold_left seq Nat.sub Nat.ltb Nat.leb
     SPONGE_WIDTH upd lane nth map constant_lane].
  reflexivity.
Qed.

Lemma sbox_layer_shape (st : state) :
  length st = 12%nat ->
  sbox_layer st = map (fun i => sbox_monomial (lane st i)) (seq 0 12).
Proof.
  intros Hlen. twelve st Hlen.
  cbv beta iota zeta delta
    [sbox_layer unrolled fold_left seq Nat.sub Nat.ltb Nat.leb
     SPONGE_WIDTH upd lane nth map].
  reflexivity.
Qed.

Lemma partial_first_constant_layer_shape (K : constants) (st : state) :
  length st = 12%nat ->
  partial_first_constant_layer K st = map (first_constant_lane K st) (seq 0 12).
Proof.
  intros Hlen. twelve st Hlen.
  cbv beta iota zeta delta
    [partial_first_constant_layer unrolled fold_left seq Nat.sub Nat.ltb Nat.leb
     SPONGE_WIDTH upd lane nth map first_constant_lane].
  reflexivity.
Qed.

Lemma mds_partial_layer_init_shape (K : constants) (st : state) :
  length st = 12%nat ->
  mds_partial_layer_init K st = lane st 0 :: map (init_lane K st) (seq 1 11).
Proof.
  intros Hlen. twelve st Hlen.
  cbv beta iota zeta delta
    [mds_partial_layer_init unrolled fold_left seq Nat.sub Nat.ltb Nat.leb
     SPONGE_WIDTH upd lane nth map repeat init_lane].
  reflexivity.
Qed.

(** *** Sums *)

Lemma lane_map_seq (f : nat -> GoldilocksField) (from n i : nat) :
  (i < n)%nat -> lane (map f (seq from n)) i = f (from + i)%nat.
Proof.
  intros Hi. unfold lane.
  rewrite (nth_indep _ _ (f 0%nat)) by (rewrite length_map, length_seq; exact Hi).
  rewrite (map_nth f), seq_nth by exact Hi. reflexivity.
Qed.

Lemma sum_Z_cons (y : Z) (l : list Z) : sum_Z (y :: l) = y + sum_Z l.
Proof. reflexivity. Qed.

Lemma sum_Z_congr (f g : nat -> Z) (l : list nat) :
  (forall i, In i l -> f i ~= g i) -> sum_Z (map f l) ~= sum_Z (map g l).
Proof.
  induction l as [|i l IH]; intros H; cbn [map]; [reflexivity|].
  rewrite !sum_Z_cons. apply congr_add.
  - apply H. left. reflexivity.
  - apply IH. intros j Hj. apply H. right. exact Hj.
Qed.

Lemma sum_Z_bound (B : Z) (l : list Z) :
  Forall (fun y => 0 <= y <= B) l ->
  0 <= sum_Z l <= Z.of_nat (length l) * B.
Proof.
  induction 1 as [|y l Hy Hl IH]; [cbn; lia|].
  rewrite sum_Z_cons. cbn [length]. rewrite Nat2Z.inj_succ. lia.
Qed.

Lemma fold_wrap128_sum (f : nat -> Z) (l : list nat) :
  forall a, is_u128 a ->
    fold_left (fun res i => wrap128 (res + wrap128 (f i))) l a
    = wrap128 (a + sum_Z (map f l)).
Proof.
  induction l as [|i l IH]; intros a Ha; cbn [fold_left map].
  - cbn. rewrite Z.add_0_r. unfold wrap128. symmetry. apply Z.mod_small. exact Ha.
  - rewrite IH by (unfold wrap128, is_u128; apply Z.mod_pos_bound; lia).
    rewrite sum_Z_cons. unfold wrap128.
    rewrite Z.add_mod_idemp_l by lia.
    replace (a + f i mod 2 ^ 128 + sum_Z (map f l))
      with (f i mod 2 ^ 128 + (a + sum_Z (map f l))) by ring.
    rewrite Z.add_mod_idemp_l by lia. f_equal. ring.
Qed.

Lemma snapshot_nth (st : state) (j : nat) :
  (j < 12)%nat ->
  nth j (map (fun r => to_noncanonical_u64 (lane st r)) (seq 0 SPONGE_WIDTH)) 0
  = data (lane st j).
Proof.
  intros Hj.
  set (f := fun r => to_noncanonical_u64 (lane st r)).
  rewrite (nth_indep _ _ (f 0%nat)) by (rewrite length_map, length_seq; exact Hj).
  rewrite (map_nth f), seq_nth by exact Hj. reflexivity.
Qed.

Lemma mod12_lt (n : nat) : (n mod 12 < 12)%nat.
Proof. apply Nat.mod_upper_bound. discriminate. Qed.

(** *** The generic MDS layer *)

Lemma mds_lane_spec (K : constants) (st : state) (r : nat) :
  state_ok st -> (r < 12)%nat ->
  is_u64 (data (mds_lane K st r)) /\
  data (mds_lane K st r) ~= mds_row_sum K st r mod 2 ^ 96.
Proof.
  intros [Hlen Hu] Hr. unfold mds_lane. cbv zeta.
  rewrite fold_wrap128_sum by (unfold is_u128; lia).
  rewrite (map_ext_in _
             (fun i => data (lane st ((i + r) mod 12))
                       * u64_at (MDS_MATRIX_CIRC K) i)).
  2:{ intros i _. change SPONGE_WIDTH with 12%nat.
      rewrite snapshot_nth by apply mod12_lt. reflexivity. }
  rewrite snapshot_nth by exact Hr.
  set (s := sum_Z _). set (d := data (lane st r) * u64_at (MDS_MATRIX_DIAG K) r).
  assert (E : mds_row_sum K st r = s + d) by reflexivity.
  set (S' := wrap128 (wrap128 (0 + s) + wrap128 d)).
  assert (ES : S' = (s + d) mod 2 ^ 128).
  { unfold S', wrap128. rewrite Z.add_0_l.
    rewrite <- Z.add_mod by lia. reflexivity. }
  assert (Hlo : is_u64 (wrap64 S'))
    by (unfold wrap64, is_u64; apply Z.mod_pos_bound; lia).
  assert (Hhi : is_u32 (wrap32 (Z.shiftr S' 64)))
    by (unfold wrap32, is_u32; apply Z.mod_pos_bound; lia).
  destruct (from_noncanonical_u96_spec _ _ Hlo Hhi) as [U C].
  split; [exact U|]. rewrite C, E.
  replace (wrap32 (Z.shiftr S' 64) * 2 ^ 64 + wrap64 S') with ((s + d) mod 2 ^ 96);
    [reflexivity|].
  rewrite ES. rewrite Z.shiftr_div_pow2 by lia. unfold wrap32, wrap64.
  generalize (s + d). intros n.
  change (2 ^ 128) with 340282366920938463463374607431768211456.
  change (2 ^ 96) with 79228162514264337593543950336.
  change (2 ^ 64) with 18446744073709551616.
  change (2 ^ 32) with 4294967296.
  Z.div_mod_to_equations. lia.
Qed.

Lemma mds_row_sum_small (K : constants) (st : state) (r : nat) :
  state_ok st -> small_mds K -> (r < 12)%nat ->
  0 <= mds_row_sum K st r < 2 ^ 96.
Proof.
  intros [Hlen Hu] Hs Hr. unfold mds_row_sum.
  set (l := map _ (seq 0 12)).
  assert (Hl : Forall (fun y => 0 <= y <= 2 ^ 92) l).
  { apply Forall_forall. intros y Hy. apply in_map_iff in Hy.
    destruct Hy as (i & <- & Hi). apply in_seq in Hi.
    pose proof (Hu ((i + r) mod 12)%nat (mod12_lt _)) as H1.
    pose proof (u64_at_range (MDS_MATRIX_CIRC K) i) as H2.
    destruct (Hs i ltac:(lia)) as [H3 _].
    unfold is_u64 in *. change (2 ^ 92) with (2 ^ 64 * 2 ^ 28). nia. }
  pose proof (sum_Z_bound _ _ Hl) as B.
  assert (Ll : length l = 12%nat) by (unfold l; rewrite length_map, length_seq; reflexivity).
  rewrite Ll in B.
  pose proof (Hu r Hr) as H1.
  pose proof (u64_at_range (MDS_MATRIX_DIAG K) r) as H2.
  destruct (Hs r Hr) as [_ H3].
  unfold is_u64 in *.
  assert (0 <= data (lane st r) * u64_at (MDS_MATRIX_DIAG K) r <= 2 ^ 64 * 2 ^ 28) by nia.
  change (2 ^ 96) with (16 * 2 ^ 92). change (2 ^ 64 * 2 ^ 28) with (2 ^ 92) in *.
  change (Z.of_nat 12) with 12 in B. lia.
Qed.

Lemma state_ok_map (f : nat -> GoldilocksField) :
  (forall i, (i < 12)%nat -> is_u64 (data (f i))) ->
  state_ok (map f (seq 0 12)).
Proof.
  intros H. split; [rewrite length_map, length_seq; reflexivity|].
  intros i Hi. rewrite lane_map_seq by exact Hi. apply H. exact Hi.
Qed.

Lemma mds_layer_spec (K : constants) (st : state) :
  state_ok st ->
  exists st',
    mds_layer K st = Ok st' /\ state_ok st' /\
    forall r, (r < 12)%nat ->
      data (lane st' r) ~= mds_row_sum K st r mod 2 ^ 96 /\
      (small_mds K -> data (lane st' r) ~= mds_row_sum K st r).
Proof.
  intros Hst. exists (map (mds_lane K st) (seq 0 12)).
  split; [apply mds_layer_shape; apply Hst|]. split.
  - apply state_ok_map. intros i Hi. apply mds_lane_spec; assumption.
  - intros r Hr. rewrite lane_map_seq by exact Hr. cbn [Nat.add].
    destruct (mds_lane_spec K st r Hst Hr) as [_ C]. split; [exact C|].
    intros Hs. rewrite C.
    rewrite Z.mod_small by (apply mds_row_sum_small; assumption). reflexivity.
Qed.

(** X21: on a state of twelve 64-bit words [mds_layer] fails no assertion
    and returns twelve 64-bit words; lane [r] is congruent modulo [p] to the
    row sum [sum_i state[(i + r) mod 12] * CIRC[i] + state[r] * DIAG[r]]
    reduced modulo [2^96], and to the row sum itself when the matrix entries
    are below [2^28]. *)
Theorem mds_layer_rows (K : constants) (st : state) :
  state_ok st ->
  exists st',
    mds_layer K st = Ok st' /\ state_ok st' /\
    forall r, (r < 12)%nat ->
      data (lane st' r) ~= mds_row_sum K st r mod 2 ^ 96 /\
      (small_mds K -> data (lane st' r) ~= mds_row_sum K st r).
Proof. exact (mds_layer_spec K st). Qed.

Lemma state_ok_sample_state : state_ok sample_state.
Proof. split; [reflexivity|]. intros i _. apply sample_state_lanes. Qed.

Lemma mds_layer_rows_witness :
  state_ok sample_state /\
  exists st',
    mds_layer sample_constants sample_state = Ok st' /\ state_ok st' /\
    forall r, (r < 12)%nat ->
      data (lane st' r) ~= mds_row_sum sample_constants sample_state r mod 2 ^ 96 /\
      (small_mds sample_constants ->
       data (lane st' r) ~= mds_row_sum sample_constants sample_state r).
Proof.
  split; [exact state_ok_sample_state|].
  exact (mds_layer_rows sample_constants sample_state state_ok_sample_state).
Defined.

(** *** A full round *)

Lemma constant_lane_spec (K : constants) (round_ctr : nat) (st : state) (i : nat) :
  state_ok st -> (i < 12)%nat ->
  is_u64 (data (constant_lane K round_ctr st i)) /\
  data (constant_lane K round_ctr st i)
  ~= data (lane st i) + u64_at (ALL_ROUND_CONSTANTS K) (i + 12 * round_ctr).
Proof.
  intros [_ Hu] Hi. unfold constant_lane, add_canonical_u64.
  apply (add_spec (lane st i) (from_canonical_u64 _) (Hu i Hi)).
  cbn [data from_canonical_u64]. apply u64_at_range.
Qed.

Lemma full_round_lanes (K : constants) (round_ctr : nat) (st : state) :
  state_ok st ->
  let st2 := sbox_layer (constant_layer K round_ctr st) in
  state_ok st2 /\
  forall j, (j < 12)%nat ->
    data (lane st2 j)
    ~= (data (lane st j) + u64_at (ALL_ROUND_CONSTANTS K) (j + 12 * round_ctr)) ^ 7.
Proof.
  intros Hst. cbv zeta.
  rewrite (constant_layer_shape K round_ctr st) by apply Hst.
  assert (H1 : state_ok (map (constant_lane K round_ctr st) (seq 0 12))).
  { apply state_ok_map. intros i Hi. apply constant_lane_spec; assumption. }
  rewrite sbox_layer_shape by apply H1.
  split.
  - apply state_ok_map. intros i Hi. apply sbox_monomial_spec.
    apply H1. exact Hi.
  - intros j Hj. rewrite !lane_map_seq by exact Hj. cbn [Nat.add].
    destruct (constant_lane_spec K round_ctr st j Hst Hj) as [U C].
    destruct (sbox_monomial_spec _ U) as [_ C7].
    rewrite C7. apply congr_pow. exact C.
Qed.

(** X22: with matrix entries below [2^28], one iteration of [full_rounds]
    on twelve 64-bit words advances the round counter by one and returns
    twelve 64-bit words, lane [r] congruent modulo [p] to row [r] of the MDS
    matrix applied to the seventh powers of
    [state[j] + ALL_ROUND_CONSTANTS[j + 12 * round_ctr]]. *)
Theorem full_round_spec (K : constants) (round_ctr : nat) (st : state) :
  state_ok st -> small_mds K ->
  exists st',
    full_rounds_loop K 1 round_ctr st = Ok ((round_ctr + 1)%nat, st') /\
    state_ok st' /\
    forall r, (r < 12)%nat -> data (lane st' r) ~= full_round_row K round_ctr st r.
Proof.
  intros Hst Hs. cbn [full_rounds_loop].
  destruct (full_round_lanes K round_ctr st Hst) as [H2 L2]. cbv zeta in H2, L2.
  destruct (mds_layer_spec K _ H2) as (st' & E & H3 & R).
  exists st'. rewrite E. cbn [bind]. split; [reflexivity|]. split; [exact H3|].
  intros r Hr. destruct (R r Hr) as [_ C]. rewrite (C Hs).
  unfold mds_row_sum, full_round_row. cbv zeta.
  apply congr_add.
  - apply sum_Z_congr. intros i _. apply congr_mul; [|reflexivity].
    apply L2. apply mod12_lt.
  - apply congr_mul; [|reflexivity]. apply L2. exact Hr.
Qed.

Lemma small_mds_sample : small_mds sample_constants.
Proof.
  intros i Hi.
  do 12 (destruct i as [|i]; [vm_compute; split; reflexivity|]). lia.
Qed.

Lemma full_round_spec_witness :
  state_ok sample_state /\ small_mds sample_constants /\
  exists st',
    full_rounds_loop sample_constants 1 3 sample_state = Ok ((3 + 1)%nat, st') /\
    state_ok st' /\
    forall r, (r < 12)%nat ->
      data (lane st' r) ~= full_round_row sample_constants 3 sample_state r.
Proof.
  split; [exact state_ok_sample_state|]. split; [exact small_mds_sample|].
  exact (full_round_spec sample_constants 3 sample_state
           state_ok_sample_state small_mds_sample).
Defined.

(** *** The initial layer of the partial rounds *)

Lemma fold_add_spec (h : nat -> GoldilocksField) (l : list nat) :
  (forall r, In r l -> is_u64 (data (h r))) ->
  forall acc, is_u64 (data acc) ->
    is_u64 (data (fold_left (fun a r => add a (h r)) l acc)) /\
    data (fold_left (fun a r => add a (h r)) l acc)
    ~= data acc + sum_Z (map (fun r => data (h r)) l).
Proof.
  induction l as [|r l IH]; intros Hh acc Hacc; cbn [fold_left map].
  - split; [exact Hacc|]. cbn. rewrite Z.add_0_r. reflexivity.
  - assert (Hr : is_u64 (data (h r))) by (apply Hh; left; reflexivity).
    destruct (add_spec acc (h r) Hacc Hr) as [Ua Ca].
    destruct (IH (fun j Hj => Hh j (or_intror Hj)) (add acc (h r)) Ua) as [U C].
    split; [exact U|]. rewrite C.
    change (data (add acc (h r)) ~= data acc + data (h r)) in Ca.
    rewrite Ca, sum_Z_cons. rewrite Z.add_assoc. reflexivity.
Qed.

Lemma init_lane_spec (K : constants) (st : state) (c : nat) :
  state_ok st ->
  is_u64 (data (init_lane K st c)) /\
  data (init_lane K st c) ~= init_col_sum K st c.
Proof.
  intros [_ Hu]. unfold init_lane.
  set (h := fun r =>
              mul (lane st r)
                (from_canonical_u64
                   (u64_at (FAST_PARTIAL_ROUND_INITIAL_MATRIX K (r - 1)) (c - 1)))).
  change (is_u64 (data (fold_left (fun a r => add a (h r)) (seq 1 11) (mkGF 0))) /\
          data (fold_left (fun a r => add a (h r)) (seq 1 11) (mkGF 0))
          ~= init_col_sum K st c).
  assert (Hh : forall r, In r (seq 1 11) ->
                 is_u64 (data (h r)) /\
                 data (h r) ~= data (lane st r)
                               * u64_at (FAST_PARTIAL_ROUND_INITIAL_MATRIX K (r - 1)) (c - 1)).
  { intros r Hr. apply in_seq in Hr. unfold h.
    apply (mul_spec (lane st r) (from_canonical_u64 _)).
    - apply Hu. lia.
    - cbn [data from_canonical_u64]. apply u64_at_range. }
  destruct (fold_add_spec h (seq 1 11) (fun r Hr => proj1 (Hh r Hr)) (mkGF 0))
    as [U C]; [cbn; unfold is_u64; lia|].
  split; [exact U|]. rewrite C. cbn [data]. rewrite Z.add_0_l.
  unfold init_col_sum. apply sum_Z_congr. intros r Hr. apply (Hh r Hr).
Qed.

Lemma mds_partial_layer_init_spec (K : constants) (st : state) :
  state_ok st ->
  state_ok (mds_partial_layer_init K st) /\
  lane (mds_partial_layer_init K st) 0 = lane st 0 /\
  forall c, (1 <= c < 12)%nat ->
    data (lane (mds_partial_layer_init K st) c) ~= init_col_sum K st c.
Proof.
  intros Hst. rewrite mds_partial_layer_init_shape by apply Hst.
  assert (L : forall c, (1 <= c < 12)%nat ->
                lane (lane st 0 :: map (init_lane K st) (seq 1 11)) c
                = init_lane K st c).
  { intros [|c] Hc; [lia|].
    change (lane (lane st 0 :: map (init_lane K st) (seq 1 11)) (S c))
      with (lane (map (init_lane K st) (seq 1 11)) c).
    rewrite lane_map_seq by lia. reflexivity. }
  split; [|split].
  - split; [cbn [length]; rewrite length_map, length_seq; reflexivity|].
    intros [|i] Hi.
    + apply Hst. lia.
    + rewrite L by lia. apply init_lane_spec. exact Hst.
  - reflexivity.
  - intros c Hc. rewrite L by exact Hc. apply init_lane_spec. exact Hst.
Qed.

(** X23: on a state of twelve 64-bit words [mds_partial_layer_init] returns
    twelve 64-bit words, keeps lane 0, and makes lane [c >= 1] congruent
    modulo [p] to [sum_{r=1..11} state[r] * INITIAL_MATRIX[r-1][c-1]]. *)
Theorem mds_partial_layer_init_columns (K : constants) (st : state) :
  state_ok st ->
  state_ok (mds_partial_layer_init K st) /\
  lane (mds_partial_layer_init K st) 0 = lane st 0 /\
  forall c, (1 <= c < 12)%nat ->
    data (lane (mds_partial_layer_init K st) c) ~= init_col_sum K st c.
Proof. exact (mds_partial_layer_init_spec K st). Qed.

Lemma mds_partial_layer_init_columns_witness :
  state_ok sample_state /\
  state_ok (mds_partial_layer_init sample_constants sample_state) /\
  lane (mds_partial_layer_init sample_constants sample_state) 0 = lane sample_state 0 /\
  forall c, (1 <= c < 12)%nat ->
    data (lane (mds_partial_layer_init sample_constants sample_state) c)
    ~= init_col_sum sample_constants sample_state c.
Proof.
  split; [exact state_ok_sample_state|].
  exact (mds_partial_layer_init_columns sample_constants sample_state
           state_ok_sample_state).
Defined.

(** *** The words the hash reads *)

Lemma absorb_chunk_ext (K : constants) (i : nat) (input input' : nat -> GoldilocksField) :
  forall (n j : nat) (st : state),
    (forall q, (j <= q < j + n)%nat ->
               input (i * SPONGE_RATE K + q)%nat = input' (i * SPONGE_RATE K + q)%nat) ->
    absorb_chunk K n j i input st = absorb_chunk K n j i input' st.
Proof.
  induction n as [|n IH]; intros j st H; cbn [absorb_chunk]; [reflexivity|].
  destruct (j <? SPONGE_WIDTH)%nat; [|reflexivity].
  rewrite (H j) by lia. apply IH. intros q Hq. apply H. lia.
Qed.

Lemma absorb_loop_ext (K : constants) (input input' : nat -> GoldilocksField) :
  (forall n, absorbed_index K n -> input n = input' n) ->
  forall (fuel q : nat) (st : state),
    absorb_loop K fuel (q * SPONGE_RATE K) input st
    = absorb_loop K fuel (q * SPONGE_RATE K) input' st.
Proof.
  intros H. induction fuel as [|fuel IH]; intros q st; cbn [absorb_loop].
  - reflexivity.
  - destruct (Nat.ltb_spec (q * SPONGE_RATE K) 4) as [Hq | Hq]; [|reflexivity].
    rewrite (absorb_chunk_ext K _ input input').
    + destruct (absorb_chunk K (SPONGE_RATE K) 0 (q * SPONGE_RATE K) input' st)
        as [st1| | |]; cbn [bind]; try reflexivity.
      destruct (permute_poseidon K st1) as [st2| | |]; cbn [bind]; try reflexivity.
      replace (q * SPONGE_RATE K + SPONGE_RATE K)%nat
        with (S q * SPONGE_RATE K)%nat by lia.
      apply IH.
    + intros j Hj. apply H. exists q, j. split; [exact Hq|]. split; [lia|]. reflexivity.
Qed.

(** X24: two input memories that agree on the words
    [input[q * SPONGE_RATE^2 + j]] with [q * SPONGE_RATE < 4] and
    [j < SPONGE_RATE] give [hash_n_to_m_no_pad] the same outcome: no other
    word is read. *)
Theorem hash_reads_absorbed_indices (K : constants) (fuel : nat)
    (input input' : nat -> GoldilocksField) :
  (forall n, absorbed_index K n -> input n = input' n) ->
  hash_n_to_m_no_pad K fuel input = hash_n_to_m_no_pad K fuel input'.
Proof.
  intros H. unfold hash_n_to_m_no_pad.
  rewrite (absorb_loop_ext K input input' H fuel 0). reflexivity.
Qed.

Lemma sample_inputs_agree (n : nat) :
  absorbed_index sample_constants n ->
  sample_input n = (fun j => if (j <? 8)%nat then sample_input j else mkGF 0) n.
Proof.
  intros (q & j & Hq & Hj & ->). cbn [SPONGE_RATE sample_constants] in *.
  assert (q = 0%nat) by lia. subst q. cbn [Nat.mul Nat.add].
  replace (j <? 8)%nat with true by (symmetry; apply Nat.ltb_lt; exact Hj).
  reflexivity.
Qed.

Lemma hash_reads_absorbed_indices_witness :
  (forall n, absorbed_index sample_constants n ->
             sample_input n
             = (fun j => if (j <? 8)%nat then sample_input j else mkGF 0) n) /\
  hash_n_to_m_no_pad sample_constants 1 sample_input
  = hash_n_to_m_no_pad sample_constants 1
      (fun j => if (j <? 8)%nat then sample_input j else mkGF 0).
Proof.
  split; [exact sample_inputs_agree|].
  exact (hash_reads_absorbed_indices sample_constants 1 sample_input
           (fun j => if (j <? 8)%nat then sample_input j else mkGF 0)
           sample_inputs_agree).
Defined.

(** ** Thread indices *)

Lemma to_int_small (x : Z) : 0 <= x < 2 ^ 31 -> to_int (wrap32 x) = x.
Proof.
  intros Hx. unfold to_int. consts. change (2 ^ 31) with 2147483648 in *.
  rewrite !(Z.mod_small x) by lia.
  destruct (Z.ltb_spec x 2147483648); lia.
Qed.

(** X25: in a launch with [gridDim.x * blockDim.x < 2^31],
    [get_global_thcnt] is that product, [get_global_id] is
    [blockIdx.x * blockDim.x + threadIdx.x] and lies below it, and two
    threads of the launch with the same id have the same indices. *)
Theorem get_global_id_enumerates (l l' : launch) :
  blockDim_x l' = blockDim_x l -> gridDim_x l' = gridDim_x l ->
  0 <= threadIdx_x l < blockDim_x l -> 0 <= blockIdx_x l < gridDim_x l ->
  0 <= threadIdx_x l' < blockDim_x l -> 0 <= blockIdx_x l' < gridDim_x l ->
  gridDim_x l * blockDim_x l < 2 ^ 31 ->
  get_global_thcnt l = gridDim_x l * blockDim_x l /\
  get_global_id l = blockIdx_x l * blockDim_x l + threadIdx_x l /\
  0 <= get_global_id l < get_global_thcnt l /\
  (get_global_id l = get_global_id l' ->
   threadIdx_x l = threadIdx_x l' /\ blockIdx_x l = blockIdx_x l').
Proof.
  intros Eb Eg Ht Hb Ht' Hb' Hn.
  assert (B : forall t b, 0 <= t < blockDim_x l -> 0 <= b < gridDim_x l ->
                0 <= b * blockDim_x l + t < gridDim_x l * blockDim_x l) by (intros; nia).
  assert (I : forall m, 0 <= threadIdx_x m < blockDim_x l ->
                0 <= blockIdx_x m < gridDim_x l -> blockDim_x m = blockDim_x l ->
                get_global_id m = blockIdx_x m * blockDim_x l + threadIdx_x m).
  { intros m Hmt Hmb Em. unfold get_global_id. rewrite Em.
    pose proof (B _ _ Hmt Hmb) as Bm.
    assert (W : wrap32 (blockIdx_x m * blockDim_x l) = blockIdx_x m * blockDim_x l).
    { unfold wrap32. apply Z.mod_small. nia. }
    rewrite W, Z.add_comm. apply to_int_small. lia. }
  assert (T : get_global_thcnt l = gridDim_x l * blockDim_x l).
  { unfold get_global_thcnt. apply to_int_small. nia. }
  rewrite T, (I l Ht Hb eq_refl), (I l' Ht' Hb' Eb).
  split; [reflexivity|]. split; [reflexivity|]. split; [apply B; assumption|].
  intros E.
  assert (Eq : blockIdx_x l = blockIdx_x l') by nia.
  split; [nia | exact Eq].
Qed.

Lemma get_global_id_enumerates_witness :
  blockDim_x (mkLaunch 0 4 256 1024) = blockDim_x (mkLaunch 255 3 256 1024) /\
  gridDim_x (mkLaunch 0 4 256 1024) = gridDim_x (mkLaunch 255 3 256 1024) /\
  0 <= threadIdx_x (mkLaunch 255 3 256 1024) < blockDim_x (mkLaunch 255 3 256 1024) /\
  0 <= blockIdx_x (mkLaunch 255 3 256 1024) < gridDim_x (mkLaunch 255 3 256 1024) /\
  0 <= threadIdx_x (mkLaunch 0 4 256 1024) < blockDim_x (mkLaunch 255 3 256 1024) /\
  0 <= blockIdx_x (mkLaunch 0 4 256 1024) < gridDim_x (mkLaunch 255 3 256 1024) /\
  gridDim_x (mkLaunch 255 3 256 1024) * blockDim_x (mkLaunch 255 3 256 1024) < 2 ^ 31 /\
  get_global_thcnt (mkLaunch 255 3 256 1024)
  = gridDim_x (mkLaunch 255 3 256 1024) * blockDim_x (mkLaunch 255 3 256 1024) /\
  get_global_id (mkLaunch 255 3 256 1024)
  = blockIdx_x (mkLaunch 255 3 256 1024) * blockDim_x (mkLaunch 255 3 256 1024)
    + threadIdx_x (mkLaunch 255 3 256 1024) /\
  0 <= get_global_id (mkLaunch 255 3 256 1024)
    < get_global_thcnt (mkLaunch 255 3 256 1024) /\
  (get_global_id (mkLaunch 255 3 256 1024) = get_global_id (mkLaunch 0 4 256 1024) ->
   threadIdx_x (mkLaunch 255 3 256 1024) = threadIdx_x (mkLaunch 0 4 256 1024) /\
   blockIdx_x (mkLaunch 255 3 256 1024) = blockIdx_x (mkLaunch 0 4 256 1024)).
Proof.
  assert (H1 : blockDim_x (mkLaunch 0 4 256 1024) = blockDim_x (mkLaunch 255 3 256 1024))
    by reflexivity.
  assert (H2 : gridDim_x (mkLaunch 0 4 256 1024) = gridDim_x (mkLaunch 255 3 256 1024))
    by reflexivity.
  assert (H3 : 0 <= threadIdx_x (mkLaunch 255 3 256 1024)
               < blockDim_x (mkLaunch 255 3 256 1024)) by (simpl; lia).
  assert (H4 : 0 <= blockIdx_x (mkLaunch 255 3 256 1024)
               < gridDim_x (mkLaunch 255 3 256 1024)) by (simpl; lia).
  assert (H5 : 0 <= threadIdx_x (mkLaunch 0 4 256 1024)
               < blockDim_x (mkLaunch 255 3 256 1024)) by (simpl; lia).
  assert (H6 : 0 <= blockIdx_x (mkLaunch 0 4 256 1024)
               < gridDim_x (mkLaunch 255 3 256 1024)) by (simpl; lia).
  assert (H7 : gridDim_x (mkLaunch 255 3 256 1024) * blockDim_x (mkLaunch 255 3 256 1024)
               < 2 ^ 31) by (simpl; lia).
  split; [exact H1|]. split; [exact H2|]. split; [exact H3|]. split; [exact H4|].
  split; [exact H5|]. split; [exact H6|]. split; [exact H7|].
  exact (get_global_id_enumerates (mkLaunch 255 3 256 1024) (mkLaunch 0 4 256 1024)
           H1 H2 H3 H4 H5 H6 H7).
Defined.

(** ** The coset shift generates the multiplicative group *)

Lemma trial_division (n : Z) (b : nat) :
  1 < n -> n < Z.of_nat b * Z.of_nat b ->
  forallb (fun d => negb (n mod Z.of_nat d =? 0)) (seq 2 (b - 2)) = true ->
  Z.prime n.
Proof.
  intros Hn Hb Hall. split; [exact Hn|].
  intros d Hd [q Hq].
  assert (Hq1 : 1 < q < n) by nia.
  assert (Small : exists e, 2 <= e < Z.of_nat b /\ n mod e = 0).
  { destruct (Z_lt_dec d (Z.of_nat b)) as [L | L].
    - exists d. split; [lia|]. rewrite Hq. apply Z.mod_mul. lia.
    - exists q. split; [nia|]. rewrite Hq, Z.mul_comm. apply Z.mod_mul. lia. }
  destruct Small as (e & He & Me).
  rewrite forallb_forall in Hall.
  specialize (Hall (Z.to_nat e)).
  rewrite Z2Nat.id in Hall by lia. rewrite Me in Hall. cbn in Hall.
  assert (In (Z.to_nat e) (seq 2 (b - 2))) by (apply in_seq; lia).
  specialize (Hall H). discriminate Hall.
Qed.

Lemma prime_5 : Z.prime 5.
Proof. apply (trial_division 5 3); [lia | lia | vm_compute; reflexivity]. Qed.

Lemma prime_17 : Z.prime 17.
Proof. apply (trial_division 17 5); [lia | lia | vm_compute; reflexivity]. Qed.

Lemma prime_257 : Z.prime 257.
Proof. apply (trial_division 257 17); [lia | lia | vm_compute; reflexivity]. Qed.

Lemma prime_65537 : Z.prime 65537.
Proof. apply (trial_division 65537 257); [lia | lia | vm_compute; reflexivity]. Qed.

Lemma group_order_factors :
  ORDER - 1 = 2 ^ 32 * (3 * (5 * (17 * (257 * 65537)))).
Proof. reflexivity. Qed.

Lemma prime_divisor_of_group_order (r : Z) :
  Z.prime r -> (r | ORDER - 1) ->
  In r [2; 3; 5; 17; 257; 65537].
Proof.
  intros Hr D. rewrite group_order_factors in D.
  apply (Z.divide_prime_mul _ _ _ Hr) in D. destruct D as [D | D].
  { left. symmetry. apply (Z.divide_prime_pp r 2 32 Hr Z.prime_2); [lia | exact D]. }
  apply (Z.divide_prime_mul _ _ _ Hr) in D. destruct D as [D | D].
  { right. left. symmetry. apply (Z.divide_prime_prime r 3 Hr Z.prime_3 D). }
  apply (Z.divide_prime_mul _ _ _ Hr) in D. destruct D as [D | D].
  { do 2 right. left. symmetry. apply (Z.divide_prime_prime r 5 Hr prime_5 D). }
  apply (Z.divide_prime_mul _ _ _ Hr) in D. destruct D as [D | D].
  { do 3 right. left. symmetry. apply (Z.divide_prime_prime r 17 Hr prime_17 D). }
  apply (Z.divide_prime_mul _ _ _ Hr) in D. destruct D as [D | D].
  { do 4 right. left. symmetry. apply (Z.divide_prime_prime r 257 Hr prime_257 D). }
  do 5 right. left. symmetry. apply (Z.divide_prime_prime r 65537 Hr prime_65537 D).
Qed.

Lemma seven_full_power : 7 ^ (ORDER - 1) mod ORDER = 1.
Proof.
  rewrite <- Zpow_mod_correct by (rewrite ORDER_val; lia).
  vm_compute. reflexivity.
Qed.

Lemma seven_partial_powers (r : Z) :
  In r [2; 3; 5; 17; 257; 65537] -> 7 ^ ((ORDER - 1) / r) mod ORDER <> 1.
Proof.
  intros H. cbn [In] in H.
  destruct H as [<- | [<- | [<- | [<- | [<- | [<- | []]]]]]];
    rewrite <- Zpow_mod_correct by (rewrite ORDER_val; lia);
    vm_compute; discriminate.
Qed.

Lemma pow_one_mod (g m e : Z) :
  1 < m -> 0 <= e -> g mod m = 1 -> g ^ e mod m = 1.
Proof.
  intros Hm He Hg. rewrite <- Z.mod_pow_l, Hg, Z.pow_1_l by lia.
  apply Z.mod_small. lia.
Qed.

Lemma bezout_nonneg (n m : Z) :
  0 < n -> 0 < m ->
  exists u w, 0 <= u /\ 0 <= w /\ u * n = Z.gcd n m + w * m.
Proof.
  intros Hn Hm.
  destruct (Z.gcd_bezout n m _ eq_refl) as (a & b & E).
  pose proof (Z.gcd_nonneg n m) as G0.
  assert (Gn : Z.gcd n m <= n).
  { apply Z.divide_pos_le; [lia | apply Z.gcd_divide_l]. }
  exists (a + (Z.abs a + 1) * m), ((Z.abs a + 1) * n - b).
  assert (U : 1 <= a + (Z.abs a + 1) * m) by nia.
  split; [lia|]. split; [|ring_simplify; lia].
  assert (X : (a + (Z.abs a + 1) * m) * n
              = Z.gcd n m + ((Z.abs a + 1) * n - b) * m) by (ring_simplify; lia).
  nia.
Qed.

Lemma order_gcd (g m n N : Z) :
  1 < m -> 0 < n -> 0 < N ->
  g ^ n mod m = 1 -> g ^ N mod m = 1 -> g ^ Z.gcd n N mod m = 1.
Proof.
  intros Hm Hn HN En EN.
  destruct (bezout_nonneg n N Hn HN) as (u & w & Hu & Hw & E).
  pose proof (Z.gcd_nonneg n N) as G0.
  assert (L : g ^ (u * n) mod m = 1).
  { rewrite Z.mul_comm, Z.pow_mul_r by lia. apply pow_one_mod; assumption. }
  assert (R : g ^ (w * N) mod m = 1).
  { rewrite Z.mul_comm, Z.pow_mul_r by lia. apply pow_one_mod; assumption. }
  rewrite E, Z.pow_add_r in L by nia.
  rewrite Z.mul_mod in L by lia.
  rewrite R, Z.mul_1_r, Z.mod_mod in L by lia. exact L.
Qed.

Lemma seven_has_full_order (n : Z) :
  0 < n < ORDER - 1 -> 7 ^ n mod ORDER <> 1.
Proof.
  intros Hn E.
  assert (HP : 1 < ORDER) by (rewrite ORDER_val; lia).
  pose proof (order_gcd 7 ORDER n (ORDER - 1) HP (proj1 Hn) ltac:(lia) E seven_full_power)
    as Ed.
  set (d := Z.gcd n (ORDER - 1)) in *.
  assert (Dn : (d | n)) by apply Z.gcd_divide_l.
  assert (DN : (d | ORDER - 1)) by apply Z.gcd_divide_r.
  assert (Hd : 0 < d <= n).
  { split.
    - pose proof (Z.gcd_nonneg n (ORDER - 1)). fold d in H.
      destruct (Z.eq_dec d 0) as [Z0 | ]; [|lia].
      unfold d in Z0. apply Z.gcd_eq_0_l in Z0. lia.
    - apply Z.divide_pos_le; [lia | exact Dn]. }
  destruct DN as [c Hc].
  assert (Hc1 : 1 < c) by nia.
  destruct (exists_prime_divisor c Hc1) as (r & Pr & [c' Hc']).
  assert (Dr : (r | ORDER - 1)).
  { exists (c' * d). rewrite Hc, Hc'. ring. }
  pose proof (prime_divisor_of_group_order r Pr Dr) as Hin.
  apply (seven_partial_powers r Hin).
  pose proof (Z.prime_ge_2 r Pr) as R2.
  assert (Q : (ORDER - 1) / r = d * c').
  { rewrite Hc, Hc'. replace (c' * r * d) with (d * c' * r) by ring.
    apply Z.div_mul. lia. }
  rewrite Q, Z.pow_mul_r by nia.
  apply pow_one_mod; [exact HP | nia | exact Ed].
Qed.

(** X26: [coset_shift] generates the multiplicative group: for every
    [n < 2^64], [exp_u64 coset_shift n] is congruent to 1 modulo [p] exactly
    when [p - 1] divides [n]. *)
Theorem coset_shift_generates (n : Z) :
  0 <= n < 2 ^ 64 ->
  (data (exp_u64 coset_shift n) ~= 1 <-> (ORDER - 1 | n)).
Proof.
  intros Hn.
  assert (HP : 1 < ORDER) by (rewrite ORDER_val; lia).
  assert (H7 : is_u64 (data coset_shift)) by (cbn; unfold is_u64; lia).
  destruct (exp_u64_power_spec coset_shift n H7 Hn) as [_ C].
  change (data coset_shift) with 7 in C.
  assert (One : forall x, x ~= 1 <-> x mod ORDER = 1).
  { intros x. unfold congr. rewrite (Z.mod_small 1) by lia. reflexivity. }
  rewrite C, One.
  pose proof (Z.div_mod n (ORDER - 1) ltac:(lia)) as Dv.
  pose proof (Z.mod_pos_bound n (ORDER - 1) ltac:(lia)) as Mb.
  assert (Hq : 0 <= n / (ORDER - 1)) by (apply Z.div_pos; lia).
  assert (Split : 7 ^ n mod ORDER = 7 ^ (n mod (ORDER - 1)) mod ORDER).
  { rewrite Dv at 1. rewrite Z.pow_add_r by nia.
    rewrite <- Z.mul_mod_idemp_l by lia.
    rewrite Z.pow_mul_r by lia.
    rewrite (pow_one_mod _ ORDER _ HP Hq seven_full_power), Z.mul_1_l.
    reflexivity. }
  rewrite Split. split.
  - intros E. apply Z.mod_divide; [lia|].
    destruct (Z.eq_dec (n mod (ORDER - 1)) 0) as [Z0 | NZ]; [exact Z0|].
    exfalso. apply (seven_has_full_order (n mod (ORDER - 1))); [lia | exact E].
  - intros D. apply Z.mod_divide in D; [|lia]. rewrite D.
    rewrite Z.pow_0_r. apply Z.mod_small. lia.
Qed.

Lemma coset_shift_generates_witness :
  0 <= ORDER - 1 < 2 ^ 64 /\
  (data (exp_u64 coset_shift (ORDER - 1)) ~= 1 <-> (ORDER - 1 | ORDER - 1)).
Proof.
  assert (H1 : 0 <= ORDER - 1 < 2 ^ 64) by (unfold ORDER; lia).
  split; [exact H1|].
  exact (coset_shift_generates (ORDER - 1) H1).
Defined.

(** *** Inversion by exponentiation *)

(** X27: for every 64-bit [a] not congruent to 0 modulo [p],
    [a * exp_u64 a (p - 2)] is a 64-bit word congruent to 1 modulo [p]. *)
Theorem exp_u64_fermat_inverse (a : GoldilocksField) :
  is_u64 (data a) -> data a mod ORDER <> 0 ->
  is_u64 (data (mul a (exp_u64 a (ORDER - 2)))) /\
  data (mul a (exp_u64 a (ORDER - 2))) ~= 1.
Proof.
  intros Ha Hnz.
  assert (He : 0 <= ORDER - 2 < 2 ^ 64) by (rewrite ORDER_val; lia).
  destruct (exp_u64_power_spec a (ORDER - 2) Ha He) as [Ue Ce].
  destruct (mul_spec a _ Ha Ue) as [Um Cm].
  split; [exact Um|].
  change (data (mul a (exp_u64 a (ORDER - 2)))
          ~= data a * data (exp_u64 a (ORDER - 2))) in Cm.
  rewrite Cm, Ce.
  replace (data a * data a ^ (ORDER - 2)) with (data a ^ (ORDER - 1)).
  - unfold congr. rewrite (Z.fermat_nz ORDER (data a) ORDER_prime Hnz). reflexivity.
  - replace (ORDER - 1) with (Z.succ (ORDER - 2)) by lia.
    rewrite Z.pow_succ_r by lia. reflexivity.
Qed.

Lemma exp_u64_fermat_inverse_witness :
  is_u64 (data (mkGF (ORDER - 4))) /\ data (mkGF (ORDER - 4)) mod ORDER <> 0 /\
  is_u64 (data (mul (mkGF (ORDER - 4)) (exp_u64 (mkGF (ORDER - 4)) (ORDER - 2)))) /\
  data (mul (mkGF (ORDER - 4)) (exp_u64 (mkGF (ORDER - 4)) (ORDER - 2))) ~= 1.
Proof.
  assert (H1 : is_u64 (data (mkGF (ORDER - 4)))) by (unfold is_u64, ORDER; cbn; lia).
  assert (H2 : data (mkGF (ORDER - 4)) mod ORDER <> 0) by (vm_compute; discriminate).
  split; [exact H1|]. split; [exact H2|].
  exact (exp_u64_fermat_inverse (mkGF (ORDER - 4)) H1 H2).
Defined.

(** ** The partial rounds *)

Lemma state_ok_all (st : state) :
  state_ok st -> forall i, is_u64 (data (lane st i)).
Proof.
  intros [Hlen Hu] i. destruct (Nat.lt_ge_cases i 12) as [L | G]; [apply Hu; exact L|].
  unfold lane. rewrite nth_overflow by (rewrite Hlen; exact G).
  cbn. unfold is_u64. lia.
Qed.

Lemma mds_partial_layer_fast_lanes (K : constants) (r : nat) (st : state) :
  state_ok st ->
  state_ok (mds_partial_layer_fast K r st) /\
  data (lane (mds_partial_layer_fast K r st) 0)
  ~= data (lane st 0) * mds0to0 K + sum_Z (map (w_hat_term K r st) (seq 1 11)) /\
  forall i, (1 <= i < 12)%nat ->
    data (lane (mds_partial_layer_fast K r st) i)
    ~= data (lane st i) + data (lane st 0) * u64_at (FAST_PARTIAL_ROUND_VS K r) (i - 1).
Proof.
  intros Hok. pose proof (state_ok_all st Hok) as Hst. destruct Hok as [Hlen _].
  rewrite mds_partial_layer_fast_shape by exact Hlen.
  assert (L0 : is_u64 (data (fast_lane0 K r st)) /\
               data (fast_lane0 K r st)
               ~= data (lane st 0) * mds0to0 K
                  + sum_Z (map (w_hat_term K r st) (seq 1 11))).
  { unfold fast_lane0.
    assert (Hm : is_u64 (mds0to0 K))
      by (unfold mds0to0, wrap64, is_u64; apply Z.mod_pos_bound; lia).
    assert (Hterm : forall i, wrap128 (w_hat_term K r st i) = w_hat_term K r st i).
    { intros i. unfold w_hat_term. apply u64_product_u128; [apply Hst | apply u64_at_range]. }
    rewrite (map_ext _ _ Hterm).
    rewrite u64_product_u128 by (apply Hst || exact Hm).
    set (ys := map (w_hat_term K r st) (seq 1 11)).
    assert (Hys : Forall is_u128 ys).
    { apply Forall_forall. intros y Hy. apply in_map_iff in Hy.
      destruct Hy as (i & <- & _). rewrite <- Hterm.
      unfold wrap128, is_u128. apply Z.mod_pos_bound. lia. }
    pose proof (accumulate_spec ys (0, 0)) as Hacc. cbn [fst snd] in Hacc.
    destruct Hacc as (A1 & A2 & A3); try assumption.
    { unfold is_u128. lia. } { lia. }
    { unfold ys. rewrite length_map, length_seq. cbn. lia. }
    destruct (fold_left add_u160_u128 ys (0, 0)) as [lo hi].
    cbn [fst snd] in *. unfold u160_value in A3. cbn [fst snd] in A3.
    assert (Hy0 : is_u128 (data (lane st 0) * mds0to0 K)).
    { rewrite <- u64_product_u128 by (apply Hst || exact Hm).
      unfold wrap128, is_u128. apply Z.mod_pos_bound. lia. }
    pose proof (add_u160_u128_spec lo hi (data (lane st 0) * mds0to0 K) A1) as Hstep.
    destruct (add_u160_u128 (lo, hi) (data (lane st 0) * mds0to0 K)) as [lo' hi'].
    assert (Hlen11 : Z.of_nat (length ys) = 11)
      by (unfold ys; rewrite length_map, length_seq; reflexivity).
    destruct Hstep as (S1 & S2 & S3).
    { change (2 ^ 32) with 4294967296. lia. }
    { exact Hy0. }
    destruct (reduce_u160_spec lo' hi' S1) as [R1 R2].
    { unfold is_u32. change (2 ^ 32) with 4294967296. lia. }
    split; [exact R1|]. rewrite R2.
    replace (hi' * 2 ^ 128 + lo')
      with (data (lane st 0) * mds0to0 K + sum_Z ys) by lia.
    reflexivity. }
  assert (Li : forall i, (1 <= i < 12)%nat ->
                 lane (fast_lane0 K r st :: map (fast_lane K r st) (seq 1 11)) i
                 = fast_lane K r st i).
  { intros [|i] Hi; [lia|].
    change (lane (fast_lane0 K r st :: map (fast_lane K r st) (seq 1 11)) (S i))
      with (lane (map (fast_lane K r st) (seq 1 11)) i).
    rewrite lane_map_seq by lia. reflexivity. }
  assert (Lf : forall i, is_u64 (data (fast_lane K r st i)) /\
                 data (fast_lane K r st i)
                 ~= data (lane st i)
                    + data (lane st 0) * u64_at (FAST_PARTIAL_ROUND_VS K r) (i - 1)).
  { intros i. unfold fast_lane. apply multiply_accumulate_spec; try apply Hst.
    cbn [data from_canonical_u64]. apply u64_at_range. }
  split; [|split].
  - split; [cbn [length]; rewrite length_map, length_seq; reflexivity|].
    intros [|i] Hi; [apply L0|]. rewrite Li by lia. apply Lf.
  - apply L0.
  - intros i Hi. rewrite Li by exact Hi. apply Lf.
Qed.

Lemma state_ok_upd (st : state) (i : nat) (v : GoldilocksField) :
  state_ok st -> is_u64 (data v) -> state_ok (upd i v st).
Proof.
  intros [Hlen Hu] Hv. split; [rewrite length_upd; exact Hlen|].
  intros j Hj. destruct (Nat.lt_ge_cases i (length st)) as [L | G].
  - rewrite lane_upd by exact L. destruct (j =? i)%nat; [exact Hv | apply Hu; exact Hj].
  - assert (E : upd i v st = st).
    { clear - G. revert i G. induction st as [|h t IH]; intros i G;
        [destruct i; reflexivity|].
      destruct i as [|i]; cbn in G; [lia|]. cbn [upd]. f_equal. apply IH. lia. }
    rewrite E. apply Hu. exact Hj.
Qed.

Lemma partial_round_entry_lanes (K : constants) (i : nat) (st : state) :
  state_ok st ->
  let st2 :=
    upd 0 (add_canonical_u64 (lane (upd 0 (sbox_monomial (lane st 0)) st) 0)
             (u64_at (FAST_PARTIAL_ROUND_CONSTANTS K) i))
        (upd 0 (sbox_monomial (lane st 0)) st) in
  state_ok st2 /\
  data (lane st2 0) ~= partial_round_x0 K i st /\
  forall j, (1 <= j < 12)%nat -> lane st2 j = lane st j.
Proof.
  intros Hok. cbv zeta.
  pose proof Hok as [Hlen Hu].
  assert (H0 : is_u64 (data (lane st 0))) by (apply Hu; lia).
  destruct (sbox_monomial_spec _ H0) as [Us Cs].
  assert (L1 : lane (upd 0 (sbox_monomial (lane st 0)) st) 0 = sbox_monomial (lane st 0)).
  { rewrite lane_upd by (rewrite Hlen; unfold SPONGE_WIDTH; lia). reflexivity. }
  rewrite L1.
  assert (Ua : is_u64 (data (add_canonical_u64 (sbox_monomial (lane st 0))
                                (u64_at (FAST_PARTIAL_ROUND_CONSTANTS K) i))) /\
               data (add_canonical_u64 (sbox_monomial (lane st 0))
                       (u64_at (FAST_PARTIAL_ROUND_CONSTANTS K) i))
               ~= data (sbox_monomial (lane st 0))
                  + u64_at (FAST_PARTIAL_ROUND_CONSTANTS K) i).
  { unfold add_canonical_u64.
    apply (add_spec _ (from_canonical_u64 _) Us).
    cbn [data from_canonical_u64]. apply u64_at_range. }
  split; [|split].
  - apply state_ok_upd; [apply state_ok_upd; assumption | apply Ua].
  - rewrite lane_upd by (rewrite length_upd, Hlen; unfold SPONGE_WIDTH; lia).
    cbn [Nat.eqb]. destruct Ua as [_ Ca]. rewrite Ca.
    unfold partial_round_x0. rewrite Cs. reflexivity.
  - intros j Hj.
    rewrite lane_upd by (rewrite length_upd, Hlen; unfold SPONGE_WIDTH; lia).
    rewrite lane_upd by (rewrite Hlen; unfold SPONGE_WIDTH; lia).
    destruct j as [|j]; [lia|]. reflexivity.
Qed.

Lemma partial_round_lanes (K : constants) (i : nat) (st : state) :
  state_ok st ->
  state_ok (partial_rounds_loop K 1 i st) /\
  data (lane (partial_rounds_loop K 1 i st) 0) ~= partial_round_row0 K i st /\
  forall j, (1 <= j < 12)%nat ->
    data (lane (partial_rounds_loop K 1 i st) j) ~= partial_round_row K i st j.
Proof.
  intros Hok. cbn [partial_rounds_loop].
  destruct (partial_round_entry_lanes K i st Hok) as (H2 & C0 & Same).
  cbv zeta in H2, C0, Same.
  set (st2 := upd 0 _ (upd 0 _ st)) in *.
  destruct (mds_partial_layer_fast_lanes K i st2 H2) as (H3 & F0 & Fj).
  split; [exact H3|]. split.
  - rewrite F0. unfold partial_round_row0. apply congr_add.
    + apply congr_mul; [exact C0 | reflexivity].
    + apply sum_Z_congr. intros j Hj. apply in_seq in Hj.
      unfold w_hat_term. rewrite Same by lia. reflexivity.
  - intros j Hj. rewrite (Fj j Hj). unfold partial_round_row.
    rewrite Same by exact Hj. apply congr_add; [reflexivity|].
    apply congr_mul; [exact C0 | reflexivity].
Qed.

(** X28: one iteration of the loop of [partial_rounds] maps twelve 64-bit
    words to twelve 64-bit words; with
    [x0 = state[0]^7 + FAST_PARTIAL_ROUND_CONSTANTS[i]], lane 0 is congruent
    modulo [p] to [x0 * (CIRC[0] + DIAG[0]) + sum_{j=1..11} state[j] * W_HATS[i][j-1]]
    and lane [j >= 1] to [state[j] + x0 * VS[i][j-1]]. *)
Theorem partial_round_spec (K : constants) (i : nat) (st : state) :
  state_ok st ->
  state_ok (partial_rounds_loop K 1 i st) /\
  data (lane (partial_rounds_loop K 1 i st) 0) ~= partial_round_row0 K i st /\
  forall j, (1 <= j < 12)%nat ->
    data (lane (partial_rounds_loop K 1 i st) j) ~= partial_round_row K i st j.
Proof. exact (partial_round_lanes K i st). Qed.

Lemma partial_round_spec_witness :
  state_ok sample_state /\
  state_ok (partial_rounds_loop sample_constants 1 5 sample_state) /\
  data (lane (partial_rounds_loop sample_constants 1 5 sample_state) 0)
  ~= partial_round_row0 sample_constants 5 sample_state /\
  forall j, (1 <= j < 12)%nat ->
    data (lane (partial_rounds_loop sample_constants 1 5 sample_state) j)
    ~= partial_round_row sample_constants 5 sample_state j.
Proof.
  split; [exact state_ok_sample_state|].
  exact (partial_round_spec sample_constants 5 sample_state state_ok_sample_state).
Defined.

(** *** The prologue of the partial rounds *)

Lemma first_constant_lane_spec (K : constants) (st : state) (i : nat) :
  state_ok st -> (i < 12)%nat ->
  is_u64 (data (first_constant_lane K st i)) /\
  data (first_constant_lane K st i)
  ~= data (lane st i) + u64_at (FAST_PARTIAL_FIRST_ROUND_CONSTANT K) i.
Proof.
  intros [_ Hu] Hi. unfold first_constant_lane.
  apply (add_spec (lane st i) (from_canonical_u64 _) (Hu i Hi)).
  cbn [data from_canonical_u64]. apply u64_at_range.
Qed.

Lemma partial_prologue_lanes (K : constants) (st : state) :
  state_ok st ->
  let st' := mds_partial_layer_init K (partial_first_constant_layer K st) in
  state_ok st' /\
  data (lane st' 0)
  ~= data (lane st 0) + u64_at (FAST_PARTIAL_FIRST_ROUND_CONSTANT K) 0 /\
  forall c, (1 <= c < 12)%nat -> data (lane st' c) ~= prologue_col K st c.
Proof.
  intros Hok. cbv zeta.
  assert (H1 : state_ok (partial_first_constant_layer K st)).
  { rewrite partial_first_constant_layer_shape by apply Hok.
    apply state_ok_map. intros i Hi. apply first_constant_lane_spec; assumption. }
  assert (L1 : forall i, (i < 12)%nat ->
                 data (lane (partial_first_constant_layer K st) i)
                 ~= data (lane st i) + u64_at (FAST_PARTIAL_FIRST_ROUND_CONSTANT K) i).
  { intros i Hi. rewrite partial_first_constant_layer_shape by apply Hok.
    rewrite lane_map_seq by exact Hi. cbn [Nat.add].
    apply first_constant_lane_spec; assumption. }
  assert (I : state_ok (mds_partial_layer_init K (partial_first_constant_layer K st)) /\
              lane (mds_partial_layer_init K (partial_first_constant_layer K st)) 0
              = lane (partial_first_constant_layer K st) 0 /\
              forall c, (1 <= c < 12)%nat ->
                data (lane (mds_partial_layer_init K (partial_first_constant_layer K st)) c)
                ~= init_col_sum K (partial_first_constant_layer K st) c).
  { apply mds_partial_layer_init_spec. exact H1. }
  destruct I as (H2 & E0 & Cc).
  split; [exact H2|]. split.
  - rewrite E0. apply L1. lia.
  - intros c Hc. rewrite (Cc c Hc). unfold init_col_sum, prologue_col.
    apply sum_Z_congr. intros r Hr. apply in_seq in Hr.
    apply congr_mul; [|reflexivity]. apply L1. lia.
Qed.

(** X29: [partial_first_constant_layer] followed by
    [mds_partial_layer_init] maps twelve 64-bit words to twelve 64-bit words,
    lane 0 congruent modulo [p] to [state[0] + FIRST_ROUND_CONSTANT[0]] and
    lane [c >= 1] to
    [sum_{r=1..11} (state[r] + FIRST_ROUND_CONSTANT[r]) * INITIAL_MATRIX[r-1][c-1]]. *)
Theorem partial_rounds_prologue (K : constants) (st : state) :
  state_ok st ->
  let st' := mds_partial_layer_init K (partial_first_constant_layer K st) in
  state_ok st' /\
  data (lane st' 0)
  ~= data (lane st 0) + u64_at (FAST_PARTIAL_FIRST_ROUND_CONSTANT K) 0 /\
  forall c, (1 <= c < 12)%nat -> data (lane st' c) ~= prologue_col K st c.
Proof. exact (partial_prologue_lanes K st). Qed.

Lemma partial_rounds_prologue_witness :
  state_ok sample_state /\
  let st' :=
    mds_partial_layer_init sample_constants
      (partial_first_constant_layer sample_constants sample_state) in
  state_ok st' /\
  data (lane st' 0)
  ~= data (lane sample_state 0)
     + u64_at (FAST_PARTIAL_FIRST_ROUND_CONSTANT sample_constants) 0 /\
  forall c, (1 <= c < 12)%nat ->
    data (lane st' c) ~= prologue_col sample_constants sample_state c.
Proof.
  split; [exact state_ok_sample_state|].
  exact (partial_rounds_prologue sample_constants sample_state state_ok_sample_state).
Defined.

(** *** The whole permutation keeps twelve 64-bit words *)

Lemma full_rounds_loop_state_ok (K : constants) (n round_ctr : nat) (st : state) :
  state_ok st ->
  exists st', full_rounds_loop K n round_ctr st = Ok ((round_ctr + n)%nat, st') /\
              state_ok st'.
Proof.
  revert round_ctr st. induction n as [|n IH]; intros round_ctr st Hok.
  - cbn. rewrite Nat.add_0_r. eauto.
  - cbn [full_rounds_loop].
    destruct (full_round_lanes K round_ctr st Hok) as [H2 _]. cbv zeta in H2.
    destruct (mds_layer_spec K _ H2) as (st1 & -> & H3 & _). cbn [bind].
    destruct (IH (round_ctr + 1)%nat st1 H3) as (st2 & -> & H4).
    replace (round_ctr + 1 + n)%nat with (round_ctr + S n)%nat by lia. eauto.
Qed.

Lemma partial_rounds_loop_state_ok (K : constants) (n i : nat) (st : state) :
  state_ok st -> state_ok (partial_rounds_loop K n i st).
Proof.
  revert i st. induction n as [|n IH]; intros i st Hok; [exact Hok|].
  change (partial_rounds_loop K (S n) i st)
    with (partial_rounds_loop K n (i + 1) (partial_rounds_loop K 1 i st)).
  apply IH. apply partial_round_lanes. exact Hok.
Qed.

Lemma permute_poseidon_state_ok (K : constants) (st : state) :
  N_ROUNDS K = (2 * HALF_N_FULL_ROUNDS K + N_PARTIAL_ROUNDS K)%nat ->
  state_ok st ->
  exists st', permute_poseidon K st = Ok st' /\ state_ok st'.
Proof.
  intros HN Hok. unfold permute_poseidon, full_rounds, partial_rounds.
  destruct (full_rounds_loop_state_ok K (HALF_N_FULL_ROUNDS K) 0 st Hok)
    as (st1 & -> & H1).
  cbn [bind].
  destruct (partial_prologue_lanes K st1 H1) as [H2 _]. cbv zeta in H2.
  pose proof (partial_rounds_loop_state_ok K (N_PARTIAL_ROUNDS K) 0 _ H2) as H3.
  match goal with
  | |- context [full_rounds_loop K ?n ?c ?s] =>
      destruct (full_rounds_loop_state_ok K n c s H3) as (st2 & -> & H4)
  end.
  cbn [bind].
  replace (_ =? N_ROUNDS K)%nat with true by (symmetry; apply Nat.eqb_eq; lia).
  cbn [assert bind]. eauto.
Qed.

(** *** The round counter *)

(** X30: [permute_poseidon] returns a state when
    [N_ROUNDS = 2 * HALF_N_FULL_ROUNDS + N_PARTIAL_ROUNDS], twelve 64-bit words
    for twelve 64-bit words, and fails its final assertion otherwise,
    whatever the state. *)
Theorem permute_poseidon_round_counter (K : constants) (st : state) :
  (N_ROUNDS K = (2 * HALF_N_FULL_ROUNDS K + N_PARTIAL_ROUNDS K)%nat ->
   exists st', permute_poseidon K st = Ok st' /\ (state_ok st -> state_ok st')) /\
  (N_ROUNDS K <> (2 * HALF_N_FULL_ROUNDS K + N_PARTIAL_ROUNDS K)%nat ->
   permute_poseidon K st = AssertFail).
Proof.
  split.
  - intros HN. destruct (permute_poseidon_ok K st HN) as [st' E].
    exists st'. split; [exact E|]. intros Hok.
    destruct (permute_poseidon_state_ok K st HN Hok) as (st2 & E2 & H2).
    rewrite E in E2. injection E2 as ->. exact H2.
  - intros HN. unfold permute_poseidon, full_rounds, partial_rounds.
    destruct (full_rounds_loop_ok K (HALF_N_FULL_ROUNDS K) 0 st) as [st1 ->].
    cbn [bind].
    match goal with
    | |- context [full_rounds_loop K ?n ?c ?s] =>
        destruct (full_rounds_loop_ok K n c s) as [st2 ->]
    end.
    cbn [bind].
    replace (_ =? N_ROUNDS K)%nat with false by (symmetry; apply Nat.eqb_neq; lia).
    reflexivity.
Qed.
